(** * CPE candidate generation of syft (pkg/cataloger/cpe.go)

    A shallow embedding of the Go source in Rocq.  Go strings are byte
    sequences and are modelled by [string]; slices are lists; the string
    sets ([internal.StringSet], [map[string]struct{}]) are [gset string];
    the static override table is a [gmap] of [gmap]s. *)

From Stdlib Require Import Ascii String List Arith Lia Bool Permutation.
From stdpp Require Import base list strings gmap.

#[local] Set Warnings "-clear-no-such-hyp".

#[local] Arguments Ascii.eqb : simpl nomatch.
#[local] Arguments String.append !_ _ /.

(** ** The fragment of Go's [strings] and [bytes] packages used by cpe.go

    All separators the source works with ('-', '_', '/', '.', '|') are
    ASCII, so byte-wise and rune-wise processing coincide. *)

Module GoStrings.

Fixpoint HasPrefix (s prefix : string) {struct prefix} : bool :=
  match prefix with
  | EmptyString => true
  | String c prefix' =>
      match s with
      | EmptyString => false
      | String d s' => Ascii.eqb c d && HasPrefix s' prefix'
      end
  end.

(** [strings.Contains(s, substr)] *)
Fixpoint Contains (s substr : string) : bool :=
  HasPrefix s substr ||
  match s with
  | EmptyString => false
  | String _ s' => Contains s' substr
  end.

(** [s[n:]] and [s[:n]] *)
Fixpoint dropBytes (n : nat) (s : string) : string :=
  match n, s with
  | S n', String _ s' => dropBytes n' s'
  | _, _ => s
  end.

Fixpoint takeBytes (n : nat) (s : string) : string :=
  match n, s with
  | S n', String c s' => String c (takeBytes n' s')
  | _, _ => EmptyString
  end.

(** [strings.ReplaceAll(s, old, new)] for a non-empty [old]: the
    non-overlapping occurrences of [old] are replaced from left to right.
    [skip] counts the bytes of a matched occurrence still to be passed. *)
Fixpoint replaceFrom (skip : nat) (s old new : string) : string :=
  match s with
  | EmptyString => EmptyString
  | String c s' =>
      match skip with
      | S k => replaceFrom k s' old new
      | O =>
          if HasPrefix s old
          then new +:+ replaceFrom (String.length old - 1) s' old new
          else String c (replaceFrom 0 s' old new)
      end
  end.

Definition ReplaceAll (s old new : string) : string := replaceFrom 0 s old new.

(** [strings.Split(s, sep)] for a non-empty [sep]; [cur] is the field
    being collected. *)
Fixpoint splitFrom (skip : nat) (s sep cur : string) : list string :=
  match s with
  | EmptyString => [cur]
  | String c s' =>
      match skip with
      | S k => splitFrom k s' sep cur
      | O =>
          if HasPrefix s sep
          then cur :: splitFrom (String.length sep - 1) s' sep EmptyString
          else splitFrom 0 s' sep (cur +:+ String c EmptyString)
      end
  end.

Definition Split (s sep : string) : list string := splitFrom 0 s sep EmptyString.

(** [strings.TrimFunc(s, f)]: drop the leading and the trailing bytes
    that satisfy [f]. *)
Fixpoint trimLeftFunc (f : ascii -> bool) (s : string) : string :=
  match s with
  | EmptyString => EmptyString
  | String c s' => if f c then trimLeftFunc f s' else s
  end.

Fixpoint trimRightFunc (f : ascii -> bool) (s : string) : string :=
  match s with
  | EmptyString => EmptyString
  | String c s' =>
      match trimRightFunc f s' with
      | EmptyString => if f c then EmptyString else String c EmptyString
      | t => String c t
      end
  end.

Definition TrimFunc (s : string) (f : ascii -> bool) : string :=
  trimRightFunc f (trimLeftFunc f s).

Fixpoint byteIn (c : ascii) (cutset : string) : bool :=
  match cutset with
  | EmptyString => false
  | String d cutset' => Ascii.eqb c d || byteIn c cutset'
  end.

(** [strings.Trim(s, cutset)] *)
Definition Trim (s cutset : string) : string :=
  TrimFunc s (fun c => byteIn c cutset).

(** [bytes.IndexAny(data, chars)]: [None] stands for -1. *)
Fixpoint IndexAny (data chars : string) : option nat :=
  match data with
  | EmptyString => None
  | String c data' =>
      if byteIn c chars then Some 0
      else match IndexAny data' chars with
           | Some i => Some (S i)
           | None => None
           end
  end.

(** [strings.Index(s, c)] for a one-byte needle *)
Definition IndexByte (s : string) (c : ascii) : option nat :=
  IndexAny s (String c EmptyString).

(** [strings.LastIndex(s, c)] for a one-byte needle *)
Fixpoint LastIndexByte (s : string) (c : ascii) : option nat :=
  match s with
  | EmptyString => None
  | String d s' =>
      match LastIndexByte s' c with
      | Some i => Some (S i)
      | None => if Ascii.eqb d c then Some 0 else None
      end
  end.

(** The last byte [s[len(s)-1]] of a non-empty string. *)
Fixpoint lastByte (s : string) : option ascii :=
  match s with
  | EmptyString => None
  | String c EmptyString => Some c
  | String _ s' => lastByte s'
  end.

(** [strings.ToLower] on the ASCII range: 'A'..'Z' are mapped to
    'a'..'z', every other byte is kept. *)
Definition lowerByte (c : ascii) : ascii :=
  let n := nat_of_ascii c in
  if (65 <=? n) && (n <=? 90) then ascii_of_nat (n + 32) else c.

Fixpoint ToLower (s : string) : string :=
  match s with
  | EmptyString => EmptyString
  | String c s' => String (lowerByte c) (ToLower s')
  end.

End GoStrings.

Import GoStrings.

(** ** Separator normalizer, sub-selection expander, duplicate removal *)

(** [trimHyphenOrUnderscore] *)
Definition trimHyphenOrUnderscore (r : ascii) : bool :=
  if Ascii.eqb r "-"%char then true
  else if Ascii.eqb r "_"%char then true
  else false.

(** [scanHyphenOrUnderscore]: the split function handed to the scanner.
    The result is [(advance, token)]; a [nil] token is [None]. *)
Definition scanHyphenOrUnderscore (data : string) (atEOF : bool)
  : nat * option string :=
  if atEOF && (String.length data =? 0) then (0, None)
  else
    match IndexAny data "-_" with
    | Some i => (i + 1, Some (takeBytes (i + 1) data))
    | None => if atEOF then (String.length data, Some data) else (0, None)
    end.

(** [bufio.Scanner] over [strings.NewReader(field)] with the split function
    above: the texts that the successive calls of [Scan] deliver.  The
    scanner first offers the buffered bytes with [atEOF = false]; when the
    split function asks for more, the reader is exhausted and the same
    bytes are offered again with [atEOF = true].  [Scan] returns false when
    that call yields no token either.  Every token consumes at least one
    byte, so [String.length field] rounds (plus the final empty one)
    suffice.  (The scanner's 64 KiB limit on a single token is out of
    reach of a package name and is not modelled.) *)
Fixpoint scanTokens (rounds : nat) (data : string) : list string :=
  match rounds with
  | O => []
  | S rounds' =>
      match scanHyphenOrUnderscore data false with
      | (advance, Some token) => token :: scanTokens rounds' (dropBytes advance data)
      | (_, None) =>
          match scanHyphenOrUnderscore data true with
          | (advance, Some token) => token :: scanTokens rounds' (dropBytes advance data)
          | (_, None) => []
          end
      end
  end.

Definition scannerTexts (field : string) : list string :=
  scanTokens (S (String.length field)) field.

(** The body of the [for scanner.Scan()] loop of [generateSubSelections],
    run over the scanned texts; the loop state is [results] and
    [lastToken]. *)
Fixpoint subSelectionLoop (texts : list string) (results : list string)
    (lastToken : ascii) : list string :=
  match texts with
  | [] => results
  | rawCandidate :: texts' =>
      if String.length rawCandidate =? 0 then results (* break *)
      else
        let candidate := TrimFunc rawCandidate trimHyphenOrUnderscore in
        let results' :=
          if 0 <? String.length candidate then
            if 0 <? length results
            then results ++ [List.last results "" +:+ String lastToken "" +:+ candidate]
            else results ++ [candidate]
          else results in
        subSelectionLoop texts' results'
          (default lastToken (lastByte rawCandidate))
  end.

(** [generateSubSelections]; [lastToken] starts as the zero byte. *)
Definition generateSubSelections (field : string) : list string :=
  subSelectionLoop (scannerTexts field) [] zero.

(** [generateAllSubSelections] *)
Fixpoint generateAllSubSelections (fields : list string) : list string :=
  match fields with
  | [] => []
  | field :: fields' => generateSubSelections field ++ generateAllSubSelections fields'
  end.

(** The variants [normalizeAllSeparators] appends for one field. *)
Definition normalizeSeparators (field : string) : list string :=
  let hasHyphen := Contains field "-" in
  let hasUnderscore := Contains field "_" in
  [field]
  ++ (if hasHyphen
      then [ReplaceAll field "-" "_"; ReplaceAll field "-" ""] else [])
  ++ (if hasUnderscore
      then [ReplaceAll field "_" "-"; ReplaceAll field "_" ""] else []).

(** [normalizeAllSeparators] *)
Fixpoint normalizeAllSeparators (fields : list string) : list string :=
  match fields with
  | [] => []
  | field :: fields' => normalizeSeparators field ++ normalizeAllSeparators fields'
  end.

(** The loop of [removeDuplicateValues] with its [observed] map. *)
Fixpoint removeDuplicateLoop (values : list string) (observed : gset string)
    (results : list string) : list string :=
  match values with
  | [] => results
  | entry :: values' =>
      if decide (entry ∈ observed) then removeDuplicateLoop values' observed results
      else removeDuplicateLoop values' ({[entry]} ∪ observed) (results ++ [entry])
  end.

(** [removeDuplicateValues] *)
Definition removeDuplicateValues (values : list string) : list string :=
  removeDuplicateLoop values ∅ [].

(** ** The fragment of Go's [net/url] that [url.Parse] runs on a module path

    [candidateProductForGo] and [candidateVendorForGo] call
    [url.Parse("http://" + name)] and read [Host] and [Path] of the result.
    The model follows [Parse], [parse], [getscheme], [parseAuthority],
    [parseHost], [validUserinfo], [validOptionalPort], [shouldEscape] and
    [unescape] of the Go standard library; [None] stands for a returned
    error. *)

Module NetURL.

Record URL := mkURL {
  Scheme : string;
  Opaque : string;
  Host : string;
  Path : string;
  RawQuery : string;
  Fragment : string
}.

Inductive encoding :=
| encodePath | encodePathSegment | encodeHost | encodeZone
| encodeUserPassword | encodeQueryComponent | encodeFragment.

Definition encoding_eqb (m n : encoding) : bool :=
  match m, n with
  | encodePath, encodePath | encodePathSegment, encodePathSegment
  | encodeHost, encodeHost | encodeZone, encodeZone
  | encodeUserPassword, encodeUserPassword
  | encodeQueryComponent, encodeQueryComponent
  | encodeFragment, encodeFragment => true
  | _, _ => false
  end.

Definition byteBetween (lo hi c : ascii) : bool :=
  (nat_of_ascii lo <=? nat_of_ascii c) && (nat_of_ascii c <=? nat_of_ascii hi).

Definition isAlpha (c : ascii) : bool :=
  byteBetween "a" "z" c || byteBetween "A" "Z" c.

Definition isDigit (c : ascii) : bool := byteBetween "0" "9" c.

(** [stringContainsCTLByte] *)
Fixpoint stringContainsCTLByte (s : string) : bool :=
  match s with
  | EmptyString => false
  | String b s' =>
      (nat_of_ascii b <? 32) || (nat_of_ascii b =? 127) || stringContainsCTLByte s'
  end.

(** [split(s, sep, cutc)]: the parts before and after the first [sep]. *)
Definition split (s : string) (sep : ascii) (cutc : bool) : string * string :=
  match IndexByte s sep with
  | None => (s, EmptyString)
  | Some i =>
      if cutc then (takeBytes i s, dropBytes (i + 1) s)
      else (takeBytes i s, dropBytes i s)
  end.

Definition ishex (c : ascii) : bool :=
  isDigit c || byteBetween "a" "f" c || byteBetween "A" "F" c.

Definition unhex (c : ascii) : nat :=
  if isDigit c then nat_of_ascii c - 48
  else if byteBetween "a" "f" c then nat_of_ascii c - 97 + 10
  else if byteBetween "A" "F" c then nat_of_ascii c - 65 + 10
  else 0.

(** The double-quote byte (code 34). *)
Definition doubleQuote : ascii := ascii_of_nat 34.

(** [shouldEscape(c, mode)] *)
Definition shouldEscape (c : ascii) (mode : encoding) : bool :=
  if isAlpha c || isDigit c then false
  else if (encoding_eqb mode encodeHost || encoding_eqb mode encodeZone)
          && (byteIn c "!$&'()*+,;=:[]<>" || Ascii.eqb c doubleQuote) then false
  else if byteIn c "-_.~" then false
  else if byteIn c "$&+,/:;=?@" then
    match mode with
    | encodePath => Ascii.eqb c "?"
    | encodePathSegment => byteIn c "/;,?"
    | encodeUserPassword => byteIn c "@/?:"
    | encodeQueryComponent => true
    | encodeFragment => false
    | _ => true
    end
  else if encoding_eqb mode encodeFragment && byteIn c "!()*" then false
  else true.

(** [unescape(s, mode)]: the validation pass and the decoding pass of the
    Go function in one traversal. *)
Fixpoint unescape (s : string) (mode : encoding) : option string :=
  match s with
  | EmptyString => Some EmptyString
  | String c rest =>
      if Ascii.eqb c "%" then
        match rest with
        | String h1 (String h2 rest') =>
            if negb (ishex h1 && ishex h2) then None
            else if encoding_eqb mode encodeHost && (unhex h1 <? 8)
                    && negb (Ascii.eqb h1 "2" && Ascii.eqb h2 "5") then None
            else if encoding_eqb mode encodeZone
                    && negb (Ascii.eqb h1 "2" && Ascii.eqb h2 "5")
                    && negb (unhex h1 * 16 + unhex h2 =? 32)
                    && shouldEscape (ascii_of_nat (unhex h1 * 16 + unhex h2)) encodeHost
                 then None
            else
              match unescape rest' mode with
              | Some t => Some (String (ascii_of_nat (unhex h1 * 16 + unhex h2)) t)
              | None => None
              end
        | _ => None
        end
      else if (encoding_eqb mode encodeHost || encoding_eqb mode encodeZone)
              && (nat_of_ascii c <? 128) && shouldEscape c encodeHost then None
      else
        match unescape rest mode with
        | Some t =>
            Some (String (if Ascii.eqb c "+" && encoding_eqb mode encodeQueryComponent
                          then " "%char else c) t)
        | None => None
        end
  end.

(** [getscheme]: [Some (scheme, rest)], or [None] for "missing protocol
    scheme".  [i] is the index of the byte looked at, [seen] the bytes
    before it. *)
Fixpoint getschemeFrom (i : nat) (seen rest rawurl : string)
  : option (string * string) :=
  match rest with
  | EmptyString => Some (EmptyString, rawurl)
  | String c rest' =>
      if isAlpha c then getschemeFrom (S i) (seen +:+ String c "") rest' rawurl
      else if isDigit c || byteIn c "+-." then
        if i =? 0 then Some (EmptyString, rawurl)
        else getschemeFrom (S i) (seen +:+ String c "") rest' rawurl
      else if Ascii.eqb c ":" then
        if i =? 0 then None else Some (seen, rest')
      else Some (EmptyString, rawurl)
  end.

Definition getscheme (rawurl : string) : option (string * string) :=
  getschemeFrom 0 EmptyString rawurl rawurl.

(** [validOptionalPort] *)
Definition validOptionalPort (port : string) : bool :=
  match port with
  | EmptyString => true
  | String c digits =>
      Ascii.eqb c ":" &&
      (fix allDigits (s : string) : bool :=
         match s with
         | EmptyString => true
         | String b s' => isDigit b && allDigits s'
         end) digits
  end.

(** [validUserinfo] *)
Fixpoint validUserinfo (s : string) : bool :=
  match s with
  | EmptyString => true
  | String r s' =>
      (isAlpha r || isDigit r || byteIn r "-._:~!$&'()*+,;=%@") && validUserinfo s'
  end.

(** [strings.Index(s, substr)] *)
Fixpoint IndexString (s substr : string) : option nat :=
  if HasPrefix s substr then Some 0
  else match s with
       | EmptyString => None
       | String _ s' =>
           match IndexString s' substr with
           | Some i => Some (S i)
           | None => None
           end
       end.

(** [parseHost] *)
Definition parseHost (host : string) : option string :=
  if HasPrefix host "[" then
    match LastIndexByte host "]" with
    | None => None
    | Some i =>
        if negb (validOptionalPort (dropBytes (i + 1) host)) then None
        else
          match IndexString (takeBytes i host) "%25" with
          | Some zone =>
              match unescape (takeBytes zone host) encodeHost,
                    unescape (dropBytes zone (takeBytes i host)) encodeZone,
                    unescape (dropBytes i host) encodeHost with
              | Some host1, Some host2, Some host3 => Some (host1 +:+ host2 +:+ host3)
              | _, _, _ => None
              end
          | None => unescape host encodeHost
          end
    end
  else
    match LastIndexByte host ":" with
    | Some i =>
        if negb (validOptionalPort (dropBytes i host)) then None
        else unescape host encodeHost
    | None => unescape host encodeHost
    end.

(** [parseAuthority]: only the host of the result is kept, the user
    information is checked and dropped. *)
Definition parseAuthority (authority : string) : option string :=
  match LastIndexByte authority "@" with
  | None => parseHost authority
  | Some i =>
      match parseHost (dropBytes (i + 1) authority) with
      | None => None
      | Some host =>
          let userinfo := takeBytes i authority in
          if negb (validUserinfo userinfo) then None
          else if negb (Contains userinfo ":") then
            match unescape userinfo encodeUserPassword with
            | Some _ => Some host
            | None => None
            end
          else
            let (username, password) := split userinfo ":" true in
            match unescape username encodeUserPassword,
                  unescape password encodeUserPassword with
            | Some _, Some _ => Some host
            | _, _ => None
            end
      end
  end.

Fixpoint countByte (s : string) (c : ascii) : nat :=
  match s with
  | EmptyString => 0
  | String d s' => (if Ascii.eqb d c then 1 else 0) + countByte s' c
  end.

Definition HasSuffixByte (s : string) (c : ascii) : bool :=
  match lastByte s with
  | Some d => Ascii.eqb d c
  | None => false
  end.

(** [parse(rawurl, viaRequest = false)] *)
Definition parse (rawurl : string) : option URL :=
  if stringContainsCTLByte rawurl then None
  else if String.eqb rawurl "*" then Some (mkURL "" "" "" "*" "" "")
  else
    match getscheme rawurl with
    | None => None
    | Some (scheme0, rest0) =>
        let scheme := ToLower scheme0 in
        let (rest1, rawQuery) :=
          if HasSuffixByte rest0 "?" && (countByte rest0 "?" =? 1)
          then (takeBytes (String.length rest0 - 1) rest0, EmptyString)
          else split rest0 "?" true in
        if negb (HasPrefix rest1 "/") && negb (String.eqb scheme "") then
          Some (mkURL scheme rest1 "" "" rawQuery "")
        else if negb (HasPrefix rest1 "/")
                && match IndexByte rest1 ":", IndexByte rest1 "/" with
                   | Some colon, None => true
                   | Some colon, Some slash => colon <? slash
                   | None, _ => false
                   end then None
        else
          let authorityAndRest :=
            if (negb (String.eqb scheme "") || negb (HasPrefix rest1 "///"))
               && HasPrefix rest1 "//"
            then
              let (authority, rest2) := split (dropBytes 2 rest1) "/" false in
              match parseAuthority authority with
              | Some host => Some (host, rest2)
              | None => None
              end
            else Some (EmptyString, rest1) in
          match authorityAndRest with
          | None => None
          | Some (host, rest2) =>
              match unescape rest2 encodePath with
              | Some path => Some (mkURL scheme "" host path rawQuery "")
              | None => None
              end
          end
    end.

(** [Parse(rawurl)] *)
Definition Parse (rawurl : string) : option URL :=
  let (u, frag) := split rawurl "#" true in
  match parse u with
  | None => None
  | Some url =>
      if String.eqb frag "" then Some url
      else
        match unescape frag encodeFragment with
        | Some fragment =>
            Some (mkURL (Scheme url) (Opaque url) (Host url) (Path url)
                        (RawQuery url) fragment)
        | None => None
        end
  end.

End NetURL.

(** ** Packages and CPEs *)

(** [pkg.Language]: the languages cpe.go dispatches on, and the rest. *)
Inductive Language :=
| UnknownLanguage | Java | JavaScript | Python | Ruby | Go.

(** [pkg.Type]: the package types cpe.go names, and the rest. *)
Inductive PkgType :=
| UnknownPkg | GemPkg | GoModulePkg | JavaPkg | JenkinsPluginPkg | NpmPkg | PythonPkg.

(** [pkg.MetadataType] *)
Inductive MetadataType :=
| UnknownMetadataType | JavaMetadataType | OtherMetadataType.

(** [pkg.PomProperties], of which only the group identifier is read. *)
Record PomProperties := mkPomProperties { GroupID : string }.

(** The dynamic value of [Package.Metadata]: a [pkg.JavaMetadata] with its
    [PomProperties] pointer (nil is [None]), or anything else. *)
Inductive Metadata :=
| NoMetadata
| JavaMetadata (pomProperties : option PomProperties)
| OtherMetadata.

(** [pkg.Package], with the fields cpe.go reads. *)
Record Package := mkPackage {
  Name : string;
  Version : string;
  PLanguage : Language;
  PType : PkgType;
  PMetadataType : MetadataType;
  PMetadata : Metadata
}.

(** [wfn.Attributes] (= [pkg.CPE]) *)
Record CPE := mkCPE {
  Part : string;
  Vendor : string;
  Product : string;
  CVersion : string;
  Update : string;
  Edition : string;
  SWEdition : string;
  TargetSW : string;
  TargetHW : string;
  Other : string;
  CLanguage : string
}.

#[global] Instance Language_eq_dec : EqDecision Language.
Proof. solve_decision. Defined.

#[global] Instance PkgType_eq_dec : EqDecision PkgType.
Proof. solve_decision. Defined.

#[global] Instance MetadataType_eq_dec : EqDecision MetadataType.
Proof. solve_decision. Defined.

#[global] Instance CPE_eq_dec : EqDecision CPE.
Proof. solve_decision. Defined.

Definition PkgType_to_nat (t : PkgType) : nat :=
  match t with
  | UnknownPkg => 0 | GemPkg => 1 | GoModulePkg => 2 | JavaPkg => 3
  | JenkinsPluginPkg => 4 | NpmPkg => 5 | PythonPkg => 6
  end.

Definition PkgType_of_nat (n : nat) : PkgType :=
  match n with
  | 1 => GemPkg | 2 => GoModulePkg | 3 => JavaPkg
  | 4 => JenkinsPluginPkg | 5 => NpmPkg | 6 => PythonPkg
  | _ => UnknownPkg
  end.

#[global] Instance PkgType_countable : Countable PkgType.
Proof.
  apply (inj_countable' PkgType_to_nat PkgType_of_nat).
  intros t. destruct t; reflexivity.
Defined.

(** ** The static override table *)

(** [candidateStore]: map[pkg.Type]map[string][]string *)
Abbreviation candidateStore := (gmap PkgType (gmap string (list string))).

(** [productCandidatesByPkgType] *)
Definition productCandidatesByPkgType : candidateStore :=
  {[ JavaPkg := {[
       "springframework" := ["spring_framework"; "springsource_spring_framework"];
       "spring-core" := ["spring_framework"; "springsource_spring_framework"] ]};
     NpmPkg := {[
       "hapi" := ["hapi_server_framework"];
       "handlebars.js" := ["handlebars"];
       "is-my-json-valid" := ["is_my_json_valid"];
       "mustache" := ["mustache.js"] ]};
     GemPkg := {[
       "Arabic-Prawn" := ["arabic_prawn"];
       "bio-basespace-sdk" := ["basespace_ruby_sdk"];
       "cremefraiche" := ["creme_fraiche"];
       "html-sanitizer" := ["html_sanitizer"];
       "sentry-raven" := ["raven-ruby"];
       "RedCloth" := ["redcloth_library"];
       "VladTheEnterprising" := ["vladtheenterprising"];
       "yajl-ruby" := ["yajl-ruby_gem"] ]};
     PythonPkg := {[
       "python-rrdtool" := ["rrdtool"] ]} ]}.

(** [candidateStore.getCandidates]; a nil slice is the empty list. *)
Definition getCandidates (s : candidateStore) (t : PkgType) (key : string)
  : list string :=
  match s !! t with
  | None => []
  | Some byName =>
      match byName !! key with
      | None => []
      | Some value => value
      end
  end.

(** ** Go's [sort.Sort]

    [generatePackageCPEs] orders its result with
    [sort.Sort(ByCPESpecificity(cpes))].  [sort.Sort] is the in-place
    quicksort of the Go standard library (the version the repository was
    built with, up to Go 1.18): quicksort with a median-of-three or ninther
    pivot, heapsort once the recursion budget is spent, and a gap-6 pass
    followed by insertion sort for at most 12 elements.  It reaches the
    data only through [Less(i, j)] and [Swap(i, j)], which are modelled on
    a list; [less] compares two elements. *)

Module GoSort.

Section Sort.

Context {A : Type} (less : A -> A -> bool).

(** [data.Less(i, j)] *)
Definition Less (data : list A) (i j : nat) : bool :=
  match data !! i, data !! j with
  | Some x, Some y => less x y
  | _, _ => false
  end.

(** [data.Swap(i, j)] *)
Definition Swap (data : list A) (i j : nat) : list A :=
  match data !! i, data !! j with
  | Some x, Some y => <[i := y]> (<[j := x]> data)
  | _, _ => data
  end.

(** [for j := i; j > a && data.Less(j, j-1); j-- { data.Swap(j, j-1) }] *)
Fixpoint insertionInner (a j : nat) (data : list A) : list A :=
  match j with
  | O => data
  | S j' =>
      if (a <? j) && Less data j j'
      then insertionInner a j' (Swap data j j')
      else data
  end.

(** [for i := ...; i < b; i++], with [n = b - i] iterations left. *)
Fixpoint insertionOuter (n i a : nat) (data : list A) : list A :=
  match n with
  | O => data
  | S n' => insertionOuter n' (S i) a (insertionInner a i data)
  end.

(** [insertionSort(data, a, b)] *)
Definition insertionSort (data : list A) (a b : nat) : list A :=
  insertionOuter (b - (a + 1)) (a + 1) a data.

(** The loop of [siftDown]; [root] grows in every round and stays below
    [hi], so [hi] rounds are enough. *)
Fixpoint siftDownLoop (rounds root hi first : nat) (data : list A) : list A :=
  match rounds with
  | O => data
  | S rounds' =>
      let child := 2 * root + 1 in
      if hi <=? child then data
      else
        let child :=
          if (child + 1 <? hi) && Less data (first + child) (first + child + 1)
          then child + 1 else child in
        if negb (Less data (first + root) (first + child)) then data
        else siftDownLoop rounds' child hi first
               (Swap data (first + root) (first + child))
  end.

(** [siftDown(data, lo, hi, first)] *)
Definition siftDown (data : list A) (lo hi first : nat) : list A :=
  siftDownLoop hi lo hi first data.

(** [for i := (hi - 1) / 2; i >= 0; i-- { siftDown(data, i, hi, first) }] *)
Fixpoint heapBuild (i hi first : nat) (data : list A) : list A :=
  let data' := siftDown data i hi first in
  match i with
  | O => data'
  | S i' => heapBuild i' hi first data'
  end.

(** [for i := hi - 1; i >= 0; i-- { data.Swap(first, first+i);
    siftDown(data, lo, i, first) }], with [n = i + 1]. *)
Fixpoint heapPop (n first : nat) (data : list A) : list A :=
  match n with
  | O => data
  | S i => heapPop i first (siftDown (Swap data first (first + i)) 0 i first)
  end.

(** [heapSort(data, a, b)] *)
Definition heapSort (data : list A) (a b : nat) : list A :=
  let first := a in
  let hi := b - a in
  heapPop hi first (heapBuild ((hi - 1) / 2) hi first data).

(** [medianOfThree(data, m1, m0, m2)] *)
Definition medianOfThree (data : list A) (m1 m0 m2 : nat) : list A :=
  let data := if Less data m1 m0 then Swap data m1 m0 else data in
  if Less data m2 m1 then
    let data := Swap data m2 m1 in
    if Less data m1 m0 then Swap data m1 m0 else data
  else data.

(** [for ; i < c && cond(i); i++ {}], with [n = c - i]. *)
Fixpoint scanUp (n : nat) (cond : nat -> bool) (i : nat) : nat :=
  match n with
  | O => i
  | S n' => if cond i then scanUp n' cond (S i) else i
  end.

(** [for ; b < c && cond(c-1); c-- {}], with [n = c - b]. *)
Fixpoint scanDown (n : nat) (cond : nat -> bool) (c : nat) : nat :=
  match n with
  | O => c
  | S n' => if cond (c - 1) then scanDown n' cond (c - 1) else c
  end.

(** The partitioning loop of [doPivot]; [c - b] shrinks in every round. *)
Fixpoint partitionLoop (rounds pivot b c : nat) (data : list A)
  : list A * nat * nat :=
  match rounds with
  | O => (data, b, c)
  | S rounds' =>
      let b := scanUp (c - b) (fun i => negb (Less data pivot i)) b in
      let c := scanDown (c - b) (fun i => Less data pivot i) c in
      if c <=? b then (data, b, c)
      else partitionLoop rounds' pivot (b + 1) (c - 1) (Swap data b (c - 1))
  end.

(** The loop of [doPivot] that protects against many duplicates; [b - a]
    shrinks in every round. *)
Fixpoint protectLoop (rounds pivot a b : nat) (data : list A)
  : list A * nat * nat :=
  match rounds with
  | O => (data, a, b)
  | S rounds' =>
      let b := scanDown (b - a) (fun i => negb (Less data i pivot)) b in
      let a := scanUp (b - a) (fun i => Less data i pivot) a in
      if b <=? a then (data, a, b)
      else protectLoop rounds' pivot (a + 1) (b - 1) (Swap data a (b - 1))
  end.

(** [doPivot(data, lo, hi)]: the data, [midlo] and [midhi]. *)
Definition doPivot (data : list A) (lo hi : nat) : list A * nat * nat :=
  let m := (lo + hi) / 2 in
  let data :=
    if 40 <? hi - lo then
      let s := (hi - lo) / 8 in
      let data := medianOfThree data lo (lo + s) (lo + 2 * s) in
      let data := medianOfThree data m (m - s) (m + s) in
      medianOfThree data (hi - 1) (hi - 1 - s) (hi - 1 - 2 * s)
    else data in
  let data := medianOfThree data lo m (hi - 1) in
  let pivot := lo in
  let a := lo + 1 in
  let c := hi - 1 in
  let a := scanUp (c - a) (fun i => Less data i pivot) a in
  let b := a in
  let '(data, b, c) := partitionLoop (S (c - b)) pivot b c data in
  let protect := hi - c <? 5 in
  let '(data, b, c, protect) :=
    if negb protect && (hi - c <? (hi - lo) / 4) then
      let '(data, c, dups) :=
        if negb (Less data pivot (hi - 1))
        then (Swap data c (hi - 1), c + 1, 1) else (data, c, 0) in
      let '(b, dups) :=
        if negb (Less data (b - 1) pivot) then (b - 1, dups + 1) else (b, dups) in
      let '(data, b, dups) :=
        if negb (Less data m pivot)
        then (Swap data m (b - 1), b - 1, dups + 1) else (data, b, dups) in
      (data, b, c, 1 <? dups)
    else (data, b, c, protect) in
  let '(data, b) :=
    if protect then
      let '(data, _, b) := protectLoop (S (b - a)) pivot a b data in (data, b)
    else (data, b) in
  (Swap data pivot (b - 1), b - 1, c).

(** The gap-6 pass of [quickSort]:
    [for i := a + 6; i < b; i++ { if data.Less(i, i-6) { data.Swap(i, i-6) } }],
    with [n = b - i]. *)
Fixpoint shellPass (n i : nat) (data : list A) : list A :=
  match n with
  | O => data
  | S n' =>
      shellPass n' (S i) (if Less data i (i - 6) then Swap data i (i - 6) else data)
  end.

(** [quickSort(data, a, b, maxDepth)].  Every round of its loop and every
    recursive call lowers [maxDepth], which therefore bounds both. *)
Fixpoint quickSort (maxDepth : nat) (data : list A) (a b : nat) : list A :=
  if 12 <? b - a then
    match maxDepth with
    | O => heapSort data a b
    | S maxDepth' =>
        let '(data, mlo, mhi) := doPivot data a b in
        if mlo - a <? b - mhi
        then quickSort maxDepth' (quickSort maxDepth' data a mlo) mhi b
        else quickSort maxDepth' (quickSort maxDepth' data mhi b) a mlo
    end
  else if 1 <? b - a then insertionSort (shellPass (b - (a + 6)) (a + 6) data) a b
  else data.

(** [for i := n; i > 0; i >>= 1 { depth++ }] *)
Fixpoint maxDepthLoop (rounds i depth : nat) : nat :=
  match rounds with
  | O => depth
  | S rounds' => if 0 <? i then maxDepthLoop rounds' (i / 2) (depth + 1) else depth
  end.

(** [maxDepth(n)] *)
Definition maxDepth (n : nat) : nat := maxDepthLoop n n 0 * 2.

(** [sort.Sort(data)] *)
Definition Sort (data : list A) : list A :=
  let n := length data in
  quickSort (maxDepth n) data 0 n.

End Sort.

End GoSort.

(** ** Candidate resolution and CPE generation (cpe.go) *)

Import NetURL.

(** Modelled from the spec: [internal.HasAnyOfPrefixes], a helper of the
    repository outside cpe.go; the group identifier "starts with" one of
    the given prefixes. *)
Definition HasAnyOfPrefixes (input : string) (prefixes : list string) : bool :=
  existsb (HasPrefix input) prefixes.

(** [candidateProductForGo] *)
Definition candidateProductForGo (name : string) : string :=
  match Parse ("http://" +:+ name) with
  | None => ""
  | Some u =>
      let cleanPath := Trim (Path u) "/" in
      let pathElements := Split cleanPath "/" in
      if String.eqb (Host u) "golang.org" || String.eqb (Host u) "gopkg.in"
      then cleanPath
      else if String.eqb (Host u) "google.golang.org"
      then default "" (pathElements !! 0)
      else if length pathElements <? 2 then ""
      else default "" (pathElements !! 1)
  end.

(** [candidateVendorForGo] *)
Definition candidateVendorForGo (name : string) : string :=
  match Parse ("http://" +:+ name) with
  | None => ""
  | Some u =>
      let cleanPath := Trim (Path u) "/" in
      if String.eqb (Host u) "google.golang.org" then "google"
      else if String.eqb (Host u) "golang.org" then "golang"
      else if String.eqb (Host u) "gopkg.in" then ""
      else
        let pathElements := Split cleanPath "/" in
        if length pathElements <? 2 then ""
        else default "" (pathElements !! 0)
  end.

(** [groupIDFromPomProperties] *)
Definition groupIDFromPomProperties (p : Package) : string :=
  match PMetadata p with
  | JavaMetadata (Some pomProperties) => GroupID pomProperties
  | _ => ""
  end.

(** [candidateTargetSoftwareAttrsForJava] *)
Definition candidateTargetSoftwareAttrsForJava (p : Package) : list string :=
  if decide (PType p = JenkinsPluginPkg) then ["jenkins"; "cloudbees_jenkins"]
  else ["java"; "maven"].

(** [candidateTargetSoftwareAttrs] *)
Definition candidateTargetSoftwareAttrs (p : Package) : list string :=
  match PLanguage p with
  | Java => candidateTargetSoftwareAttrsForJava p
  | JavaScript => ["node.js"; "nodejs"]
  | Ruby => ["ruby"; "rails"]
  | Python => ["python"]
  | Go => ["go"; "golang"]
  | UnknownLanguage => []
  end.

(** The key of the duplicate check,
    [fmt.Sprintf("%s|%s|%s|%s", product, vendor, p.Version, targetSw)]. *)
Definition cpeKey (product vendor version targetSw : string) : string :=
  product +:+ "|" +:+ vendor +:+ "|" +:+ version +:+ "|" +:+ targetSw.

(** [filterFn] *)
Abbreviation filterFn := (CPE -> Package -> bool).

(** [filterCPEs] *)
Fixpoint filterCPEs (cpes : list CPE) (p : Package) (filters : list filterFn)
  : list CPE :=
  match cpes with
  | [] => []
  | cpe :: cpes' =>
      if existsb (fun fn => fn cpe p) filters
      then filterCPEs cpes' p filters
      else cpe :: filterCPEs cpes' p filters
  end.

(** Declared outside cpe.go and taken as parameters: the wildcard
    [wfn.Any] of the attribute library, and the group identifiers
    [pkg.JiraPluginPomPropertiesGroupID] and
    [pkg.JenkinsPluginPomPropertiesGroupIDs] of the plugin frameworks. *)
Class Externals := {
  wfn_Any : string;
  JiraPluginPomPropertiesGroupID : string;
  JenkinsPluginPomPropertiesGroupIDs : list string
}.

Section CPE.

Context {ext : Externals}.

(** [cpeFilters] *)
Definition cpeFilters : list filterFn :=
  [ (fun cpe p =>
       if String.eqb (Product cpe) "jira" && Contains (ToLower (Name p)) "client" then
         if String.eqb (Vendor cpe) wfn_Any || String.eqb (Vendor cpe) "jira"
            || String.eqb (Vendor cpe) "atlassian"
         then true else false
       else false);
    (fun cpe p =>
       if String.eqb (Product cpe) "jenkins"
          && negb (Contains (ToLower (Name p)) "jenkins") then
         if String.eqb (Vendor cpe) wfn_Any || String.eqb (Vendor cpe) "jenkins"
            || String.eqb (Vendor cpe) "cloudbees"
         then true else false
       else false) ].

(** [newCPE]: [wfn.NewAttributesWithAny()] with five attributes set. *)
Definition newCPE (product vendor version targetSW : string) : CPE :=
  {| Part := "a"; Vendor := vendor; Product := product; CVersion := version;
     Update := wfn_Any; Edition := wfn_Any; SWEdition := wfn_Any;
     TargetSW := targetSW; TargetHW := wfn_Any; Other := wfn_Any;
     CLanguage := wfn_Any |}.

(** [shouldConsiderGroupID] *)
Definition shouldConsiderGroupID (groupID : string) : bool :=
  if String.eqb groupID "" then false
  else
    let excludedGroupIDs :=
      [JiraPluginPomPropertiesGroupID] ++ JenkinsPluginPomPropertiesGroupIDs in
    negb (HasAnyOfPrefixes groupID excludedGroupIDs).

(** [productAndVendorFromPomPropertiesGroupID] *)
Definition productAndVendorFromPomPropertiesGroupID (p : Package)
  : string * string :=
  let groupID := groupIDFromPomProperties p in
  if negb (shouldConsiderGroupID groupID) then ("", "")
  else if negb (HasAnyOfPrefixes groupID ["com"; "org"]) then ("", "")
  else
    let fields := Split groupID "." in
    if length fields <? 3 then ("", "")
    else
      let product := default "" (fields !! 2) in
      let vendor := default "" (fields !! 1) in
      (product, vendor).

(** [candidateProductsForJava] *)
Definition candidateProductsForJava (p : Package) : list string :=
  let product := fst (productAndVendorFromPomPropertiesGroupID p) in
  if negb (String.eqb product "") then
    if bool_decide (PType p = JenkinsPluginPkg)
       && String.eqb (ToLower product) "jenkins"
    then []
    else [product]
  else [].

(** [candidateVendorsForJava] *)
Definition candidateVendorsForJava (p : Package) : list string :=
  let vendor := snd (productAndVendorFromPomPropertiesGroupID p) in
  if negb (String.eqb vendor "") then [vendor] else [].

(** The candidates of [candidateProducts] after its [switch], before the
    separators are normalized. *)
Definition baseProducts (p : Package) : list string :=
  let products := [Name p] in
  if bool_decide (PLanguage p = Python) then
    if negb (HasPrefix (Name p) "python")
    then products ++ ["python-" +:+ Name p]
    else products
  else if bool_decide (PMetadataType p = JavaMetadataType) then
    products ++ candidateProductsForJava p
  else if bool_decide (PLanguage p = Go) then
    let prod := candidateProductForGo (Name p) in
    if negb (String.eqb prod "") then [prod] else []
  else products.

(** [candidateProducts] *)
Definition candidateProducts (p : Package) : list string :=
  let products := baseProducts p in
  let products := normalizeAllSeparators products in
  let products :=
    getCandidates productCandidatesByPkgType (PType p) (Name p) ++ products in
  removeDuplicateValues products.

(** The candidates of [candidateVendors] after its [switch]. *)
Definition baseVendors (p : Package) : list string :=
  let vendors := candidateProducts p in
  match PLanguage p with
  | Java =>
      if bool_decide (PMetadataType p = JavaMetadataType)
      then vendors ++ candidateVendorsForJava p
      else vendors
  | Go =>
      let vendor := candidateVendorForGo (Name p) in
      if negb (String.eqb vendor "") then [vendor] else []
  | _ => vendors
  end.

(** [candidateVendors] *)
Definition candidateVendors (p : Package) : list string :=
  let vendors := baseVendors p in
  let vendors := normalizeAllSeparators vendors in
  let vendors := generateAllSubSelections vendors in
  removeDuplicateValues vendors.

(** The body of the innermost loop of [generatePackageCPEs]; the state is
    the key set and the slice [cpes]. *)
Definition addCPE (version product vendor targetSw : string)
    (st : gset string * list CPE) : gset string * list CPE :=
  let key := cpeKey product vendor version targetSw in
  if decide (key ∈ st.1) then st
  else ({[key]} ∪ st.1, st.2 ++ [newCPE product vendor version targetSw]).

(** The three nested loops of [generatePackageCPEs]. *)
Definition generateLoops (version : string) (products vendors targetSws : list string)
  : gset string * list CPE :=
  foldl (fun st product =>
    foldl (fun st vendor =>
      foldl (fun st targetSw => addCPE version product vendor targetSw st)
        st (wfn_Any :: targetSws))
      st vendors)
    (∅, []) products.

(** Modelled from the spec: the number of attributes of an identifier
    that are not the wildcard.  [ByCPESpecificity], the [sort.Interface]
    that [generatePackageCPEs] sorts with, is declared outside cpe.go;
    the spec orders identifiers with fewer wildcard fields first. *)
Definition countSpecifiedFields (c : CPE) : nat :=
  length (filter (fun field => field <> wfn_Any)
    [Part c; Vendor c; Product c; CVersion c; Update c; Edition c;
     SWEdition c; TargetSW c; TargetHW c; Other c; CLanguage c]).

(** Modelled from the spec: [ByCPESpecificity.Less] on two identifiers,
    the more specific one (fewer wildcard fields) first. *)
Definition ByCPESpecificity_Less (c1 c2 : CPE) : bool :=
  countSpecifiedFields c2 <? countSpecifiedFields c1.

(** The slice [cpes] of [generatePackageCPEs] when its loops are done:
    the identifiers in the order of their insertion. *)
Definition generatedCPEs (p : Package) : list CPE :=
  let targetSws := candidateTargetSoftwareAttrs p in
  let vendors := candidateVendors p in
  let products := candidateProducts p in
  (generateLoops (Version p) products vendors targetSws).2.

(** The identifiers of [generatePackageCPEs] after [filterCPEs], before
    they are sorted. *)
Definition filteredCPEs (p : Package) : list CPE :=
  filterCPEs (generatedCPEs p) p cpeFilters.

(** [generatePackageCPEs] *)
Definition generatePackageCPEs (p : Package) : list CPE :=
  let products := candidateProducts p in
  if length products =? 0 then []
  else GoSort.Sort ByCPESpecificity_Less (filteredCPEs p).

End CPE.

(** ** Notions the properties are stated with

    Example data, the parts of the spec that are compared with the code,
    and the invariants of the loops. *)

(** The values the parameters have where cpe.go is built: [wfn.Any] is the
    empty string in the attribute library, and package [pkg] lists the
    group identifiers of the Jira and Jenkins plugin frameworks. *)
Definition upstream : Externals :=
  {| wfn_Any := "";
     JiraPluginPomPropertiesGroupID := "com.atlassian.jira.plugins";
     JenkinsPluginPomPropertiesGroupIDs :=
       ["io.jenkins.plugins"; "org.jenkins.plugins"; "org.jenkins-ci.plugins";
        "io.jenkins-ci.plugins"; "com.cloudbees.jenkins.plugins"] |}.

(** A package without metadata. *)
Definition plainPackage (name version : string) (language : Language)
    (type : PkgType) : Package :=
  mkPackage name version language type UnknownMetadataType NoMetadata.

(** A Java archive with a [pom.properties] group identifier. *)
Definition javaPackage (name version groupID : string) (type : PkgType) : Package :=
  mkPackage name version Java type JavaMetadataType
    (JavaMetadata (Some (mkPomProperties groupID))).

(** The list of first occurrences, as a function of the list alone. *)
Fixpoint firstOccurrences (l : list string) : list string :=
  match l with
  | [] => []
  | x :: l' => x :: filter (fun y => y <> x) (firstOccurrences l')
  end.

(** [parse] on a raw URL that starts with "http://", in terms of what
    follows the scheme. *)
Definition parseAfterHTTP (n : string) : option URL :=
  if stringContainsCTLByte n then None
  else
    let (rest, rawQuery) :=
      if HasSuffixByte n "?" && (countByte n "?" =? 1)
      then (takeBytes (String.length n - 1) n, "")
      else split n "?" true in
    let (authority, path0) := split rest "/" false in
    match parseAuthority authority with
    | None => None
    | Some host =>
        match unescape path0 encodePath with
        | Some path => Some (mkURL "http" "" host path rawQuery "")
        | None => None
        end
    end.




(** *** Notions for the further properties *)

(** The field without its hyphens and underscores. *)
Definition withoutSeparators (field : string) : string :=
  ReplaceAll (ReplaceAll field "-" "") "_" "".

(** A segment of a field: a non-empty run of bytes without hyphen and
    underscore. *)
Definition segment (s : string) : Prop :=
  s ≠ "" ∧ Contains s "-" = false ∧ Contains s "_" = false.

(** A field that consists of segments with one separator between two of
    them: the first segment, then the separators with the segments that
    follow them. *)
Fixpoint joinSegments (first : string) (more : list (ascii * string)) : string :=
  match more with
  | [] => first
  | (sep, next) :: more' => first +:+ String sep (joinSegments next more')
  end.

(** Such a field is given by non-empty segments and separators that are
    a hyphen or an underscore. *)
Definition wellSeparated (first : string) (more : list (ascii * string)) : Prop :=
  segment first ∧
  Forall (fun m => trimHyphenOrUnderscore m.1 = true ∧ segment m.2) more.

(** The prefixes of such a field that end with a segment, shortest first;
    [prefix] is the field up to the segment reached. *)
Fixpoint segmentPrefixes (prefix : string) (more : list (ascii * string))
  : list string :=
  match more with
  | [] => [prefix]
  | (sep, next) :: more' =>
      prefix :: segmentPrefixes (prefix +:+ String sep next) more'
  end.

(** The texts of the scanner: every text but the last is a run of bytes
    without separator (it may be empty) and the separator that ends it; the
    last text may lack the separator, and is not empty then. *)
Inductive separatedTexts : list string -> Prop :=
| separatedTexts_nil : separatedTexts []
| separatedTexts_last body : segment body -> separatedTexts [body]
| separatedTexts_cons body sep texts :
    Contains body "-" = false -> Contains body "_" = false ->
    trimHyphenOrUnderscore sep = true ->
    separatedTexts texts ->
    separatedTexts ((body +:+ String sep "") :: texts).

(** The combinations that the three nested loops of [generatePackageCPEs]
    visit, in the order of the visits. *)
Definition combinations (products vendors targetSws : list string)
  : list (string * string * string) :=
  products ≫= fun product =>
    vendors ≫= fun vendor =>
      targetSws ≫= fun targetSw => [(product, vendor, targetSw)].

(** A byte of an ordinary element of a module path: a letter, a digit, or
    one of '-', '_', '.', '~'. *)
Definition plainByte (c : ascii) : bool :=
  isAlpha c || isDigit c || byteIn c "-_.~".

(** A string of such bytes. *)
Fixpoint plain (s : string) : bool :=
  match s with
  | EmptyString => true
  | String c s' => plainByte c && plain s'
  end.

(** A string of such bytes and slashes. *)
Fixpoint plainPath (s : string) : bool :=
  match s with
  | EmptyString => true
  | String c s' => (plainByte c || Ascii.eqb c "/") && plainPath s'
  end.

(** The entries of a store: package type, package name and aliases. *)
Definition allEntries (s : candidateStore) : list (PkgType * string * list string) :=
  map_to_list s ≫= fun byType =>
    (fun entry => (byType.1, entry.1, entry.2)) <$> map_to_list byType.2.

(** What holds of every entry of the override table. *)
Definition tableEntry (entry : PkgType * string * list string) : Prop :=
  entry.1.1 ∈ [JavaPkg; NpmPkg; GemPkg; PythonPkg] ∧
  entry.2 ≠ [] ∧ NoDup entry.2 ∧
  Forall (fun alias =>
            alias ≠ "" ∧ alias ≠ entry.1.2 ∧ Contains alias "|" = false ∧
            ToLower alias = alias ∧ alias ∈ generateSubSelections alias)
    entry.2.

(** It is decidable, so it can be checked on the table by evaluation. *)
#[local] Instance tableEntry_dec entry : Decision (tableEntry entry).
Proof. unfold tableEntry. apply _. Defined.

Section Statements.

Context {ext : Externals}.

(** What the loops maintain: the slice has no repeated identifier, the key
    of every identifier in it is in the key set, and every identifier was
    built by [newCPE] with the package version. *)
Definition loopInvariant (version : string) (st : gset string * list CPE) : Prop :=
  NoDup st.2 ∧
  ∀ c, c ∈ st.2 ->
    cpeKey (Product c) (Vendor c) version (TargetSW c) ∈ st.1 ∧
    c = newCPE (Product c) (Vendor c) version (TargetSW c).

(** The conditions under which the derivation rejects a group identifier. *)
Definition rejectsGroupID (groupID : string) : bool :=
  String.eqb groupID ""
  || HasAnyOfPrefixes groupID
       (JiraPluginPomPropertiesGroupID :: JenkinsPluginPomPropertiesGroupIDs)
  || negb (HasAnyOfPrefixes groupID ["com"; "org"])
  || (length (Split groupID ".") <? 3).

(** Product resolution in the order the spec gives (§4.3): the override
    aliases are prepended to the base candidates, then every candidate is
    separator-normalized, then sub-selection-expanded, then duplicates
    are removed. *)
Definition candidateProducts_specified (p : Package) : list string :=
  let products :=
    getCandidates productCandidatesByPkgType (PType p) (Name p) ++ baseProducts p in
  removeDuplicateValues
    (generateAllSubSelections (normalizeAllSeparators products)).




(** The key by which [sort.Sort] sees the identifiers: the number of
    wildcard attributes among the eleven. *)
Definition wildcardCount (c : CPE) : nat := 11 - countSpecifiedFields c.

(** The first part of C9 as the claim states it: two surviving
    identifiers that are equally specific keep the order in which they
    were inserted. *)
Definition specificity_order_is_stable : Prop :=
  ∀ p c1 c2 i j,
    countSpecifiedFields c1 = countSpecifiedFields c2 ->
    filteredCPEs p !! i = Some c1 -> filteredCPEs p !! j = Some c2 -> i < j ->
    ∃ i' j',
      generatePackageCPEs p !! i' = Some c1 ∧
      generatePackageCPEs p !! j' = Some c2 ∧ i' < j'.

(** The identifier that [newCPE] builds for a combination. *)
Definition combinationCPE (version : string) (c : string * string * string) : CPE :=
  newCPE c.1.1 c.1.2 version c.2.

(** The loop body on a combination. *)
Definition addCombination (version : string) (st : gset string * list CPE)
    (c : string * string * string) : gset string * list CPE :=
  addCPE version c.1.1 c.1.2 c.2 st.

End Statements.

(** * Properties *)

(** ** The model on examples *)

Example ReplaceAll_ex : ReplaceAll "a-b-c" "-" "_" = "a_b_c".
Proof. reflexivity. Qed.

Example Split_ex : Split "org.apache.commons" "." = ["org"; "apache"; "commons"].
Proof. reflexivity. Qed.

Example Split_empty : Split "" "/" = [""].
Proof. reflexivity. Qed.

Example Trim_ex : Trim "/x/net/" "/" = "x/net".
Proof. reflexivity. Qed.

Example ToLower_ex : ToLower "Jira-CLIENT" = "jira-client".
Proof. reflexivity. Qed.

Example generateSubSelections_jenkins :
  generateSubSelections "jenkins-ci-plugin" = ["jenkins"; "jenkins-ci"; "jenkins-ci-plugin"].
Proof. reflexivity. Qed.

Example GoSort_small :
  GoSort.Sort Nat.ltb [5; 3; 9; 1; 4; 1; 8] = [1; 1; 3; 4; 5; 8; 9].
Proof. reflexivity. Qed.

Example GoSort_large :
  GoSort.Sort Nat.ltb
    [20; 5; 3; 9; 1; 4; 1; 8; 17; 2; 6; 11; 0; 15; 7; 19; 3; 12; 10; 14; 13; 16; 18; 2]
  = [0; 1; 1; 2; 2; 3; 3; 4; 5; 6; 7; 8; 9; 10; 11; 12; 13; 14; 15; 16; 17; 18; 19; 20].
Proof. vm_compute. reflexivity. Qed.

(** ** [sort.Sort] only swaps: its result is a permutation of its input *)

Module GoSortPerm.

Import GoSort.

Section Perm.

Context {A : Type} (less : A -> A -> bool).

Lemma Swap_perm (data : list A) i j : Swap data i j ≡ₚ data.
Proof.
  unfold Swap.
  destruct (data !! i) as [x|] eqn:Hi; [|done].
  destruct (data !! j) as [y|] eqn:Hj; [|done].
  by apply Permutation_insert_swap.
Qed.

Lemma insertionInner_perm a j (data : list A) :
  insertionInner less a j data ≡ₚ data.
Proof.
  revert data. induction j as [|j IH]; intros data; simpl; [done|].
  destruct (_ && _); [|done]. by rewrite IH, Swap_perm.
Qed.

Lemma insertionOuter_perm n i a (data : list A) :
  insertionOuter less n i a data ≡ₚ data.
Proof.
  revert i data. induction n as [|n IH]; intros i data; simpl; [done|].
  by rewrite IH, insertionInner_perm.
Qed.

Lemma insertionSort_perm (data : list A) a b :
  insertionSort less data a b ≡ₚ data.
Proof. apply insertionOuter_perm. Qed.

Lemma siftDownLoop_perm rounds root hi first (data : list A) :
  siftDownLoop less rounds root hi first data ≡ₚ data.
Proof.
  revert root data. induction rounds as [|n IH]; intros root data; simpl; [done|].
  destruct (hi <=? _); [done|].
  destruct (negb _); [done|]. by rewrite IH, Swap_perm.
Qed.

Lemma siftDown_perm (data : list A) lo hi first :
  siftDown less data lo hi first ≡ₚ data.
Proof. apply siftDownLoop_perm. Qed.

Lemma heapBuild_perm i hi first (data : list A) :
  heapBuild less i hi first data ≡ₚ data.
Proof.
  revert data. induction i as [|i IH]; intros data; simpl.
  - apply siftDown_perm.
  - by rewrite IH, siftDown_perm.
Qed.

Lemma heapPop_perm n first (data : list A) :
  heapPop less n first data ≡ₚ data.
Proof.
  revert data. induction n as [|n IH]; intros data; simpl; [done|].
  by rewrite IH, siftDown_perm, Swap_perm.
Qed.

Lemma heapSort_perm (data : list A) a b : heapSort less data a b ≡ₚ data.
Proof. unfold heapSort. by rewrite heapPop_perm, heapBuild_perm. Qed.

Lemma medianOfThree_perm (data : list A) m1 m0 m2 :
  medianOfThree less data m1 m0 m2 ≡ₚ data.
Proof.
  unfold medianOfThree.
  repeat (destruct (Less _ _ _ _); rewrite ?Swap_perm); done.
Qed.

Lemma partitionLoop_perm rounds pivot b c (data : list A) :
  (partitionLoop less rounds pivot b c data).1.1 ≡ₚ data.
Proof.
  revert b c data. induction rounds as [|n IH]; intros b c data; simpl; [done|].
  destruct (_ <=? _); [done|]. by rewrite IH, Swap_perm.
Qed.

Lemma protectLoop_perm rounds pivot a b (data : list A) :
  (protectLoop less rounds pivot a b data).1.1 ≡ₚ data.
Proof.
  revert a b data. induction rounds as [|n IH]; intros a b data; simpl; [done|].
  destruct (_ <=? _); [done|]. by rewrite IH, Swap_perm.
Qed.

Lemma doPivot_perm (data : list A) lo hi :
  (doPivot less data lo hi).1.1 ≡ₚ data.
Proof.
  unfold doPivot.
  set (d0 := if 40 <? hi - lo then _ else data).
  assert (d0 ≡ₚ data) as H0.
  { subst d0. destruct (40 <? hi - lo); [|done].
    by rewrite !medianOfThree_perm. }
  set (d1 := medianOfThree less d0 lo _ _).
  assert (d1 ≡ₚ data) as H1 by (subst d1; by rewrite medianOfThree_perm).
  clearbody d1. clear d0 H0.
  set (a := scanUp _ _ _). clearbody a.
  pose proof (partitionLoop_perm (S (hi - 1 - a)) lo a (hi - 1) d1) as H2.
  destruct (partitionLoop _ _ _ _ _ _) as [[d2 b] c]. simpl in H2.
  rewrite H1 in H2. clear d1 H1.
  destruct (negb (hi - c <? 5) && _).
  - set (t1 := if negb (Less less d2 lo (hi - 1)) then _ else _).
    assert (t1.1.1 ≡ₚ data) as H3.
    { subst t1. destruct (negb _); simpl; by rewrite ?Swap_perm. }
    destruct t1 as [[d3 c3] dups3]. simpl in H3.
    destruct (if negb (Less less d3 (b - 1) lo) then _ else _) as [b4 dups4].
    set (t5 := if negb (Less less d3 _ lo) then _ else _).
    assert (t5.1.1 ≡ₚ data) as H5.
    { subst t5. destruct (negb _); simpl; by rewrite ?Swap_perm. }
    destruct t5 as [[d5 b5] dups5]. simpl in H5.
    destruct (1 <? dups5).
    + pose proof (protectLoop_perm (S (b5 - a)) lo a b5 d5) as H6.
      destruct (protectLoop _ _ _ _ _ _) as [[d6 a6] b6]. simpl in *.
      by rewrite Swap_perm, H6.
    + simpl. by rewrite Swap_perm.
  - destruct (hi - c <? 5).
    + pose proof (protectLoop_perm (S (b - a)) lo a b d2) as H6.
      destruct (protectLoop _ _ _ _ _ _) as [[d6 a6] b6]. simpl in *.
      by rewrite Swap_perm, H6.
    + simpl. by rewrite Swap_perm.
Qed.

Lemma shellPass_perm n i (data : list A) : shellPass less n i data ≡ₚ data.
Proof.
  revert i data. induction n as [|n IH]; intros i data; simpl; [done|].
  rewrite IH. destruct (Less _ _ _ _); by rewrite ?Swap_perm.
Qed.

Lemma quickSort_perm maxDepth (data : list A) a b :
  quickSort less maxDepth data a b ≡ₚ data.
Proof.
  revert data a b. induction maxDepth as [|d IH]; intros data a b; simpl.
  - destruct (12 <? b - a); [apply heapSort_perm|].
    destruct (1 <? b - a); [|done].
    by rewrite insertionSort_perm, shellPass_perm.
  - destruct (12 <? b - a).
    + pose proof (doPivot_perm data a b) as Hp.
      destruct (doPivot less data a b) as [[d1 mlo] mhi]. simpl in Hp.
      destruct (_ <? _); by rewrite !IH.
    + destruct (1 <? b - a); [|done].
      by rewrite insertionSort_perm, shellPass_perm.
Qed.

Lemma Sort_perm (data : list A) : Sort less data ≡ₚ data.
Proof. apply quickSort_perm. Qed.

End Perm.

End GoSortPerm.

(** ** [sort.Sort] orders its data

    The elements are compared through a key: [less x y] holds exactly
    when the key of [x] is below the key of [y]. *)

Module GoSortOrder.

Import GoSort.

Section Order.

Context {A : Type} (less : A -> A -> bool) (key : A -> nat).
Context (less_key : ∀ x y, less x y = (key x <? key y)).

(** The key at an index (0 outside the data). *)
Definition keyAt (data : list A) (i : nat) : nat :=
  from_option key 0 (data !! i).

(** [data[a:b]] is in order. *)
Definition ordered (a b : nat) (data : list A) : Prop :=
  ∀ i j, a <= i -> i < j -> j < b -> keyAt data i <= keyAt data j.

(** [data'] differs from [data] only inside [a, b), and every key found
    there was there before. *)
Definition within (a b : nat) (data data' : list A) : Prop :=
  length data' = length data ∧
  (∀ i, ¬ (a <= i < b) -> keyAt data' i = keyAt data i) ∧
  (∀ i, a <= i < b -> ∃ j, a <= j < b ∧ keyAt data' i = keyAt data j).

Lemma within_refl a b data : within a b data data.
Proof. split_and!; [done|done|]. intros i Hi. by exists i. Qed.

Lemma within_trans a b d1 d2 d3 :
  within a b d1 d2 -> within a b d2 d3 -> within a b d1 d3.
Proof.
  intros (Hl1 & Ho1 & Hi1) (Hl2 & Ho2 & Hi2). split_and!.
  - congruence.
  - intros i Hi. rewrite Ho2, Ho1; done.
  - intros i Hi. destruct (Hi2 i Hi) as (j & Hj & ->).
    destruct (Hi1 j Hj) as (k & Hk & ->). by exists k.
Qed.

Lemma within_weaken a b a' b' d1 d2 :
  a' <= a -> b <= b' -> within a b d1 d2 -> within a' b' d1 d2.
Proof.
  intros Ha Hb (Hl & Ho & Hi). split_and!; [done| |].
  - intros i Hn. apply Ho. lia.
  - intros i Hr. destruct (decide (a <= i < b)) as [Hin|Hout].
    + destruct (Hi i Hin) as (j & Hj & ->). exists j. split; [lia|done].
    + exists i. split; [done|]. by apply Ho.
Qed.

Lemma Less_keyAt data i j :
  i < length data -> j < length data ->
  Less less data i j = (keyAt data i <? keyAt data j).
Proof.
  intros Hi Hj. unfold Less, keyAt.
  destruct (lookup_lt_is_Some_2 data i Hi) as [x ->].
  destruct (lookup_lt_is_Some_2 data j Hj) as [y ->].
  simpl. apply less_key.
Qed.

Lemma Swap_length (data : list A) i j : length (Swap data i j) = length data.
Proof.
  unfold Swap. destruct (data !! i); [|done]. destruct (data !! j); [|done].
  by rewrite !length_insert.
Qed.

Lemma Swap_keyAt data i j m :
  i < length data -> j < length data ->
  keyAt (Swap data i j) m
  = if decide (m = i) then keyAt data j
    else if decide (m = j) then keyAt data i
    else keyAt data m.
Proof.
  intros Hi Hj. unfold Swap, keyAt.
  destruct (lookup_lt_is_Some_2 data i Hi) as [x Hx].
  destruct (lookup_lt_is_Some_2 data j Hj) as [y Hy].
  rewrite Hx, Hy.
  destruct (decide (m = i)) as [->|Hmi].
  - rewrite list_lookup_insert_eq by (by rewrite length_insert). done.
  - rewrite list_lookup_insert_ne by done.
    destruct (decide (m = j)) as [->|Hmj].
    + rewrite list_lookup_insert_eq by done. done.
    + by rewrite list_lookup_insert_ne by done.
Qed.

Lemma Swap_within a b data i j :
  a <= i < b -> a <= j < b -> within a b data (Swap data i j).
Proof.
  intros Hi Hj.
  destruct (decide (i < length data ∧ j < length data)) as [[Hli Hlj]|Hout].
  - split_and!.
    + apply Swap_length.
    + intros m Hm. rewrite Swap_keyAt by done.
      repeat case_decide; try done; lia.
    + intros m Hm. rewrite Swap_keyAt by done.
      repeat case_decide; eauto.
  - assert (Swap data i j = data) as ->; [|apply within_refl].
    unfold Swap.
    destruct (data !! i) eqn:Hx; [|done]. destruct (data !! j) eqn:Hy; [|done].
    apply lookup_lt_Some in Hx, Hy. lia.
Qed.

(** *** Insertion sort *)

Lemma insertionInner_within a j top data :
  j <= top -> within a (S top) data (insertionInner less a j data).
Proof.
  revert data. induction j as [|j IH]; intros data Hj; simpl.
  { apply within_refl. }
  destruct ((a <? S j) && Less less data (S j) j) eqn:Hc; [|apply within_refl].
  apply andb_true_iff in Hc as [Ha%Nat.ltb_lt _].
  eapply within_trans; [|apply IH; lia].
  apply Swap_within; lia.
Qed.

Lemma insertionInner_ordered a j top data :
  a <= j -> j <= top -> top < length data ->
  ordered a j data -> ordered j (S top) data ->
  (∀ u v, a <= u < j -> j < v <= top -> keyAt data u <= keyAt data v) ->
  ordered a (S top) (insertionInner less a j data).
Proof.
  revert data. induction j as [|j IH]; intros data Ha Hj Htop Hlo Hhi Hcross; simpl.
  { assert (a = 0) as -> by lia. done. }
  destruct ((a <? S j) && Less less data (S j) j) eqn:Hc.
  - apply andb_true_iff in Hc as [Ha'%Nat.ltb_lt Hless].
    rewrite Less_keyAt in Hless by lia. apply Nat.ltb_lt in Hless.
    apply IH; [lia|lia|by rewrite Swap_length| | |].
    + intros u v Hu Huv Hv. rewrite !Swap_keyAt by lia.
      repeat case_decide; try lia. apply Hlo; lia.
    + intros u v Hu Huv Hv. rewrite !Swap_keyAt by lia.
      repeat case_decide; subst; try lia;
        first [ apply Hhi; lia | apply Hcross; lia | idtac ].
    + intros u v Hu Hv. rewrite !Swap_keyAt by lia.
      repeat case_decide; subst; try lia;
        first [ apply Hlo; lia | apply Hcross; lia | idtac ].
  - intros u v Hu Huv Hv.
    apply andb_false_iff in Hc as [Ha'%Nat.ltb_ge|Hless].
    { apply Hhi; lia. }
    rewrite Less_keyAt in Hless by lia. apply Nat.ltb_ge in Hless.
    destruct (decide (v < S j)); [apply Hlo; lia|].
    destruct (decide (S j <= u)); [apply Hhi; lia|].
    destruct (decide (v = S j)) as [->|].
    + destruct (decide (u = j)) as [->|]; [done|].
      transitivity (keyAt data j); [apply Hlo; lia|done].
    + apply Hcross; lia.
Qed.

Lemma insertionOuter_within n i a b data :
  i + n <= b -> within a b data (insertionOuter less n i a data).
Proof.
  revert i data. induction n as [|n IH]; intros i data Hb; simpl.
  { apply within_refl. }
  eapply within_trans; [|apply IH; lia].
  eapply within_weaken; [| |apply (insertionInner_within a i i)]; lia.
Qed.

Lemma insertionOuter_ordered n i a data :
  a <= i -> i + n <= length data ->
  ordered a i data -> ordered a (i + n) (insertionOuter less n i a data).
Proof.
  revert i data. induction n as [|n IH]; intros i data Ha Hlen Hord; simpl.
  { by rewrite Nat.add_0_r. }
  replace (i + S n) with (S i + n) by lia.
  apply IH; [lia| |].
  - destruct (insertionInner_within a i i data) as (-> & _); lia.
  - apply insertionInner_ordered; try done; try lia; intros u v; lia.
Qed.

Lemma insertionSort_within a b data :
  within a b data (insertionSort less data a b).
Proof.
  unfold insertionSort.
  destruct (decide (a + 1 <= b)).
  - apply insertionOuter_within. lia.
  - replace (b - (a + 1)) with 0 by lia. apply within_refl.
Qed.

Lemma insertionSort_ordered a b data :
  b <= length data -> ordered a b (insertionSort less data a b).
Proof.
  intros Hb. unfold insertionSort.
  destruct (decide (a + 1 <= b)).
  - pose proof (insertionOuter_ordered (b - (a + 1)) (a + 1) a data) as H.
    replace (a + 1 + (b - (a + 1))) with b in H by lia.
    apply H; [lia|lia|]. intros u v; lia.
  - intros u v Hu Huv Hv. lia.
Qed.

(** *** Heap sort *)

(** In the heap laid out from index [first], every node from [from] on,
    except [hole], is not below its children, and the parent of [hole] is
    not below the children of [hole]. *)
Definition heapExcept (from hole hi first : nat) (data : list A) : Prop :=
  (∀ q c, from <= q -> q ≠ hole -> c = 2 * q + 1 ∨ c = 2 * q + 2 -> c < hi ->
     keyAt data (first + c) <= keyAt data (first + q)) ∧
  (∀ q c, from <= q -> hole = 2 * q + 1 ∨ hole = 2 * q + 2 ->
     c = 2 * hole + 1 ∨ c = 2 * hole + 2 -> c < hi ->
     keyAt data (first + c) <= keyAt data (first + q)).

(** Every node from [from] on is not below its children. *)
Definition heapFrom (from hi first : nat) (data : list A) : Prop :=
  ∀ q c, from <= q -> c = 2 * q + 1 ∨ c = 2 * q + 2 -> c < hi ->
    keyAt data (first + c) <= keyAt data (first + q).

Lemma siftDownLoop_within rounds root hi first data :
  within (first + root) (first + hi) data
    (siftDownLoop less rounds root hi first data).
Proof.
  revert root data. induction rounds as [|n IH]; intros root data; simpl.
  { apply within_refl. }
  destruct (hi <=? root + (root + 0) + 1) eqn:Hhi; [apply within_refl|].
  apply Nat.leb_gt in Hhi.
  set (child := if _ && _ then _ else _).
  assert (root < child < hi) as Hchild.
  { subst child. destruct (_ && _) eqn:Hc; [|lia].
    apply andb_true_iff in Hc as [Hc%Nat.ltb_lt _]. lia. }
  clearbody child.
  destruct (negb _); [apply within_refl|].
  eapply within_trans;
    [apply (Swap_within _ _ data (first + root) (first + child)); lia|].
  eapply within_weaken; [| |apply IH]; lia.
Qed.

Lemma siftDownLoop_heap rounds from root hi first data :
  hi <= rounds + root -> first + hi <= length data -> from <= root ->
  heapExcept from root hi first data ->
  heapFrom from hi first (siftDownLoop less rounds root hi first data).
Proof.
  revert root data.
  induction rounds as [|n IH]; intros root data Hfuel Hlen Hfrom [Hh1 Hh2]; simpl.
  { intros q c Hq Hc Hchi. apply Hh1; try done. lia. }
  replace (root + (root + 0) + 1) with (2 * root + 1) by lia.
  destruct (hi <=? 2 * root + 1) eqn:Hhi.
  { apply Nat.leb_le in Hhi. intros q c Hq Hc Hchi. apply Hh1; try done. lia. }
  apply Nat.leb_gt in Hhi.
  set (child := if _ && _ then _ else _).
  assert ((child = 2 * root + 1 ∨ child = 2 * root + 2) ∧ child < hi ∧
          ∀ c, c = 2 * root + 1 ∨ c = 2 * root + 2 -> c < hi ->
               keyAt data (first + c) <= keyAt data (first + child)) as (Hc1 & Hc2 & Hmax).
  { subst child. destruct (_ && _) eqn:Hc.
    - apply andb_true_iff in Hc as [Hc%Nat.ltb_lt Hl].
      rewrite Less_keyAt in Hl by lia. apply Nat.ltb_lt in Hl.
      split_and!; [lia|lia|]. intros c [->| ->] Hchi.
      + replace (first + (2 * root + 1 + 1)) with (first + (2 * root + 1) + 1) by lia.
        lia.
      + by replace (2 * root + 1 + 1) with (2 * root + 2) by lia.
    - split_and!; [lia|lia|]. intros c [->| ->] Hchi; [done|].
      apply andb_false_iff in Hc as [Hc%Nat.ltb_ge|Hl]; [lia|].
      rewrite Less_keyAt in Hl by lia. apply Nat.ltb_ge in Hl.
      replace (first + (2 * root + 2)) with (first + (2 * root + 1) + 1) by lia.
      done. }
  clearbody child.
  destruct (negb (Less less data (first + root) (first + child))) eqn:Hl.
  { apply negb_true_iff in Hl. rewrite Less_keyAt in Hl by lia.
    apply Nat.ltb_ge in Hl.
    intros q c Hq Hc Hchi. destruct (decide (q = root)) as [->|Hne].
    - transitivity (keyAt data (first + child)); [by apply Hmax|done].
    - by apply Hh1. }
  apply negb_false_iff in Hl. rewrite Less_keyAt in Hl by lia.
  apply Nat.ltb_lt in Hl.
  apply IH; [lia|by rewrite Swap_length|lia|].
  split.
  - intros q c Hq Hqc Hc Hchi. rewrite !Swap_keyAt by lia.
    destruct (decide (q = root)) as [->|Hqr].
    + repeat case_decide; try lia.
      specialize (Hmax c Hc Hchi). lia.
    + destruct (decide (c = root)) as [->|Hcr].
      * repeat case_decide; try lia.
        specialize (Hh2 q child Hq Hc Hc1 Hc2). lia.
      * repeat case_decide; try lia. by apply Hh1.
  - intros q c Hq Hqc Hc Hchi. rewrite !Swap_keyAt by lia.
    assert (q = root) as -> by lia.
    repeat case_decide; try lia.
    apply Hh1; try done; lia.
Qed.

Lemma siftDown_within data lo hi first :
  within (first + lo) (first + hi) data (siftDown less data lo hi first).
Proof. apply siftDownLoop_within. Qed.

Lemma heapBuild_within i hi first data :
  within first (first + hi) data (heapBuild less i hi first data).
Proof.
  revert data. induction i as [|i IH]; intros data; simpl.
  - eapply within_weaken; [| |apply siftDown_within]; lia.
  - eapply within_trans; [|apply IH].
    eapply within_weaken; [| |apply siftDown_within]; lia.
Qed.

Lemma heapBuild_heap i hi first data :
  first + hi <= length data ->
  heapFrom (S i) hi first data ->
  heapFrom 0 hi first (heapBuild less i hi first data).
Proof.
  revert data. induction i as [|i IH]; intros data Hlen Hheap.
  - simpl. apply siftDownLoop_heap; [lia|done|lia|].
    split.
    + intros q c Hq Hne Hc Hchi. apply Hheap; try done. lia.
    + intros q c Hq Hqc. lia.
  - cbn [heapBuild]. apply IH.
    { destruct (siftDown_within data (S i) hi first) as (-> & _). done. }
    apply siftDownLoop_heap; [lia|done|lia|].
    split.
    + intros q c Hq Hne Hc Hchi. apply Hheap; try done. lia.
    + intros q c Hq Hqc. lia.
Qed.

Lemma heap_root_max hi first data :
  heapFrom 0 hi first data ->
  ∀ u, u < hi -> keyAt data (first + u) <= keyAt data first.
Proof.
  intros Hheap u. induction u as [u IH] using lt_wf_ind. intros Hu.
  destruct u as [|u]; [by rewrite Nat.add_0_r|].
  pose proof (Nat.div_mod_eq u 2) as Hdiv.
  pose proof (Nat.mod_upper_bound u 2) as Hmod.
  transitivity (keyAt data (first + u / 2)).
  - apply Hheap; [lia|lia|done].
  - apply IH; lia.
Qed.

Lemma heapPop_spec n first hi data :
  n <= hi -> first + hi <= length data ->
  heapFrom 0 n first data ->
  ordered (first + n) (first + hi) data ->
  (∀ u v, u < n -> n <= v < hi ->
     keyAt data (first + u) <= keyAt data (first + v)) ->
  let data' := heapPop less n first data in
  ordered first (first + hi) data' ∧ within first (first + hi) data data'.
Proof.
  revert data. induction n as [|n IH]; intros data Hn Hlen Hheap Hord Hcross; simpl.
  { split; [|apply within_refl]. by rewrite Nat.add_0_r in Hord. }
  set (d1 := Swap data first (first + n)).
  set (d2 := siftDown less d1 0 n first).
  assert (within first (first + S n) data d1) as Hw1
    by (apply Swap_within; lia).
  assert (within first (first + n) d1 d2) as Hw2.
  { subst d2. eapply within_weaken; [| |apply siftDown_within]; lia. }
  assert (length d1 = length data) as Hl1 by apply Swap_length.
  pose proof (heap_root_max _ _ _ Hheap) as Hmax.
  assert (∀ m, keyAt d1 m
            = if decide (m = first) then keyAt data (first + n)
              else if decide (m = first + n) then keyAt data first
              else keyAt data m) as Hk1.
  { intros m. subst d1. apply Swap_keyAt; lia. }
  destruct (IH d2) as [Hord' Hw3].
  - lia.
  - destruct Hw2 as (-> & _). lia.
  - subst d2. apply siftDownLoop_heap; [lia|lia|lia|].
    split.
    + intros q c Hq Hne Hc Hchi. rewrite !Hk1.
      repeat case_decide; try lia. apply Hheap; try done; lia.
    + intros q c Hq Hqc. lia.
  - intros u v Hu Huv Hv.
    destruct Hw2 as (_ & Hout & _). rewrite !Hout by lia. rewrite !Hk1.
    pose proof (Hcross 0 (v - first)) as H0. rewrite Nat.add_0_r in H0.
    replace (first + (v - first)) with v in H0 by lia.
    repeat case_decide; subst; rewrite ?Nat.add_0_r; try lia;
      first [ apply H0; lia | apply Hord; lia
            | assert (n = 0) as -> by lia; rewrite Nat.add_0_r; apply H0; lia ].
  - intros u v Hu Hv.
    destruct Hw2 as (_ & Hout & Hin).
    rewrite (Hout (first + v)) by lia.
    destruct (Hin (first + u)) as (j & Hj & ->); [lia|].
    replace j with (first + (j - first)) by lia.
    pose proof (Hmax n) as Hmaxn. pose proof (Hmax (j - first)) as Hmaxj.
    rewrite !Hk1.
    repeat case_decide; subst; try lia;
      first [ apply Hcross; lia | apply Hmaxn; lia | apply Hmaxj; lia ].
  - split; [done|].
    eapply within_trans; [|exact Hw3].
    eapply within_trans.
    + eapply within_weaken; [| |exact Hw1]; lia.
    + eapply within_weaken; [| |exact Hw2]; lia.
Qed.

Lemma heapSort_spec data a b :
  a <= b -> b <= length data ->
  ordered a b (heapSort less data a b) ∧ within a b data (heapSort less data a b).
Proof.
  intros Hab Hb. unfold heapSort.
  assert (∃ hi, b = a + hi) as [hi ->] by (exists (b - a); lia).
  replace (a + hi - a) with hi by lia.
  set (d1 := heapBuild less ((hi - 1) / 2) hi a data).
  assert (within a (a + hi) data d1) as Hw1 by apply heapBuild_within.
  destruct (heapPop_spec hi a hi d1) as [Hord Hw2].
  - done.
  - destruct Hw1 as (-> & _). lia.
  - apply heapBuild_heap; [lia|].
    intros q c Hq Hc Hchi.
    assert (hi - 1 < 2 * S ((hi - 1) / 2)) by
      (pose proof (Nat.div_mod_eq (hi - 1) 2);
       pose proof (Nat.mod_upper_bound (hi - 1) 2); lia).
    lia.
  - intros u v Hu Huv Hv. lia.
  - intros u v Hu Hv. lia.
  - split; [done|]. by eapply within_trans.
Qed.

(** *** The pivot step of quicksort *)

Lemma medianOfThree_within a b data m1 m0 m2 :
  a <= m1 < b -> a <= m0 < b -> a <= m2 < b ->
  within a b data (medianOfThree less data m1 m0 m2).
Proof.
  intros H1 H0 H2. unfold medianOfThree.
  set (d1 := if Less less data m1 m0 then _ else _).
  assert (within a b data d1) as Hw1.
  { subst d1. destruct (Less _ _ _ _); [by apply Swap_within|apply within_refl]. }
  clearbody d1.
  destruct (Less less d1 m2 m1); [|done].
  assert (within a b data (Swap d1 m2 m1)) as Hw2.
  { eapply within_trans; [exact Hw1|]. by apply Swap_within. }
  destruct (Less _ _ _ _); [|done].
  eapply within_trans; [exact Hw2|]. by apply Swap_within.
Qed.

Lemma medianOfThree_median data m1 m0 m2 :
  m1 < length data -> m0 < length data -> m2 < length data ->
  m1 ≠ m0 -> m1 ≠ m2 -> m0 ≠ m2 ->
  let data' := medianOfThree less data m1 m0 m2 in
  keyAt data' m0 <= keyAt data' m1 ∧ keyAt data' m1 <= keyAt data' m2.
Proof.
  intros H1 H0 H2 N1 N2 N3. unfold medianOfThree.
  destruct (Less less data m1 m0) eqn:L1.
  - rewrite Less_keyAt in L1 by done. apply Nat.ltb_lt in L1.
    rewrite Less_keyAt by (by rewrite Swap_length).
    rewrite !Swap_keyAt by done. repeat case_decide; try lia.
    destruct (_ <? _) eqn:L2.
    + apply Nat.ltb_lt in L2.
      rewrite Less_keyAt by (by rewrite !Swap_length).
      rewrite !Swap_keyAt by (by rewrite ?Swap_length).
      repeat case_decide; try lia.
      destruct (_ <? _) eqn:L3.
      * apply Nat.ltb_lt in L3. cbv zeta.
        rewrite !Swap_keyAt by (by rewrite ?Swap_length).
        repeat case_decide; try lia.
      * apply Nat.ltb_ge in L3. cbv zeta.
        rewrite !Swap_keyAt by (by rewrite ?Swap_length).
        repeat case_decide; try lia.
    + apply Nat.ltb_ge in L2. cbv zeta.
      rewrite !Swap_keyAt by done. repeat case_decide; try lia.
  - rewrite Less_keyAt in L1 by done. apply Nat.ltb_ge in L1.
    rewrite Less_keyAt by done.
    destruct (_ <? _) eqn:L2.
    + apply Nat.ltb_lt in L2.
      rewrite Less_keyAt by (by rewrite !Swap_length).
      rewrite !Swap_keyAt by done.
      repeat case_decide; try lia.
      destruct (_ <? _) eqn:L3.
      * apply Nat.ltb_lt in L3. cbv zeta.
        rewrite !Swap_keyAt by (by rewrite ?Swap_length).
        repeat case_decide; try lia.
      * apply Nat.ltb_ge in L3. cbv zeta.
        rewrite !Swap_keyAt by (by rewrite ?Swap_length).
        repeat case_decide; try lia.
    + apply Nat.ltb_ge in L2. cbv zeta. lia.
Qed.

Lemma scanUp_spec n cond i :
  let i' := scanUp n cond i in
  i <= i' <= i + n ∧
  (∀ k, i <= k < i' -> cond k = true) ∧
  (i' = i + n ∨ cond i' = false).
Proof.
  revert i. induction n as [|n IH]; intros i; simpl.
  { split_and!; [lia|lia|intros k; lia|left; lia]. }
  destruct (cond i) eqn:Hc.
  - destruct (IH (S i)) as (Hr & Hall & Hend). split_and!; [lia|lia| |].
    + intros k Hk. destruct (decide (k = i)) as [->|]; [done|]. apply Hall. lia.
    + destruct Hend as [->|Hend]; [left; lia|by right].
  - split_and!; [lia|lia|intros k; lia|by right].
Qed.

Lemma scanDown_spec n cond c :
  n <= c ->
  let c' := scanDown n cond c in
  c - n <= c' <= c ∧
  (∀ k, c' <= k < c -> cond k = true) ∧
  (c' = c - n ∨ cond (c' - 1) = false).
Proof.
  revert c. induction n as [|n IH]; intros c Hn; simpl.
  { split_and!; [lia|lia|intros k; lia|left; lia]. }
  destruct (cond (c - 1)) eqn:Hc.
  - destruct (IH (c - 1)) as (Hr & Hall & Hend); [lia|]. split_and!; [lia|lia| |].
    + intros k Hk. destruct (decide (k = c - 1)) as [->|]; [done|]. apply Hall. lia.
    + destruct Hend as [->|Hend]; [left; lia|by right].
  - split_and!; [lia|lia|intros k; lia|by right].
Qed.

(** What the scans of [doPivot] have established around the pivot key [p]:
    the pivot is at [lo], the keys in (lo, a) are below it, those in
    [a, b) are not above it, and those in [c, hi) are not below it. *)
Definition scanned (lo a b c hi p : nat) (data : list A) : Prop :=
  keyAt data lo = p ∧
  (∀ i, lo < i < a -> keyAt data i < p) ∧
  (∀ i, a <= i < b -> keyAt data i <= p) ∧
  (∀ i, c <= i < hi -> p <= keyAt data i).

Lemma partitionLoop_spec rounds lo a b c hi p data :
  c - b < rounds -> lo < a -> a <= b -> b <= c -> c < hi -> hi <= length data ->
  scanned lo a b c hi p data ->
  ∃ data' b',
    partitionLoop less rounds lo b c data = (data', b', b') ∧
    b <= b' <= c ∧
    scanned lo a b' b' hi p data' ∧
    within (lo + 1) (hi - 1) data data'.
Proof.
  revert b c data.
  induction rounds as [|n IH]; intros b c data Hfuel Hlo Hab Hbc Hc Hlen Hs; [lia|].
  destruct Hs as (Hp & Hlt & Hle & Hge).
  cbn [partitionLoop].
  destruct (scanUp_spec (c - b) (fun i => negb (Less less data lo i)) b)
    as (Hb1 & Hall1 & Hend1).
  set (b1 := scanUp _ _ b) in *. clearbody b1.
  destruct (scanDown_spec (c - b1) (fun i => Less less data lo i) c)
    as (Hc1 & Hall2 & Hend2); [lia|].
  set (c1 := scanDown _ _ c) in *. clearbody c1.
  assert (∀ i, a <= i < b1 -> keyAt data i <= p) as Hle1.
  { intros i Hi. destruct (decide (i < b)); [apply Hle; lia|].
    specialize (Hall1 i ltac:(lia)). apply negb_true_iff in Hall1.
    rewrite Less_keyAt in Hall1 by lia. apply Nat.ltb_ge in Hall1. lia. }
  assert (∀ i, c1 <= i < hi -> p <= keyAt data i) as Hge1.
  { intros i Hi. destruct (decide (c <= i)); [apply Hge; lia|].
    specialize (Hall2 i ltac:(lia)).
    rewrite Less_keyAt in Hall2 by lia. apply Nat.ltb_lt in Hall2. lia. }
  destruct (c1 <=? b1) eqn:Hcb.
  - apply Nat.leb_le in Hcb. assert (c1 = b1) as -> by lia.
    exists data, b1. split_and!; [done|lia|lia| |apply within_refl].
    split_and!; [done|done|done|done].
  - apply Nat.leb_gt in Hcb.
    assert (p < keyAt data b1) as Hb1p.
    { destruct Hend1 as [->|Hend1]; [lia|].
      apply negb_false_iff in Hend1.
      rewrite Less_keyAt in Hend1 by lia. apply Nat.ltb_lt in Hend1. lia. }
    assert (keyAt data (c1 - 1) <= p) as Hc1p.
    { destruct Hend2 as [->|Hend2]; [lia|].
      rewrite Less_keyAt in Hend2 by lia. apply Nat.ltb_ge in Hend2. lia. }
    assert (b1 < c1 - 1) as Hlt1.
    { destruct (decide (b1 = c1 - 1)) as [Heq|]; [|lia]. rewrite Heq in Hb1p. lia. }
    destruct (IH (b1 + 1) (c1 - 1) (Swap data b1 (c1 - 1)))
      as (data' & b' & Heq & Hb' & Hs' & Hw'); try lia.
    + by rewrite Swap_length.
    + split_and!.
      * rewrite Swap_keyAt by lia. repeat case_decide; try lia; done.
      * intros i Hi. rewrite Swap_keyAt by lia. repeat case_decide; try lia;
          apply Hlt; lia.
      * intros i Hi. rewrite Swap_keyAt by lia. repeat case_decide; try lia;
          apply Hle1; lia.
      * intros i Hi. rewrite Swap_keyAt by lia. repeat case_decide; try lia;
          apply Hge1; lia.
    + exists data', b'. split_and!; [done|lia|lia|done|].
      eapply within_trans; [|exact Hw'].
      apply Swap_within; lia.
Qed.

(** The three-way split the pivot step ends with: the keys in (lo, a) are
    below the pivot key, those in [a, b) not above it, those in [b, c)
    equal to it, and those in [c, hi) not below it. *)
Definition settled (lo a b c hi p : nat) (data : list A) : Prop :=
  scanned lo a b c hi p data ∧ (∀ i, b <= i < c -> keyAt data i = p).

Lemma protectLoop_spec rounds lo a b c hi p data :
  b - a < rounds -> lo < a -> a <= b -> b <= c -> c <= hi -> hi <= length data ->
  settled lo a b c hi p data ->
  ∃ data' a' b',
    protectLoop less rounds lo a b data = (data', a', b') ∧
    a <= b' <= b ∧
    settled lo b' b' c hi p data' ∧
    within (lo + 1) c data data'.
Proof.
  revert a b data.
  induction rounds as [|n IH]; intros a b data Hfuel Hlo Hab Hbc Hc Hlen Hs; [lia|].
  destruct Hs as ((Hp & Hlt & Hle & Hge) & Heq).
  cbn [protectLoop].
  destruct (scanDown_spec (b - a) (fun i => negb (Less less data i lo)) b)
    as (Hb1 & Hall1 & Hend1); [lia|].
  set (b1 := scanDown _ _ b) in *. clearbody b1.
  destruct (scanUp_spec (b1 - a) (fun i => Less less data i lo) a)
    as (Ha1 & Hall2 & Hend2).
  set (a1 := scanUp _ _ a) in *. clearbody a1.
  assert (∀ i, b1 <= i < c -> keyAt data i = p) as Heq1.
  { intros i Hi. destruct (decide (b <= i)); [apply Heq; lia|].
    specialize (Hall1 i ltac:(lia)). apply negb_true_iff in Hall1.
    rewrite Less_keyAt in Hall1 by lia. apply Nat.ltb_ge in Hall1.
    specialize (Hle i ltac:(lia)). lia. }
  assert (∀ i, lo < i < a1 -> keyAt data i < p) as Hlt1.
  { intros i Hi. destruct (decide (i < a)); [apply Hlt; lia|].
    specialize (Hall2 i ltac:(lia)).
    rewrite Less_keyAt in Hall2 by lia. apply Nat.ltb_lt in Hall2. lia. }
  destruct (b1 <=? a1) eqn:Hba.
  - apply Nat.leb_le in Hba. assert (a1 = b1) as -> by lia.
    exists data, b1, b1. split_and!; [done|lia|lia| |apply within_refl].
    split; [|done]. split_and!; [done|done|intros i; lia|done].
  - apply Nat.leb_gt in Hba.
    assert (keyAt data a1 = p) as Ha1p.
    { destruct Hend2 as [->|Hend2]; [lia|].
      rewrite Less_keyAt in Hend2 by lia. apply Nat.ltb_ge in Hend2.
      specialize (Hle a1 ltac:(lia)). lia. }
    assert (keyAt data (b1 - 1) < p) as Hb1p.
    { destruct Hend1 as [->|Hend1]; [lia|].
      apply negb_false_iff in Hend1.
      rewrite Less_keyAt in Hend1 by lia. apply Nat.ltb_lt in Hend1. lia. }
    assert (a1 < b1 - 1) as Hlt2.
    { destruct (decide (a1 = b1 - 1)) as [Heq'|]; [|lia]. rewrite Heq' in Ha1p. lia. }
    destruct (IH (a1 + 1) (b1 - 1) (Swap data a1 (b1 - 1)))
      as (data' & a' & b' & Heq' & Hb' & Hs' & Hw'); try lia.
    + by rewrite Swap_length.
    + split; [split_and!|].
      * rewrite Swap_keyAt by lia. repeat case_decide; try lia; done.
      * intros i Hi. rewrite Swap_keyAt by lia. repeat case_decide; try lia;
          apply Hlt1; lia.
      * intros i Hi. rewrite Swap_keyAt by lia. repeat case_decide; try lia;
          apply Hle; lia.
      * intros i Hi. rewrite Swap_keyAt by lia. repeat case_decide; try lia;
          apply Hge; lia.
      * intros i Hi. rewrite Swap_keyAt by lia. repeat case_decide; try lia;
          apply Heq1; lia.
    + exists data', a', b'. split_and!; [done|lia|lia|done|].
      eapply within_trans; [|exact Hw'].
      apply Swap_within; lia.
Qed.

Lemma settled_keyAt_le lo a b c hi p data i :
  lo < a -> settled lo a b c hi p data -> lo <= i < b -> keyAt data i <= p.
Proof.
  intros Hlo ((Hp & Hlt & Hle & _) & _) Hi.
  destruct (decide (i = lo)) as [->|]; [lia|].
  destruct (decide (i < a)); [|apply Hle; lia].
  specialize (Hlt i ltac:(lia)). lia.
Qed.

(** The test for duplicates of the pivot in [doPivot]. *)
Lemma doPivot_duplicates_spec data lo a b hi p :
  lo + 12 < hi -> hi <= length data -> lo < a -> a <= b -> b < hi ->
  scanned lo a b b hi p data ->
  ∃ data' b' c' protect,
    (if negb (hi - b <? 5) && (hi - b <? (hi - lo) / 4)
     then
       let '(data1, c0, dups) :=
         if negb (Less less data lo (hi - 1))
         then (Swap data b (hi - 1), b + 1, 1) else (data, b, 0) in
       let '(b0, dups0) :=
         if negb (Less less data1 (b - 1) lo) then (b - 1, dups + 1) else (b, dups) in
       let '(data2, b1, dups1) :=
         if negb (Less less data1 ((lo + hi) / 2) lo)
         then (Swap data1 ((lo + hi) / 2) (b0 - 1), b0 - 1, dups0 + 1)
         else (data1, b0, dups0) in
       (data2, b1, c0, 1 <? dups1)
     else (data, b, b, hi - b <? 5))
    = (data', b', c', protect) ∧
    a <= b' ∧ b' <= c' ∧ c' <= hi ∧
    settled lo a b' c' hi p data' ∧
    within (lo + 1) hi data data'.
Proof.
  intros Hsize Hlen Hlo Hab Hb Hs.
  destruct (negb (hi - b <? 5) && (hi - b <? (hi - lo) / 4)) eqn:Hbr.
  2:{ exists data, b, b, (hi - b <? 5).
      split_and!; [done|done|done|lia| |apply within_refl].
      split; [done|]. intros i; lia. }
  apply andb_true_iff in Hbr as [Hb5%negb_true_iff%Nat.ltb_ge Hb4%Nat.ltb_lt].
  pose proof (Nat.div_mod_eq (hi - lo) 4) as Hdiv4.
  pose proof (Nat.mod_upper_bound (hi - lo) 4) as Hmod4.
  pose proof (Nat.div_mod_eq (lo + hi) 2) as Hdiv2.
  pose proof (Nat.mod_upper_bound (lo + hi) 2) as Hmod2.
  set (m := (lo + hi) / 2) in *.
  set (q := (hi - lo) / 4) in *.
  assert (lo < m ∧ m + 1 < b) as [Hm1 Hm2] by lia.
  destruct Hs as (Hp & Hlt & Hle & Hge).
  (* data[hi-1] = pivot *)
  set (t1 := if negb (Less less data lo (hi - 1)) then _ else _).
  assert (∃ d3 c3 dups3, t1 = (d3, c3, dups3) ∧ b <= c3 <= b + 1 ∧
            settled lo a b c3 hi p d3 ∧ within (lo + 1) hi data d3)
    as (d3 & c3 & dups3 & -> & Hc3 & Hs3 & Hw3).
  { subst t1. destruct (negb (Less less data lo (hi - 1))) eqn:Hl.
    - apply negb_true_iff in Hl. rewrite Less_keyAt in Hl by lia.
      apply Nat.ltb_ge in Hl. pose proof (Hge (hi - 1) ltac:(lia)) as Hh.
      pose proof (Hge b ltac:(lia)) as Hgb.
      eexists _, _, _. split; [done|]. split; [lia|]. split.
      + split; [split_and!|].
        * rewrite Swap_keyAt by lia. repeat case_decide; try lia; done.
        * intros i Hi. rewrite Swap_keyAt by lia. repeat case_decide; try lia;
            apply Hlt; lia.
        * intros i Hi. rewrite Swap_keyAt by lia. repeat case_decide; try lia;
            apply Hle; lia.
        * intros i Hi. rewrite Swap_keyAt by lia. repeat case_decide; try lia;
            apply Hge; lia.
        * intros i Hi. rewrite Swap_keyAt by lia. repeat case_decide; try lia.
      + apply Swap_within; lia.
    - eexists _, _, _. split; [done|]. split; [lia|]. split; [|apply within_refl].
      split; [done|]. intros i; lia. }
  assert (length d3 = length data) as Hl3 by (by destruct Hw3).
  clear Hp Hlt Hle Hge.
  (* data[b-1] = pivot *)
  set (t2 := if negb (Less less d3 (b - 1) lo) then _ else _).
  assert (∃ b4 dups4, t2 = (b4, dups4) ∧ a <= b4 ∧ b - 1 <= b4 <= b ∧
            settled lo a b4 c3 hi p d3)
    as (b4 & dups4 & -> & Hab4 & Hb4' & Hs4).
  { subst t2. destruct (negb (Less less d3 (b - 1) lo)) eqn:Hl.
    - apply negb_true_iff in Hl. rewrite Less_keyAt in Hl by lia.
      apply Nat.ltb_ge in Hl.
      destruct Hs3 as ((Hp & Hlt & Hle & Hge) & Heq).
      assert (a <= b - 1) as Ha.
      { destruct (decide (a <= b - 1)); [done|].
        specialize (Hlt (b - 1) ltac:(lia)). lia. }
      pose proof (Hle (b - 1) ltac:(lia)) as Hle1.
      eexists _, _. split; [done|]. split; [done|]. split; [lia|].
      split; [split_and!; [done|done| |done]|].
      + intros i Hi. apply Hle. lia.
      + intros i Hi. destruct (decide (i = b - 1)) as [->|]; [lia|]. apply Heq. lia.
    - eexists _, _. split; [done|]. split; [done|]. split; [lia|]. done. }
  (* data[m] = pivot *)
  set (t3 := if negb (Less less d3 m lo) then _ else _).
  assert (∃ d5 b5 dups5, t3 = (d5, b5, dups5) ∧ a <= b5 <= b4 ∧
            settled lo a b5 c3 hi p d5 ∧ within (lo + 1) hi d3 d5)
    as (d5 & b5 & dups5 & -> & Hb5' & Hs5 & Hw5).
  { subst t3. destruct (negb (Less less d3 m lo)) eqn:Hl.
    - apply negb_true_iff in Hl. rewrite Less_keyAt in Hl by lia.
      apply Nat.ltb_ge in Hl.
      pose proof (settled_keyAt_le _ _ _ _ _ _ _ m Hlo Hs4 ltac:(lia)) as Hm.
      pose proof (settled_keyAt_le _ _ _ _ _ _ _ (b4 - 1) Hlo Hs4 ltac:(lia)) as Hb41.
      destruct Hs4 as ((Hp & Hlt & Hle & Hge) & Heq).
      assert (a <= m) as Ham.
      { destruct (decide (a <= m)); [done|].
        specialize (Hlt m ltac:(lia)). lia. }
      eexists _, _, _. split; [done|]. split; [lia|]. split.
      + split; [split_and!|].
        * rewrite Swap_keyAt by lia. repeat case_decide; try lia; done.
        * intros i Hi. rewrite Swap_keyAt by lia. repeat case_decide; try lia;
            apply Hlt; lia.
        * intros i Hi. rewrite Swap_keyAt by lia. repeat case_decide; try lia;
            apply Hle; lia.
        * intros i Hi. rewrite Swap_keyAt by lia. repeat case_decide; try lia;
            apply Hge; lia.
        * intros i Hi. rewrite Swap_keyAt by lia. repeat case_decide; try lia;
            apply Heq; lia.
      + apply Swap_within; lia.
    - eexists _, _, _. split; [done|]. split; [lia|]. split; [done|].
      apply within_refl. }
  exists d5, b5, c3, (1 <? dups5).
  split_and!; [done|lia| |lia|done|by eapply within_trans].
  lia.
Qed.

(** The end of [doPivot]: the pass against many duplicates and the swap
    that brings the pivot into the middle. *)
Lemma doPivot_finish_spec data lo a b c hi p (protect : bool) :
  hi <= length data -> lo < a -> a <= b -> b <= c -> c <= hi ->
  settled lo a b c hi p data ->
  ∃ data' mlo,
    (let '(data2, b1) :=
       if protect then
         let '(data2, _, b1) := protectLoop less (S (b - a)) lo a b data in
         (data2, b1)
       else (data, b) in
     (Swap data2 lo (b1 - 1), b1 - 1, c))
    = (data', mlo, c) ∧
    lo <= mlo < c ∧
    within lo c data data' ∧
    (∀ i, lo <= i < mlo -> keyAt data' i <= p) ∧
    (∀ i, mlo <= i < c -> keyAt data' i = p) ∧
    (∀ i, c <= i < hi -> p <= keyAt data' i).
Proof.
  intros Hlen Hlo Hab Hbc Hc Hs.
  set (t := if protect then _ else _).
  assert (∃ d6 b6, t = (d6, b6) ∧ a <= b6 <= b ∧
            settled lo a b6 c hi p d6 ∧ within (lo + 1) c data d6)
    as (d6 & b6 & -> & Hb6 & Hs6 & Hw6).
  { subst t. destruct protect.
    - destruct (protectLoop_spec (S (b - a)) lo a b c hi p data)
        as (d6 & a6 & b6 & -> & Hb6 & ((Hp & Hlt & Hle & Hge) & Heq) & Hw6);
        try done; try lia.
      exists d6, b6. split_and!; [done|lia|lia| |done].
      split; [split_and!; [done| | |done]|done].
      + intros i Hi. apply Hlt. lia.
      + intros i Hi. specialize (Hlt i ltac:(lia)). lia.
    - exists data, b. split_and!; [done|lia|lia|done|apply within_refl]. }
  assert (length d6 = length data) as Hl6 by (by destruct Hw6).
  pose proof (settled_keyAt_le _ _ _ _ _ _ _ (b6 - 1) Hlo Hs6 ltac:(lia)) as Hlast.
  pose proof (λ i, settled_keyAt_le _ _ _ _ _ _ _ i Hlo Hs6) as Hle'.
  destruct Hs6 as ((Hp & Hlt & Hle & Hge) & Heq).
  exists (Swap d6 lo (b6 - 1)), (b6 - 1).
  split_and!; [done|lia|lia| | | |].
  - eapply within_trans.
    + eapply within_weaken; [| |exact Hw6]; lia.
    + apply Swap_within; lia.
  - intros i Hi. rewrite Swap_keyAt by lia. repeat case_decide; try lia.
    apply Hle'. lia.
  - intros i Hi. rewrite Swap_keyAt by lia. repeat case_decide; try lia;
      first [ apply Heq; lia | replace (b6 - 1) with lo by lia; lia ].
  - intros i Hi. rewrite Swap_keyAt by lia. repeat case_decide; try lia.
    by apply Hge.
Qed.

(** [doPivot] splits [data[lo:hi]] in three: keys not above the pivot
    key, keys equal to it, keys not below it. *)
Lemma doPivot_spec data lo hi :
  lo + 12 < hi -> hi <= length data ->
  ∃ data' mlo mhi p,
    doPivot less data lo hi = (data', mlo, mhi) ∧
    lo <= mlo < mhi ∧ mhi <= hi ∧
    within lo hi data data' ∧
    (∀ i, lo <= i < mlo -> keyAt data' i <= p) ∧
    (∀ i, mlo <= i < mhi -> keyAt data' i = p) ∧
    (∀ i, mhi <= i < hi -> p <= keyAt data' i).
Proof.
  intros Hsize Hlen. unfold doPivot.
  pose proof (Nat.div_mod_eq (lo + hi) 2) as Hdiv2.
  pose proof (Nat.mod_upper_bound (lo + hi) 2) as Hmod2.
  pose proof (Nat.div_mod_eq (hi - lo) 8) as Hdiv8.
  pose proof (Nat.mod_upper_bound (hi - lo) 8) as Hmod8.
  set (m := (lo + hi) / 2) in *.
  set (s := (hi - lo) / 8) in *.
  set (d0 := if 40 <? hi - lo then _ else data).
  assert (within lo hi data d0) as Hw0.
  { subst d0. destruct (40 <? hi - lo) eqn:H40; [|apply within_refl].
    apply Nat.ltb_lt in H40.
    eapply within_trans; [eapply within_trans|];
      apply medianOfThree_within; lia. }
  assert (length d0 = length data) as Hl0 by (by destruct Hw0).
  clearbody d0.
  destruct (medianOfThree_median d0 lo m (hi - 1)) as [Hmed1 Hmed2]; try lia.
  assert (within lo hi d0 (medianOfThree less d0 lo m (hi - 1))) as Hw1
    by (apply medianOfThree_within; lia).
  set (d1 := medianOfThree less d0 lo m (hi - 1)) in *.
  assert (length d1 = length data) as Hl1 by (destruct Hw1; congruence).
  clearbody d1.
  set (p := keyAt d1 lo) in *.
  destruct (scanUp_spec (hi - 1 - (lo + 1)) (fun i => Less less d1 i lo) (lo + 1))
    as (Ha & Hall & _).
  set (a := scanUp _ _ (lo + 1)) in *. clearbody a.
  destruct (partitionLoop_spec (S (hi - 1 - a)) lo a a (hi - 1) hi p d1)
    as (d2 & b & Heq2 & Hb & Hs2 & Hw2); try lia.
  { split_and!; [done| |intros i; lia|].
    - intros i Hi. specialize (Hall i ltac:(lia)).
      rewrite Less_keyAt in Hall by lia. apply Nat.ltb_lt in Hall. done.
    - intros i Hi. assert (i = hi - 1) as -> by lia. done. }
  rewrite Heq2. cbv beta iota.
  assert (length d2 = length data) as Hl2 by (destruct Hw2; congruence).
  destruct (doPivot_duplicates_spec d2 lo a b hi p)
    as (d5 & b5 & c5 & protect & Heq5 & Hab5 & Hbc5 & Hc5 & Hs5 & Hw5);
    try done; try lia.
  fold m in Heq5. rewrite Heq5. cbv beta iota.
  assert (length d5 = length data) as Hl5 by (destruct Hw5; congruence).
  destruct (doPivot_finish_spec d5 lo a b5 c5 hi p protect)
    as (d7 & mlo & Heq7 & Hmlo & Hw7 & Hle7 & Heq7' & Hge7);
    try done; try lia.
  rewrite Heq7.
  exists d7, mlo, c5, p. split_and!; try done; try lia.
  eapply within_trans; [exact Hw0|].
  eapply within_trans; [exact Hw1|].
  eapply within_trans; [eapply within_weaken; [| |exact Hw2]; lia|].
  eapply within_trans; [eapply within_weaken; [| |exact Hw5]; lia|].
  eapply within_weaken; [| |exact Hw7]; lia.
Qed.

(** *** Quicksort *)

Lemma shellPass_within a b n i data :
  a + 6 <= i -> i + n <= b -> within a b data (shellPass less n i data).
Proof.
  revert i data. induction n as [|n IH]; intros i data Hi Hb; simpl.
  { apply within_refl. }
  eapply within_trans; [|apply IH; lia].
  destruct (Less less data i (i - 6)); [|apply within_refl].
  apply Swap_within; lia.
Qed.

Lemma ordered_three_way a mlo mhi b p data :
  a <= mlo -> mlo <= mhi -> mhi <= b ->
  ordered a mlo data -> ordered mhi b data ->
  (∀ i, a <= i < mlo -> keyAt data i <= p) ->
  (∀ i, mlo <= i < mhi -> keyAt data i = p) ->
  (∀ i, mhi <= i < b -> p <= keyAt data i) ->
  ordered a b data.
Proof.
  intros H1 H2 H3 Hlo Hhi Hle Heq Hge i j Hi Hij Hj.
  destruct (decide (j < mlo)); [apply Hlo; lia|].
  destruct (decide (mhi <= i)); [apply Hhi; lia|].
  assert (keyAt data i <= p) as Hip.
  { destruct (decide (i < mlo)); [apply Hle; lia|]. rewrite Heq; lia. }
  assert (p <= keyAt data j) as Hjp.
  { destruct (decide (mhi <= j)); [apply Hge; lia|]. rewrite Heq; lia. }
  lia.
Qed.

Lemma quickSort_small data a b :
  b <= length data -> b - a <= 12 ->
  let data' :=
    if 1 <? b - a
    then insertionSort less (shellPass less (b - (a + 6)) (a + 6) data) a b
    else data in
  ordered a b data' ∧ within a b data data'.
Proof.
  intros Hb Hsmall. cbv zeta.
  destruct (1 <? b - a) eqn:H1.
  - assert (within a b data (shellPass less (b - (a + 6)) (a + 6) data)) as Hw.
    { destruct (decide (a + 6 <= b)).
      - apply shellPass_within; lia.
      - replace (b - (a + 6)) with 0 by lia. apply within_refl. }
    split.
    + apply insertionSort_ordered. destruct Hw as (-> & _). done.
    + eapply within_trans; [exact Hw|apply insertionSort_within].
  - apply Nat.ltb_ge in H1. split; [|apply within_refl].
    intros i j Hi Hij Hj. lia.
Qed.

Lemma quickSort_spec maxDepth data a b :
  a <= b -> b <= length data ->
  ordered a b (quickSort less maxDepth data a b) ∧
  within a b data (quickSort less maxDepth data a b).
Proof.
  revert data a b.
  induction maxDepth as [|d IH]; intros data a b Hab Hb; cbn [quickSort].
  - destruct (12 <? b - a) eqn:H12.
    + by apply heapSort_spec.
    + apply Nat.ltb_ge in H12. by apply quickSort_small.
  - destruct (12 <? b - a) eqn:H12.
    2:{ apply Nat.ltb_ge in H12. by apply quickSort_small. }
    apply Nat.ltb_lt in H12.
    destruct (doPivot_spec data a b)
      as (d1 & mlo & mhi & p & -> & Hmlo & Hmhi & Hw1 & Hle & Heq & Hge);
      [lia|done|].
    assert (length d1 = length data) as Hl1 by (by destruct Hw1).
    destruct (mlo - a <? b - mhi).
    + destruct (IH d1 a mlo) as [Ho2 Hw2]; [lia|lia|].
      set (d2 := quickSort less d d1 a mlo) in *.
      assert (length d2 = length data) as Hl2 by (destruct Hw2; congruence).
      destruct (IH d2 mhi b) as [Ho3 Hw3]; [lia|lia|].
      set (d3 := quickSort less d d2 mhi b) in *.
      destruct Hw2 as (Hl2' & Hout2 & Hin2). destruct Hw3 as (Hl3 & Hout3 & Hin3).
      split.
      * apply (ordered_three_way a mlo mhi b p); try lia; try done.
        -- intros i j Hi Hij Hj. rewrite !Hout3 by lia. apply Ho2; lia.
        -- intros i Hi. rewrite Hout3 by lia.
           destruct (Hin2 i Hi) as (j & Hj & ->). apply Hle. lia.
        -- intros i Hi. rewrite Hout3, Hout2 by lia. by apply Heq.
        -- intros i Hi. destruct (Hin3 i Hi) as (j & Hj & ->).
           rewrite Hout2 by lia. apply Hge. lia.
      * eapply within_trans; [exact Hw1|].
        eapply within_trans.
        -- eapply (within_weaken a mlo); [| |split_and!; [exact Hl2'|exact Hout2|exact Hin2]];
             lia.
        -- eapply (within_weaken mhi b); [| |split_and!; [exact Hl3|exact Hout3|exact Hin3]];
             lia.
    + destruct (IH d1 mhi b) as [Ho2 Hw2]; [lia|lia|].
      set (d2 := quickSort less d d1 mhi b) in *.
      assert (length d2 = length data) as Hl2 by (destruct Hw2; congruence).
      destruct (IH d2 a mlo) as [Ho3 Hw3]; [lia|lia|].
      set (d3 := quickSort less d d2 a mlo) in *.
      destruct Hw2 as (Hl2' & Hout2 & Hin2). destruct Hw3 as (Hl3 & Hout3 & Hin3).
      split.
      * apply (ordered_three_way a mlo mhi b p); try lia; try done.
        -- intros i j Hi Hij Hj. rewrite !Hout3 by lia. apply Ho2; lia.
        -- intros i Hi. destruct (Hin3 i Hi) as (j & Hj & ->).
           rewrite Hout2 by lia. apply Hle. lia.
        -- intros i Hi. rewrite Hout3, Hout2 by lia. by apply Heq.
        -- intros i Hi. rewrite Hout3 by lia.
           destruct (Hin2 i Hi) as (j & Hj & ->). apply Hge. lia.
      * eapply within_trans; [exact Hw1|].
        eapply within_trans.
        -- eapply (within_weaken mhi b); [| |split_and!; [exact Hl2'|exact Hout2|exact Hin2]];
             lia.
        -- eapply (within_weaken a mlo); [| |split_and!; [exact Hl3|exact Hout3|exact Hin3]];
             lia.
Qed.

(** [sort.Sort] leaves the data in order: an element further to the left
    never has the larger key. *)
Lemma Sort_ordered data i j x y :
  Sort less data !! i = Some x -> Sort less data !! j = Some y ->
  i < j -> key x <= key y.
Proof.
  intros Hi Hj Hij. unfold Sort in *.
  destruct (quickSort_spec (maxDepth (length data)) data 0 (length data))
    as [Hord (Hlen & _)]; [lia|done|].
  pose proof (lookup_lt_Some _ _ _ Hj) as Hjl. rewrite Hlen in Hjl.
  specialize (Hord i j ltac:(lia) Hij Hjl).
  unfold keyAt in Hord. by rewrite Hi, Hj in Hord.
Qed.

End Order.

End GoSortOrder.

(** ** Duplicate removal keeps the first occurrence of every value *)

Lemma filter_all {A} (P : A -> Prop) `{!∀ x, Decision (P x)} (l : list A) :
  (∀ x, P x) -> filter P l = l.
Proof.
  intros HP. induction l as [|x l IH]; [done|].
  rewrite filter_cons_True by done. by rewrite IH.
Qed.

Lemma firstOccurrences_filter (P : string -> Prop) `{!∀ x, Decision (P x)} l :
  firstOccurrences (filter P l) = filter P (firstOccurrences l).
Proof.
  induction l as [|x l IH]; [done|].
  rewrite filter_cons. destruct (decide (P x)) as [HP|HP]; simpl.
  - rewrite filter_cons_True by done. f_equal. rewrite IH.
    rewrite !list_filter_filter. apply list_filter_iff. naive_solver.
  - rewrite filter_cons_False by done. rewrite IH.
    rewrite list_filter_filter. apply list_filter_iff.
    intros y. split; [|naive_solver]. intros Hy. split; [done|]. by intros ->.
Qed.

Lemma removeDuplicateLoop_firstOccurrences values observed results :
  removeDuplicateLoop values observed results
  = results ++ firstOccurrences (filter (fun y => y ∉ observed) values).
Proof.
  revert observed results.
  induction values as [|entry values IH]; intros observed results; simpl.
  { by rewrite app_nil_r. }
  rewrite filter_cons. destruct (decide (entry ∈ observed)) as [Hin|Hin].
  - rewrite decide_False by (intros Hn; by apply Hn). apply IH.
  - rewrite decide_True by done. rewrite IH, <-app_assoc. simpl. do 2 f_equal.
    rewrite <-firstOccurrences_filter, list_filter_filter.
    f_equal. apply list_filter_iff. intros y. set_solver.
Qed.

Lemma removeDuplicateValues_firstOccurrences values :
  removeDuplicateValues values = firstOccurrences values.
Proof.
  unfold removeDuplicateValues.
  rewrite removeDuplicateLoop_firstOccurrences. simpl. f_equal.
  apply filter_all. intros; set_solver.
Qed.

Lemma elem_of_firstOccurrences l x : x ∈ firstOccurrences l ↔ x ∈ l.
Proof.
  induction l as [|y l IH]; [done|]. simpl.
  rewrite !elem_of_cons, list_elem_of_filter, IH.
  destruct (decide (x = y)); naive_solver.
Qed.

Lemma NoDup_firstOccurrences l : NoDup (firstOccurrences l).
Proof.
  induction l as [|y l IH]; simpl; [constructor|].
  constructor.
  - rewrite list_elem_of_filter. naive_solver.
  - by apply NoDup_filter.
Qed.

Lemma elem_of_removeDuplicateValues l x : x ∈ removeDuplicateValues l ↔ x ∈ l.
Proof. rewrite removeDuplicateValues_firstOccurrences. apply elem_of_firstOccurrences. Qed.

Lemma NoDup_removeDuplicateValues l : NoDup (removeDuplicateValues l).
Proof. rewrite removeDuplicateValues_firstOccurrences. apply NoDup_firstOccurrences. Qed.

Lemma removeDuplicateValues_nil_inv l : removeDuplicateValues l = [] -> l = [].
Proof.
  rewrite removeDuplicateValues_firstOccurrences. by destruct l.
Qed.

(** ** Membership in the normalized and in the expanded lists *)

Lemma elem_of_normalizeAllSeparators fields x :
  x ∈ normalizeAllSeparators fields
  ↔ ∃ field, field ∈ fields ∧ x ∈ normalizeSeparators field.
Proof.
  induction fields as [|f fields IH]; cbn [normalizeAllSeparators].
  - split; [by intros ?%elem_of_nil|]. intros (? & ?%elem_of_nil & _). done.
  - rewrite elem_of_app, IH. setoid_rewrite elem_of_cons. naive_solver.
Qed.

Lemma elem_of_generateAllSubSelections fields x :
  x ∈ generateAllSubSelections fields
  ↔ ∃ field, field ∈ fields ∧ x ∈ generateSubSelections field.
Proof.
  induction fields as [|f fields IH]; cbn [generateAllSubSelections].
  - split; [by intros ?%elem_of_nil|]. intros (? & ?%elem_of_nil & _). done.
  - rewrite elem_of_app, IH. setoid_rewrite elem_of_cons. naive_solver.
Qed.

Lemma normalizeSeparators_self field : field ∈ normalizeSeparators field.
Proof. unfold normalizeSeparators. simpl. apply elem_of_cons. by left. Qed.

(** ** [filterCPEs] is a filter *)

Lemma filterCPEs_filter cpes p filters :
  filterCPEs cpes p filters
  = filter (fun cpe => existsb (fun fn : filterFn => fn cpe p) filters = false) cpes.
Proof.
  induction cpes as [|c cpes IH]; [done|]. simpl. rewrite filter_cons.
  destruct (existsb _ filters) eqn:He.
  - by rewrite decide_False by done.
  - rewrite decide_True by done. by rewrite IH.
Qed.

(** ** Invariants of the generation loops *)

Lemma foldl_invariant {S X} (P : S -> Prop) (f : S -> X -> S) (l : list X) (s : S) :
  P s -> (∀ s x, P s -> P (f s x)) -> P (foldl f s l).
Proof.
  intros Hs Hf. revert s Hs. induction l as [|x l IH]; intros s Hs; simpl; auto.
Qed.

Section GenerationInvariant.

Context {ext : Externals}.

Lemma addCPE_invariant version product vendor targetSw st :
  loopInvariant version st ->
  loopInvariant version (addCPE version product vendor targetSw st).
Proof.
  intros [Hnd Hall]. unfold addCPE.
  destruct (decide (_ ∈ st.1)) as [Hin|Hnin]; [by split|].
  split; simpl.
  - apply NoDup_app. split_and!; [done| |apply NoDup_singleton].
    intros c Hc ->%list_elem_of_singleton.
    destruct (Hall _ Hc) as [Hkey _]. by apply Hnin.
  - intros c [Hc| ->%list_elem_of_singleton]%elem_of_app.
    + destruct (Hall _ Hc) as [Hkey Heq]. split; [|done]. set_solver.
    + split; [|done]. simpl. set_solver.
Qed.

Lemma generateLoops_invariant version products vendors targetSws :
  loopInvariant version (generateLoops version products vendors targetSws).
Proof.
  unfold generateLoops.
  apply foldl_invariant.
  { split; simpl; [constructor|]. by intros c ?%elem_of_nil. }
  intros st product Hst. apply foldl_invariant; [done|].
  intros st' vendor Hst'. apply foldl_invariant; [done|].
  intros st'' targetSw Hst''. by apply addCPE_invariant.
Qed.

Lemma generateLoops_no_vendors version products targetSws :
  generateLoops version products [] targetSws = (∅, []).
Proof.
  unfold generateLoops. induction products as [|x l IH]; simpl; [done|]. apply IH.
Qed.

End GenerationInvariant.

Lemma GoSort_Sort_nil {A} (less : A -> A -> bool) : GoSort.Sort less [] = [].
Proof. reflexivity. Qed.

(** ** Claims about the generator *)

Section GeneratorClaims.

Context {ext : Externals}.

Lemma generate_perm_filtered p :
  candidateProducts p ≠ [] -> generatePackageCPEs p ≡ₚ filteredCPEs p.
Proof.
  intros Hne. unfold generatePackageCPEs.
  destruct (candidateProducts p) as [|x l] eqn:Hp; [done|]. simpl.
  apply GoSortPerm.Sort_perm.
Qed.

Lemma generate_elem_filtered p c : c ∈ generatePackageCPEs p -> c ∈ filteredCPEs p.
Proof.
  unfold generatePackageCPEs.
  destruct (length (candidateProducts p) =? 0) eqn:Hl; [by intros ?%elem_of_nil|].
  intros Hc. by rewrite GoSortPerm.Sort_perm in Hc.
Qed.

Lemma filtered_NoDup p : NoDup (filteredCPEs p).
Proof.
  unfold filteredCPEs, generatedCPEs. rewrite filterCPEs_filter. apply NoDup_filter.
  apply generateLoops_invariant.
Qed.

Lemma filtered_built p c :
  c ∈ filteredCPEs p ->
  c = newCPE (Product c) (Vendor c) (Version p) (TargetSW c).
Proof.
  unfold filteredCPEs, generatedCPEs. rewrite filterCPEs_filter.
  intros [_ Hc]%list_elem_of_filter.
  by apply generateLoops_invariant in Hc as [_ ?].
Qed.

Lemma generate_NoDup p : NoDup (generatePackageCPEs p).
Proof.
  unfold generatePackageCPEs.
  destruct (length (candidateProducts p) =? 0); [constructor|].
  rewrite GoSortPerm.Sort_perm. apply filtered_NoDup.
Qed.

(** C3: a package whose product candidates are empty, or whose vendor
    candidates are empty, gets the empty identifier list; the result is a
    value of the list type, the function has no failing path. *)
Theorem generatePackageCPEs_no_candidates p :
  candidateProducts p = [] ∨ candidateVendors p = [] ->
  generatePackageCPEs p = [].
Proof.
  intros [Hp|Hv]; unfold generatePackageCPEs.
  - by rewrite Hp.
  - destruct (length (candidateProducts p) =? 0); [done|].
    unfold filteredCPEs, generatedCPEs. rewrite Hv, generateLoops_no_vendors. reflexivity.
Qed.

(** C4: every identifier returned carries the package version verbatim,
    and no two positions of the result hold identifiers that agree on
    product, vendor, version and target software. *)
Theorem generatePackageCPEs_version_and_dedup p :
  (∀ c, c ∈ generatePackageCPEs p -> CVersion c = Version p) ∧
  (∀ i j c1 c2,
      generatePackageCPEs p !! i = Some c1 ->
      generatePackageCPEs p !! j = Some c2 ->
      Product c1 = Product c2 -> Vendor c1 = Vendor c2 ->
      CVersion c1 = CVersion c2 -> TargetSW c1 = TargetSW c2 ->
      i = j).
Proof.
  split.
  - intros c Hc%generate_elem_filtered%filtered_built. by rewrite Hc.
  - intros i j c1 c2 Hi Hj Hp Hv _ Ht.
    assert (c1 = c2) as ->.
    { apply list_elem_of_lookup_2, generate_elem_filtered, filtered_built in Hi, Hj.
      rewrite Hi, Hj. by rewrite Hp, Hv, Ht. }
    eapply NoDup_lookup; eauto using generate_NoDup.
Qed.


(** C10: for a Go package whose name parses to the host "gopkg.in" the
    vendor helper returns the empty string, the vendor candidate list is
    empty and no identifier is generated, whatever the product candidates
    are. *)
Theorem gopkg_in_yields_no_identifier p u :
  PLanguage p = Go ->
  Parse ("http://" +:+ Name p) = Some u ->
  Host u = "gopkg.in" ->
  candidateVendorForGo (Name p) = "" ∧
  candidateVendors p = [] ∧
  generatePackageCPEs p = [].
Proof.
  intros Hgo Hparse Hhost.
  assert (candidateVendorForGo (Name p) = "") as Hv.
  { unfold candidateVendorForGo. rewrite Hparse, Hhost. reflexivity. }
  assert (candidateVendors p = []) as Hvs.
  { unfold candidateVendors, baseVendors. rewrite Hgo, Hv. reflexivity. }
  split_and!; [done|done|].
  apply generatePackageCPEs_no_candidates. by right.
Qed.

End GeneratorClaims.

(** C3 (witness): the bare Go module name "justaname" has no product candidate. *)
Lemma generatePackageCPEs_no_candidates_witness :
  let p := plainPackage "justaname" "1.0.0" Go GoModulePkg in
  (candidateProducts (ext:=upstream) p = [] ∨ candidateVendors (ext:=upstream) p = [])
  ∧ generatePackageCPEs (ext:=upstream) p = [].
Proof.
  split.
  - left. vm_compute. reflexivity.
  - apply generatePackageCPEs_no_candidates. left. vm_compute. reflexivity.
Defined.

(** C4 (witness): the three identifiers of the Go module
    "github.com/foo/bar", all with the version "1.2.3". *)
Lemma generatePackageCPEs_version_and_dedup_witness :
  let p := plainPackage "github.com/foo/bar" "1.2.3" Go GoModulePkg in
  generatePackageCPEs (ext:=upstream) p
  = [newCPE (ext:=upstream) "bar" "foo" "1.2.3" "go";
     newCPE (ext:=upstream) "bar" "foo" "1.2.3" "golang";
     newCPE (ext:=upstream) "bar" "foo" "1.2.3" ""] ∧
  (newCPE (ext:=upstream) "bar" "foo" "1.2.3" "go" ∈ generatePackageCPEs (ext:=upstream) p ->
   CVersion (newCPE (ext:=upstream) "bar" "foo" "1.2.3" "go") = Version p).
Proof.
  split; [vm_compute; reflexivity|].
  destruct (generatePackageCPEs_version_and_dedup (ext:=upstream)
              (plainPackage "github.com/foo/bar" "1.2.3" Go GoModulePkg))
    as [Hversion _].
  apply Hversion.
Defined.


(** C10 (witness): "gopkg.in/yaml.v2" has the product candidate "yaml.v2", no vendor candidate and no identifier. *)
Lemma gopkg_in_yields_no_identifier_witness :
  let p := plainPackage "gopkg.in/yaml.v2" "2.4.0" Go GoModulePkg in
  candidateProducts (ext:=upstream) p = ["yaml.v2"] ∧
  candidateVendorForGo (Name p) = "" ∧
  candidateVendors (ext:=upstream) p = [] ∧
  generatePackageCPEs (ext:=upstream) p = [].
Proof.
  split; [vm_compute; reflexivity|].
  eapply (gopkg_in_yields_no_identifier (ext:=upstream)).
  - reflexivity.
  - vm_compute. reflexivity.
  - reflexivity.
Defined.

(** ** The scanner and the sub-selection expander *)

Lemma byteIn_separators c : byteIn c "-_" = trimHyphenOrUnderscore c.
Proof.
  unfold trimHyphenOrUnderscore. simpl.
  destruct (Ascii.eqb c "-"); [done|]. destruct (Ascii.eqb c "_"); done.
Qed.

Lemma Contains_cons_false c s sub :
  Contains (String c s) sub = false ->
  HasPrefix (String c s) sub = false ∧ Contains s sub = false.
Proof. simpl. intros H. by apply orb_false_elim in H. Qed.

Lemma separator_free_cons c t :
  Contains (String c t) "-" = false -> Contains (String c t) "_" = false ->
  trimHyphenOrUnderscore c = false ∧
  Contains t "-" = false ∧ Contains t "_" = false.
Proof.
  intros [H1 H1']%Contains_cons_false [H2 H2']%Contains_cons_false.
  split_and!; [|done|done].
  unfold trimHyphenOrUnderscore. simpl in H1, H2.
  rewrite andb_true_r in H1, H2.
  rewrite (Ascii.eqb_sym c "-"), (Ascii.eqb_sym c "_"), H1, H2. done.
Qed.

Lemma IndexAny_separator_free t :
  Contains t "-" = false -> Contains t "_" = false -> IndexAny t "-_" = None.
Proof.
  induction t as [|c t IH]; [done|].
  intros H1 H2. destruct (separator_free_cons _ _ H1 H2) as (Hc & H1' & H2').
  cbn [IndexAny]. rewrite byteIn_separators, Hc, IH; done.
Qed.

Lemma trimRightFunc_separator_free t :
  Contains t "-" = false -> Contains t "_" = false ->
  trimRightFunc trimHyphenOrUnderscore t = t.
Proof.
  induction t as [|c t IH]; [done|].
  intros H1 H2. destruct (separator_free_cons _ _ H1 H2) as (Hc & H1' & H2').
  cbn [trimRightFunc]. rewrite IH, Hc by done. by destruct t.
Qed.

Lemma TrimFunc_separator_free t :
  Contains t "-" = false -> Contains t "_" = false ->
  TrimFunc t trimHyphenOrUnderscore = t.
Proof.
  intros H1 H2. unfold TrimFunc.
  assert (trimLeftFunc trimHyphenOrUnderscore t = t) as ->.
  { destruct t as [|c t]; [done|].
    destruct (separator_free_cons _ _ H1 H2) as (Hc & _). simpl. by rewrite Hc. }
  by apply trimRightFunc_separator_free.
Qed.

Lemma dropBytes_all s : dropBytes (String.length s) s = "".
Proof. induction s as [|c s IH]; [done|]. apply IH. Qed.

Lemma scanTokens_empty rounds : scanTokens rounds "" = [].
Proof. by destruct rounds. Qed.











(** ** Java group identifiers *)

Section GroupID.

Context {ext : Externals}.


End GroupID.


(** ** Go module paths *)

(** [strings.Split] never returns an empty slice, so the index expression
    [pathElements[0]] of the two helpers cannot fail. *)
Lemma splitFrom_nonempty skip s sep cur : splitFrom skip s sep cur ≠ [].
Proof.
  revert skip cur. induction s as [|c s IH]; intros skip cur; [done|].
  cbn [splitFrom]. destruct skip; [|apply IH].
  destruct (HasPrefix _ _); [done|apply IH].
Qed.

Lemma Split_nonempty s sep : Split s sep ≠ [].
Proof. apply splitFrom_nonempty. Qed.

Lemma IndexByte_cons_ne c d s :
  Ascii.eqb d c = false ->
  IndexByte (String d s) c = S <$> IndexByte s c.
Proof.
  intros Hne. unfold IndexByte. cbn [IndexAny byteIn].
  rewrite Hne. simpl. by destruct (IndexAny s _).
Qed.

Lemma split_cons_ne c d s cutc :
  Ascii.eqb d c = false ->
  split (String d s) c cutc
  = (String d (split s c cutc).1, (split s c cutc).2).
Proof.
  intros Hne. unfold split. rewrite IndexByte_cons_ne by done.
  destruct (IndexByte s c) as [i|]; simpl; [|done].
  by destruct cutc.
Qed.

Lemma parse_http n : parse ("http://" +:+ n) = parseAfterHTTP n.
Proof.
  unfold parse, parseAfterHTTP. simpl.
  destruct (stringContainsCTLByte n); [done|].
  assert (HasSuffixByte (String "/" (String "/" n)) "?" = HasSuffixByte n "?") as ->.
  { unfold HasSuffixByte. by destruct n. }
  destruct (HasSuffixByte n "?" && (countByte n "?" =? 1)) eqn:Hq.
  - destruct n as [|c n]; [done|]. simpl. rewrite Nat.sub_0_r. simpl.
    destruct (split _ "/" false) as [authority path0].
    destruct (parseAuthority authority); [|done].
    by destruct (unescape path0 encodePath).
  - rewrite !split_cons_ne by done.
    destruct (split n "?" true) as [rest rawQuery]. simpl.
    destruct (split rest "/" false) as [authority path0].
    destruct (parseAuthority authority); [|done].
    by destruct (unescape path0 encodePath).
Qed.

Lemma Parse_http name :
  Parse ("http://" +:+ name)
  = match parseAfterHTTP (split name "#" true).1 with
    | None => None
    | Some url =>
        if String.eqb (split name "#" true).2 "" then Some url
        else
          match unescape (split name "#" true).2 encodeFragment with
          | Some fragment =>
              Some (mkURL (Scheme url) (Opaque url) (Host url) (Path url)
                          (RawQuery url) fragment)
          | None => None
          end
    end.
Proof.
  unfold Parse. simpl. rewrite !split_cons_ne by done.
  destruct (split name "#" true) as [u frag]. simpl.
  change (String "h" (String "t" (String "t" (String "p" (String ":"
            (String "/" (String "/" u))))))) with ("http://" +:+ u).
  by rewrite parse_http.
Qed.

Lemma Contains_byte_IndexByte s c :
  Contains s (String c "") = false -> IndexByte s c = None.
Proof.
  induction s as [|d s IH]; [done|].
  intros [H1 H2]%Contains_cons_false. simpl in H1. rewrite andb_true_r in H1.
  rewrite IndexByte_cons_ne by (by rewrite Ascii.eqb_sym). by rewrite IH.
Qed.

Lemma IndexByte_takeBytes_None k s c :
  IndexByte s c = None -> IndexByte (takeBytes k s) c = None.
Proof.
  revert s. induction k as [|k IH]; intros [|d s]; try done.
  unfold IndexByte. cbn [takeBytes IndexAny].
  destruct (byteIn d _); [done|].
  specialize (IH s). unfold IndexByte in IH.
  destruct (IndexAny s _); [done|]. intros _. by rewrite IH.
Qed.

Lemma IndexByte_split_fst_None s sep cutc c :
  IndexByte s c = None -> IndexByte (split s sep cutc).1 c = None.
Proof.
  intros H. unfold split. destruct (IndexByte s sep); [|done].
  destruct cutc; simpl; by apply IndexByte_takeBytes_None.
Qed.

(** A name without slash has an empty path. *)
Lemma Parse_http_bare_name name u :
  Contains name "/" = false ->
  Parse ("http://" +:+ name) = Some u -> Path u = "".
Proof.
  intros Hbare%Contains_byte_IndexByte. rewrite Parse_http.
  pose proof (IndexByte_split_fst_None name "#" true "/" Hbare) as H1.
  set (n1 := (split name "#" true).1) in *. clearbody n1.
  assert (∀ url, parseAfterHTTP n1 = Some url -> Path url = "") as Hpath.
  { unfold parseAfterHTTP. intros url.
    destruct (stringContainsCTLByte n1); [done|].
    set (q := if _ && _ then _ else _).
    assert (IndexByte q.1 "/" = None) as H2.
    { subst q. destruct (_ && _); simpl.
      - by apply IndexByte_takeBytes_None.
      - by apply IndexByte_split_fst_None. }
    destruct q as [rest rawQuery]. simpl in H2.
    unfold split at 1. rewrite H2.
    destruct (parseAuthority rest); [|done]. simpl. by intros [= <-]. }
  destruct (parseAfterHTTP n1) as [url|]; [|done].
  specialize (Hpath url eq_refl).
  destruct (String.eqb _ ""); [by intros [= <-]|].
  destruct (unescape _ encodeFragment); [|done]. by intros [= <-].
Qed.

(** C6 (counterexample): the bare name "golang.org" has no slash, and its
    vendor is "golang", not empty. *)
Lemma candidateVendorForGo_bare_golang_org :
  Contains "golang.org" "/" = false ∧
  candidateProductForGo "golang.org" = "" ∧
  candidateVendorForGo "golang.org" = "golang".
Proof. split_and!; vm_compute; reflexivity. Qed.

(** C6 (amended): the four examples; and for every name without slash the
    product is empty, and the vendor is "google" for the host
    "google.golang.org", "golang" for the host "golang.org", and empty
    otherwise. *)
Theorem go_module_path_parsing :
  (candidateProductForGo "golang.org/x/net" = "x/net" ∧
   candidateVendorForGo "golang.org/x/net" = "golang") ∧
  (candidateProductForGo "google.golang.org/grpc" = "grpc" ∧
   candidateVendorForGo "google.golang.org/grpc" = "google") ∧
  (candidateProductForGo "github.com/foo/bar" = "bar" ∧
   candidateVendorForGo "github.com/foo/bar" = "foo") ∧
  (candidateProductForGo "justaname" = "" ∧
   candidateVendorForGo "justaname" = "") ∧
  (∀ name, Contains name "/" = false ->
     candidateProductForGo name = "" ∧
     candidateVendorForGo name
     = match Parse ("http://" +:+ name) with
       | None => ""
       | Some u =>
           if String.eqb (Host u) "google.golang.org" then "google"
           else if String.eqb (Host u) "golang.org" then "golang"
           else ""
       end).
Proof.
  do 4 (split; [split; vm_compute; reflexivity|]).
  intros name Hbare. unfold candidateProductForGo, candidateVendorForGo.
  destruct (Parse ("http://" +:+ name)) as [u|] eqn:Hu; [|done].
  rewrite (Parse_http_bare_name name u Hbare Hu).
  split.
  - by repeat destruct (String.eqb (Host u) _).
  - by repeat destruct (String.eqb (Host u) _).
Qed.

(** C6 (witness): two names without slash. *)
Lemma go_module_path_parsing_witness :
  Contains "golang.org" "/" = false ∧
  Contains "example" "/" = false ∧
  (candidateProductForGo "golang.org" = "" ∧
   candidateVendorForGo "golang.org" = "golang") ∧
  (candidateProductForGo "example" = "" ∧
   candidateVendorForGo "example" = "").
Proof.
  destruct go_module_path_parsing as (_ & _ & _ & _ & Hbare).
  split; [reflexivity|]. split; [reflexivity|]. split.
  - destruct (Hbare "golang.org" eq_refl) as [Hp Hv]. split; [exact Hp|].
    rewrite Hv. vm_compute. reflexivity.
  - destruct (Hbare "example" eq_refl) as [Hp Hv]. split; [exact Hp|].
    rewrite Hv. vm_compute. reflexivity.
Defined.

(** ** Product and vendor resolution *)

Lemma firstOccurrences_app l1 l2 :
  firstOccurrences (l1 ++ l2)
  = firstOccurrences l1 ++ filter (fun y => y ∉ l1) (firstOccurrences l2).
Proof.
  induction l1 as [|x l1 IH]; simpl.
  { symmetry. apply filter_all. intros y. apply not_elem_of_nil. }
  f_equal. rewrite IH, filter_app. f_equal.
  rewrite list_filter_filter. apply list_filter_iff.
  intros y. rewrite elem_of_cons. naive_solver.
Qed.



Section Resolution.

Context {ext : Externals}.

Lemma elem_of_candidateProducts p x :
  x ∈ candidateProducts p
  ↔ x ∈ getCandidates productCandidatesByPkgType (PType p) (Name p)
    ∨ ∃ base, base ∈ baseProducts p ∧ x ∈ normalizeSeparators base.
Proof.
  unfold candidateProducts.
  by rewrite elem_of_removeDuplicateValues, elem_of_app, elem_of_normalizeAllSeparators.
Qed.

(** C1 (amended): product resolution separator-normalizes the base
    candidates, then prepends the override aliases as they are, then
    removes duplicates keeping first occurrences; the aliases come first,
    and a candidate is in the result exactly when it is an alias or a
    separator variant of a base candidate.  No sub-selection is taken. *)
Theorem candidateProducts_resolution p :
  let aliases := getCandidates productCandidatesByPkgType (PType p) (Name p) in
  candidateProducts p
  = firstOccurrences (aliases ++ normalizeAllSeparators (baseProducts p)) ∧
  (∃ others, candidateProducts p = firstOccurrences aliases ++ others) ∧
  NoDup (candidateProducts p) ∧
  (∀ x, x ∈ candidateProducts p
        ↔ x ∈ aliases ∨ ∃ base, base ∈ baseProducts p ∧ x ∈ normalizeSeparators base).
Proof.
  cbv zeta. split_and!.
  - unfold candidateProducts. apply removeDuplicateValues_firstOccurrences.
  - unfold candidateProducts.
    rewrite removeDuplicateValues_firstOccurrences, firstOccurrences_app. eauto.
  - apply NoDup_removeDuplicateValues.
  - apply elem_of_candidateProducts.
Qed.


End Resolution.

(** C1 (counterexample): for the Java archive "spring-core" the product
    candidates are the two aliases and the three separator variants of the
    name; the order of the spec would also normalize the aliases and take
    sub-selections such as "spring". *)
Lemma candidateProducts_without_sub_selections :
  let p := plainPackage "spring-core" "5.3.0" Java JavaPkg in
  candidateProducts (ext:=upstream) p
  = ["spring_framework"; "springsource_spring_framework";
     "spring-core"; "spring_core"; "springcore"] ∧
  candidateProducts_specified (ext:=upstream) p
  = ["spring"; "spring_framework"; "spring-framework"; "springframework";
     "springsource"; "springsource_spring"; "springsource_spring_framework";
     "springsource-spring"; "springsource-spring-framework";
     "springsourcespringframework"; "spring-core"; "spring_core"; "springcore"] ∧
  candidateProducts (ext:=upstream) p ≠ candidateProducts_specified (ext:=upstream) p.
Proof.
  assert (candidateProducts (ext:=upstream)
            (plainPackage "spring-core" "5.3.0" Java JavaPkg)
          = ["spring_framework"; "springsource_spring_framework";
             "spring-core"; "spring_core"; "springcore"]) as H1
    by (vm_compute; reflexivity).
  assert (candidateProducts_specified (ext:=upstream)
            (plainPackage "spring-core" "5.3.0" Java JavaPkg)
          = ["spring"; "spring_framework"; "spring-framework"; "springframework";
             "springsource"; "springsource_spring"; "springsource_spring_framework";
             "springsource-spring"; "springsource-spring-framework";
             "springsourcespringframework"; "spring-core"; "spring_core";
             "springcore"]) as H2
    by (vm_compute; reflexivity).
  cbv zeta. split_and!; [exact H1|exact H2|].
  rewrite H1, H2. discriminate.
Qed.



(** ** The order of the result *)

Section SpecificityOrder.

Context {ext : Externals}.

Lemma countSpecifiedFields_le c : countSpecifiedFields c <= 11.
Proof. unfold countSpecifiedFields. etrans; [apply length_filter|]. done. Qed.

Lemma ByCPESpecificity_Less_key c1 c2 :
  ByCPESpecificity_Less c1 c2 = (wildcardCount c1 <? wildcardCount c2).
Proof.
  unfold ByCPESpecificity_Less, wildcardCount.
  pose proof (countSpecifiedFields_le c1). pose proof (countSpecifiedFields_le c2).
  destruct (_ <? countSpecifiedFields c1) eqn:H1; symmetry.
  - apply Nat.ltb_lt in H1. apply Nat.ltb_lt. lia.
  - apply Nat.ltb_ge in H1. apply Nat.ltb_ge. lia.
Qed.

Lemma countSpecifiedFields_targetSW product vendor version targetSw :
  targetSw ≠ wfn_Any ->
  countSpecifiedFields (newCPE product vendor version targetSw)
  = S (countSpecifiedFields (newCPE product vendor version wfn_Any)).
Proof.
  intros Hne. unfold countSpecifiedFields, newCPE. simpl.
  rewrite !filter_cons, filter_nil.
  repeat case_decide; simpl; try done; lia.
Qed.

(** C9 (amended): the result is ordered by specificity, identifiers with
    more specified (non-wildcard) attributes first; hence an identifier
    with a non-wildcard target software stands before the identifier with
    the same product and vendor and the wildcard target software. *)
Theorem generatePackageCPEs_specificity_order p :
  (∀ i j c1 c2,
     generatePackageCPEs p !! i = Some c1 ->
     generatePackageCPEs p !! j = Some c2 ->
     i < j -> countSpecifiedFields c2 <= countSpecifiedFields c1) ∧
  (∀ i j c1 c2,
     generatePackageCPEs p !! i = Some c1 ->
     generatePackageCPEs p !! j = Some c2 ->
     Product c1 = Product c2 -> Vendor c1 = Vendor c2 ->
     TargetSW c1 ≠ wfn_Any -> TargetSW c2 = wfn_Any ->
     i < j).
Proof.
  assert (∀ i j c1 c2,
     generatePackageCPEs p !! i = Some c1 ->
     generatePackageCPEs p !! j = Some c2 ->
     i < j -> countSpecifiedFields c2 <= countSpecifiedFields c1) as Hsorted.
  { intros i j c1 c2 Hi Hj Hij. unfold generatePackageCPEs in Hi, Hj.
    destruct (length (candidateProducts p) =? 0); [done|].
    pose proof (GoSortOrder.Sort_ordered ByCPESpecificity_Less wildcardCount
                  ByCPESpecificity_Less_key _ _ _ _ _ Hi Hj Hij) as Hk.
    unfold wildcardCount in Hk.
    pose proof (countSpecifiedFields_le c1). pose proof (countSpecifiedFields_le c2).
    lia. }
  split; [exact Hsorted|].
  intros i j c1 c2 Hi Hj Hprod Hvend Hsw1 Hsw2.
  pose proof (list_elem_of_lookup_2 _ _ _ Hi) as Hb1.
  pose proof (list_elem_of_lookup_2 _ _ _ Hj) as Hb2.
  apply generate_elem_filtered, filtered_built in Hb1, Hb2.
  assert (countSpecifiedFields c1 = S (countSpecifiedFields c2)) as Hcount.
  { rewrite Hb1, Hb2, Hprod, Hvend, Hsw2.
    rewrite <-Hprod, <-Hvend.
    rewrite countSpecifiedFields_targetSW by done. by rewrite Hprod, Hvend. }
  destruct (decide (i < j)) as [|Hge]; [done|].
  destruct (decide (i = j)) as [->|Hne].
  { rewrite Hi in Hj. injection Hj as ->. done. }
  pose proof (Hsorted j i c2 c1 Hj Hi ltac:(lia)). lia.
Qed.

End SpecificityOrder.

(** C9 (counterexample): for the Java archive "x" with group identifier
    "org.v.p" the identifiers (x, x, java) and (p, p, java) are equally
    specific and are inserted in this order (positions 1 and 13 of the
    18), but [sort.Sort] returns (p, p, java) first and (x, x, java)
    second. *)
Lemma sort_Sort_reorders_equally_specific :
  let p := javaPackage "x" "1.0" "org.v.p" JavaPkg in
  let xx := newCPE (ext:=upstream) "x" "x" "1.0" "java" in
  let pp := newCPE (ext:=upstream) "p" "p" "1.0" "java" in
  countSpecifiedFields (ext:=upstream) xx = countSpecifiedFields (ext:=upstream) pp ∧
  filteredCPEs (ext:=upstream) p !! 1 = Some xx ∧
  filteredCPEs (ext:=upstream) p !! 13 = Some pp ∧
  generatePackageCPEs (ext:=upstream) p !! 0 = Some pp ∧
  generatePackageCPEs (ext:=upstream) p !! 1 = Some xx ∧
  ¬ specificity_order_is_stable (ext:=upstream).
Proof.
  cbv zeta.
  set (p := javaPackage "x" "1.0" "org.v.p" JavaPkg).
  set (xx := newCPE (ext:=upstream) "x" "x" "1.0" "java").
  set (pp := newCPE (ext:=upstream) "p" "p" "1.0" "java").
  assert (filteredCPEs (ext:=upstream) p !! 1 = Some xx) as F1
    by (vm_compute; reflexivity).
  assert (filteredCPEs (ext:=upstream) p !! 13 = Some pp) as F13
    by (vm_compute; reflexivity).
  assert (generatePackageCPEs (ext:=upstream) p !! 0 = Some pp) as G0
    by (vm_compute; reflexivity).
  assert (generatePackageCPEs (ext:=upstream) p !! 1 = Some xx) as G1
    by (vm_compute; reflexivity).
  assert (countSpecifiedFields (ext:=upstream) xx
          = countSpecifiedFields (ext:=upstream) pp) as Hc
    by (vm_compute; reflexivity).
  split; [exact Hc|]. split; [exact F1|]. split; [exact F13|].
  split; [exact G0|]. split; [exact G1|].
  intros Hstable.
  destruct (Hstable p xx pp 1 13 Hc F1 F13 ltac:(lia)) as (i' & j' & Hi & Hj & Hlt).
  pose proof (generate_NoDup (ext:=upstream) p) as Hnd.
  assert (i' = 1) as -> by (eapply NoDup_lookup; [exact Hnd|exact Hi|exact G1]).
  assert (j' = 0) as -> by (eapply NoDup_lookup; [exact Hnd|exact Hj|exact G0]).
  lia.
Qed.

(** C9 (witness): (x, x, java) stands before (x, x, wildcard). *)
Lemma generatePackageCPEs_specificity_order_witness :
  let p := javaPackage "x" "1.0" "org.v.p" JavaPkg in
  let java := newCPE (ext:=upstream) "x" "x" "1.0" "java" in
  let any := newCPE (ext:=upstream) "x" "x" "1.0" "" in
  generatePackageCPEs (ext:=upstream) p !! 1 = Some java ∧
  generatePackageCPEs (ext:=upstream) p !! 17 = Some any ∧
  TargetSW java ≠ wfn_Any (Externals:=upstream) ∧
  TargetSW any = wfn_Any (Externals:=upstream) ∧
  1 < 17.
Proof.
  cbv zeta.
  assert (generatePackageCPEs (ext:=upstream)
            (javaPackage "x" "1.0" "org.v.p" JavaPkg) !! 1
          = Some (newCPE (ext:=upstream) "x" "x" "1.0" "java")) as G1
    by (vm_compute; reflexivity).
  assert (generatePackageCPEs (ext:=upstream)
            (javaPackage "x" "1.0" "org.v.p" JavaPkg) !! 17
          = Some (newCPE (ext:=upstream) "x" "x" "1.0" "")) as G17
    by (vm_compute; reflexivity).
  split; [exact G1|]. split; [exact G17|].
  split; [discriminate|]. split; [reflexivity|].
  destruct (generatePackageCPEs_specificity_order (ext:=upstream)
              (javaPackage "x" "1.0" "org.v.p" JavaPkg)) as [_ Htwin].
  apply (Htwin 1 17 _ _ G1 G17); [reflexivity|reflexivity|discriminate|reflexivity].
Defined.

(** ** Further properties of the components *)

(** *** Strings *)

Lemma append_nil_r (s : string) : s +:+ "" = s.
Proof. induction s as [|c s IH]; simpl; congruence. Qed.

Lemma append_assoc (s t u : string) : (s +:+ t) +:+ u = s +:+ (t +:+ u).
Proof. induction s as [|c s IH]; simpl; congruence. Qed.

Lemma length_append (s t : string) :
  String.length (s +:+ t) = String.length s + String.length t.
Proof. induction s as [|c s IH]; simpl; congruence. Qed.

(** Replacing a one-byte pattern works byte by byte. *)
Lemma ReplaceAll_byte_cons d s c new :
  ReplaceAll (String d s) (String c "") new
  = (if Ascii.eqb c d then new else String d "") +:+ ReplaceAll s (String c "") new.
Proof.
  unfold ReplaceAll. cbn [replaceFrom HasPrefix String.length Nat.sub].
  destruct (Ascii.eqb c d); simpl; [|done].
  by destruct s.
Qed.

Lemma ReplaceAll_byte_app s t c new :
  ReplaceAll (s +:+ t) (String c "") new
  = ReplaceAll s (String c "") new +:+ ReplaceAll t (String c "") new.
Proof.
  induction s as [|d s IH]; [done|].
  cbn [String.append]. rewrite !ReplaceAll_byte_cons, IH. by rewrite append_assoc.
Qed.


Lemma withoutSeparators_cons d s :
  withoutSeparators (String d s)
  = (if trimHyphenOrUnderscore d then "" else String d "") +:+ withoutSeparators s.
Proof.
  unfold withoutSeparators, trimHyphenOrUnderscore.
  rewrite ReplaceAll_byte_cons, ReplaceAll_byte_app.
  rewrite (Ascii.eqb_sym d "-"), (Ascii.eqb_sym d "_").
  destruct (Ascii.eqb_spec "-" d) as [<-|Hd]; [done|].
  rewrite ReplaceAll_byte_cons. cbn [ReplaceAll replaceFrom].
  destruct (Ascii.eqb "_" d); by rewrite append_nil_r.
Qed.

Lemma withoutSeparators_app s t :
  withoutSeparators (s +:+ t) = withoutSeparators s +:+ withoutSeparators t.
Proof.
  unfold withoutSeparators. by rewrite !ReplaceAll_byte_app.
Qed.

(** Whatever a separator is replaced with, as long as the replacement is
    made of separators, the letters stay. *)
Lemma withoutSeparators_ReplaceAll s c new :
  trimHyphenOrUnderscore c = true -> withoutSeparators new = "" ->
  withoutSeparators (ReplaceAll s (String c "") new) = withoutSeparators s.
Proof.
  intros Hc Hnew. induction s as [|d s IH]; [done|].
  rewrite ReplaceAll_byte_cons, withoutSeparators_app, IH, withoutSeparators_cons.
  destruct (Ascii.eqb_spec c d) as [<-|Hd].
  - by rewrite Hc, Hnew.
  - rewrite withoutSeparators_cons. change (withoutSeparators "") with "".
    by rewrite append_nil_r.
Qed.

(** *** The separator normalizer *)

(** X1: the separator normalizer keeps every field and adds, for a field
    with a hyphen, the variant with underscores and the variant without
    separator, and likewise for a field with an underscore; "a-b" and
    "a_b" yield each other and "ab". *)
Theorem normalizeAllSeparators_variants :
  normalizeAllSeparators ["a-b"] = ["a-b"; "a_b"; "ab"] ∧
  normalizeAllSeparators ["a_b"] = ["a_b"; "a-b"; "ab"] ∧
  normalizeAllSeparators ["a-b_c"] = ["a-b_c"; "a_b_c"; "ab_c"; "a-b-c"; "a-bc"] ∧
  (∀ fields field, field ∈ fields ->
     field ∈ normalizeAllSeparators fields ∧
     (Contains field "-" = true ->
        ReplaceAll field "-" "_" ∈ normalizeAllSeparators fields ∧
        ReplaceAll field "-" "" ∈ normalizeAllSeparators fields) ∧
     (Contains field "_" = true ->
        ReplaceAll field "_" "-" ∈ normalizeAllSeparators fields ∧
        ReplaceAll field "_" "" ∈ normalizeAllSeparators fields)).
Proof.
  split; [reflexivity|]. split; [reflexivity|]. split; [reflexivity|].
  intros fields field Hin.
  assert (∀ x, x ∈ normalizeSeparators field -> x ∈ normalizeAllSeparators fields)
    as Hvariant.
  { intros x Hx. apply elem_of_normalizeAllSeparators. by exists field. }
  split; [apply Hvariant, normalizeSeparators_self|].
  split; intros Hc; split; apply Hvariant; unfold normalizeSeparators;
    rewrite Hc; rewrite !elem_of_app, !elem_of_cons; auto 10.
Qed.

(** X1 (witness): the variants of "jenkins-ci" in a list of two fields. *)
Lemma normalizeAllSeparators_variants_witness :
  "jenkins-ci" ∈ ["jenkins-ci"; "x"] ∧
  Contains "jenkins-ci" "-" = true ∧
  "jenkins_ci" ∈ normalizeAllSeparators ["jenkins-ci"; "x"] ∧
  "jenkinsci" ∈ normalizeAllSeparators ["jenkins-ci"; "x"].
Proof.
  assert ("jenkins-ci" ∈ ["jenkins-ci"; "x"]) as Hin by (apply elem_of_cons; by left).
  destruct normalizeAllSeparators_variants as (_ & _ & _ & Hall).
  destruct (Hall ["jenkins-ci"; "x"] "jenkins-ci" Hin) as (_ & Hhyphen & _).
  split; [exact Hin|]. split; [reflexivity|]. exact (Hhyphen eq_refl).
Defined.

Lemma normalizeSeparators_withoutSeparators field x :
  x ∈ normalizeSeparators field -> withoutSeparators x = withoutSeparators field.
Proof.
  unfold normalizeSeparators. rewrite !elem_of_app, list_elem_of_singleton.
  intros [->|[Hx|Hx]]; [done| |].
  - destruct (Contains field "-"); [|by apply elem_of_nil in Hx].
    apply elem_of_cons in Hx as [->|Hx%list_elem_of_singleton]; [|subst x];
      by apply withoutSeparators_ReplaceAll.
  - destruct (Contains field "_"); [|by apply elem_of_nil in Hx].
    apply elem_of_cons in Hx as [->|Hx%list_elem_of_singleton]; [|subst x];
      by apply withoutSeparators_ReplaceAll.
Qed.

Lemma normalizeSeparators_length field :
  1 <= length (normalizeSeparators field) <= 5.
Proof.
  unfold normalizeSeparators. rewrite !length_app.
  destruct (Contains field "-"), (Contains field "_"); simpl; lia.
Qed.

Lemma normalizeAllSeparators_app fields1 fields2 :
  normalizeAllSeparators (fields1 ++ fields2)
  = normalizeAllSeparators fields1 ++ normalizeAllSeparators fields2.
Proof.
  induction fields1 as [|f l IH]; [done|].
  cbn [normalizeAllSeparators app]. by rewrite IH, app_assoc.
Qed.

(** X2: the separator normalizer touches separators only.  Every candidate
    it returns has, once hyphens and underscores are taken out, the same
    bytes as the field it comes from; it returns between one and five
    candidates for a field; a list of fields without hyphen and underscore
    is returned as it is; and the normalizer works field by field: the
    result for two lists put together is the two results put together. *)
Theorem normalizeAllSeparators_keeps_letters fields :
  (∀ x, x ∈ normalizeAllSeparators fields ->
     ∃ field, field ∈ fields ∧ withoutSeparators x = withoutSeparators field) ∧
  length fields <= length (normalizeAllSeparators fields) <= 5 * length fields ∧
  ((∀ field, field ∈ fields ->
      Contains field "-" = false ∧ Contains field "_" = false) ->
   normalizeAllSeparators fields = fields) ∧
  (∀ more, normalizeAllSeparators (fields ++ more)
           = normalizeAllSeparators fields ++ normalizeAllSeparators more).
Proof.
  split_and!.
  - intros x (field & Hin & Hx)%elem_of_normalizeAllSeparators.
    exists field. split; [done|]. by apply normalizeSeparators_withoutSeparators.
  - induction fields as [|f l IH]; [simpl; lia|].
    cbn [normalizeAllSeparators]. rewrite length_app. simpl.
    pose proof (normalizeSeparators_length f). lia.
  - induction fields as [|f l IH]; [simpl; lia|].
    cbn [normalizeAllSeparators]. rewrite length_app.
    pose proof (normalizeSeparators_length f). cbn [length]. lia.
  - induction fields as [|f l IH]; intros Hfree; [done|].
    cbn [normalizeAllSeparators]. rewrite IH.
    + destruct (Hfree f) as [H1 H2]; [apply elem_of_cons; by left|].
      unfold normalizeSeparators. by rewrite H1, H2.
    + intros field Hin. apply Hfree, elem_of_cons. by right.
  - intros more. apply normalizeAllSeparators_app.
Qed.

(** *** Duplicate removal *)

Lemma filter_ne_absent (x : string) (l : list string) :
  x ∉ l -> filter (fun y => y <> x) l = l.
Proof.
  induction l as [|y l IH]; [done|].
  intros Hx. apply not_elem_of_cons in Hx as [Hne Hx].
  rewrite filter_cons_True by done. by rewrite IH.
Qed.

Lemma firstOccurrences_NoDup l : NoDup l -> firstOccurrences l = l.
Proof.
  induction 1 as [|x l Hx Hnd IH]; [done|].
  simpl. by rewrite IH, filter_ne_absent.
Qed.

Lemma firstOccurrences_sublist l : firstOccurrences l `sublist_of` l.
Proof.
  induction l as [|x l IH]; [done|]. simpl.
  apply sublist_skip. etrans; [apply sublist_filter|done].
Qed.

(** X3: duplicate removal returns the first occurrence of every value in the
    order of these occurrences.  The result has no duplicate and the same
    members as the input, it is a sub-list of the input, removing duplicates
    twice changes nothing, and a list without duplicates is returned as it
    is. *)
Theorem removeDuplicateValues_keeps_first_occurrences values :
  removeDuplicateValues values = firstOccurrences values ∧
  NoDup (removeDuplicateValues values) ∧
  (∀ x, x ∈ removeDuplicateValues values ↔ x ∈ values) ∧
  removeDuplicateValues values `sublist_of` values ∧
  removeDuplicateValues (removeDuplicateValues values) = removeDuplicateValues values ∧
  (NoDup values -> removeDuplicateValues values = values).
Proof.
  rewrite !removeDuplicateValues_firstOccurrences.
  split; [done|].
  split; [apply NoDup_firstOccurrences|].
  split; [intros x; apply elem_of_firstOccurrences|].
  split; [apply firstOccurrences_sublist|].
  split; [apply firstOccurrences_NoDup, NoDup_firstOccurrences|].
  apply firstOccurrences_NoDup.
Qed.

(** *** The filter loop *)

Lemma existsb_false_elem_of {A} (f : A -> bool) (l : list A) :
  existsb f l = false ↔ ∀ x, x ∈ l -> f x = false.
Proof.
  induction l as [|y l IH]; simpl.
  - split; [|done]. by intros _ x ?%elem_of_nil.
  - rewrite orb_false_iff, IH. setoid_rewrite elem_of_cons. naive_solver.
Qed.

(** X4: the filter loop keeps exactly the identifiers that no filter
    function accepts, in their order.  Without filter functions nothing is
    removed; filtering with two lists of filter functions at once is
    filtering with the first and then with the second; filtering twice with
    the same functions is filtering once. *)
Theorem filterCPEs_composition cpes p filters1 filters2 :
  filterCPEs cpes p [] = cpes ∧
  filterCPEs cpes p (filters1 ++ filters2)
  = filterCPEs (filterCPEs cpes p filters1) p filters2 ∧
  filterCPEs (filterCPEs cpes p filters1) p filters1 = filterCPEs cpes p filters1 ∧
  filterCPEs cpes p filters1 `sublist_of` cpes ∧
  (∀ c, c ∈ filterCPEs cpes p filters1
        ↔ c ∈ cpes ∧ ∀ fn : filterFn, fn ∈ filters1 -> fn c p = false).
Proof.
  rewrite !filterCPEs_filter. split_and!.
  - apply filter_all. done.
  - rewrite list_filter_filter. apply list_filter_iff. intros c.
    rewrite existsb_app, orb_false_iff. naive_solver.
  - rewrite list_filter_filter. apply list_filter_iff. intros c. naive_solver.
  - apply sublist_filter.
  - intros c. rewrite list_elem_of_filter, existsb_false_elem_of. naive_solver.
Qed.

(** *** The scanner and the expander on fields of segments *)

Lemma separator_free_String c t :
  trimHyphenOrUnderscore c = false ->
  Contains t "-" = false -> Contains t "_" = false ->
  Contains (String c t) "-" = false ∧ Contains (String c t) "_" = false.
Proof.
  unfold trimHyphenOrUnderscore. intros Hc H1 H2. cbn [Contains HasPrefix].
  rewrite H1, H2, !andb_true_r, !orb_false_r.
  rewrite (Ascii.eqb_sym "-" c), (Ascii.eqb_sym "_" c).
  destruct (Ascii.eqb c "-"); [done|]. by destruct (Ascii.eqb c "_").
Qed.

Lemma IndexAny_separator data i :
  IndexAny data "-_" = Some i ->
  ∃ body sep rest,
    data = body +:+ String sep rest ∧ String.length body = i ∧
    Contains body "-" = false ∧ Contains body "_" = false ∧
    trimHyphenOrUnderscore sep = true.
Proof.
  revert i. induction data as [|c d IH]; intros i; [done|].
  cbn [IndexAny]. rewrite byteIn_separators.
  destruct (trimHyphenOrUnderscore c) eqn:Hc.
  - intros [= <-]. by exists "", c, d.
  - destruct (IndexAny d "-_") as [k|]; [|done]. intros [= <-].
    destruct (IH k eq_refl) as (body & sep & rest & -> & <- & H1 & H2 & Hs).
    exists (String c body), sep, rest.
    destruct (separator_free_String c body Hc H1 H2). done.
Qed.

Lemma IndexAny_no_separator data :
  IndexAny data "-_" = None ->
  Contains data "-" = false ∧ Contains data "_" = false.
Proof.
  induction data as [|c d IH]; [done|].
  cbn [IndexAny]. rewrite byteIn_separators.
  destruct (trimHyphenOrUnderscore c) eqn:Hc; [done|].
  destruct (IndexAny d "-_"); [done|]. intros _.
  destruct IH as [H1 H2]; [done|]. by apply separator_free_String.
Qed.

Lemma takeBytes_app_length s t : takeBytes (String.length s) (s +:+ t) = s.
Proof.
  induction s as [|c s IH]; simpl; [by destruct t|]. by rewrite IH.
Qed.

Lemma dropBytes_app_length s t : dropBytes (String.length s) (s +:+ t) = t.
Proof. induction s as [|c s IH]; simpl; [by destruct t|]. done. Qed.

Lemma takeBytes_separator body sep rest :
  takeBytes (String.length body + 1) (body +:+ String sep rest)
  = body +:+ String sep "".
Proof.
  replace (String.length body + 1) with (String.length (body +:+ String sep ""))
    by (rewrite length_append; simpl; lia).
  rewrite <-(takeBytes_app_length (body +:+ String sep "") rest) at 2.
  rewrite append_assoc. done.
Qed.

Lemma dropBytes_separator body sep rest :
  dropBytes (String.length body + 1) (body +:+ String sep rest) = rest.
Proof.
  replace (String.length body + 1) with (String.length (body +:+ String sep ""))
    by (rewrite length_append; simpl; lia).
  rewrite <-(dropBytes_app_length (body +:+ String sep "") rest) at 2.
  rewrite append_assoc. done.
Qed.

(** One step of the scanner on a buffer with a separator, and on one
    without. *)
Lemma scanTokens_separator rounds body sep rest :
  Contains body "-" = false -> Contains body "_" = false ->
  trimHyphenOrUnderscore sep = true ->
  scanTokens (S rounds) (body +:+ String sep rest)
  = (body +:+ String sep "") :: scanTokens rounds rest.
Proof.
  intros H1 H2 Hs.
  assert (IndexAny (body +:+ String sep rest) "-_" = Some (String.length body)) as Hi.
  { clear -H1 H2 Hs. induction body as [|c b IH].
    - cbn [String.append IndexAny]. by rewrite byteIn_separators, Hs.
    - destruct (separator_free_cons _ _ H1 H2) as (Hc & H1' & H2').
      cbn [String.append IndexAny String.length].
      by rewrite byteIn_separators, Hc, IH. }
  cbn [scanTokens]. unfold scanHyphenOrUnderscore. rewrite Hi. cbn [andb].
  by rewrite takeBytes_separator, dropBytes_separator.
Qed.

Lemma scanTokens_segment rounds body :
  segment body -> scanTokens (S rounds) body = [body].
Proof.
  intros (Hne & H1 & H2). cbn [scanTokens]. unfold scanHyphenOrUnderscore.
  rewrite (IndexAny_separator_free body H1 H2). cbn [andb].
  destruct body as [|c b]; [done|]. cbn [String.length Nat.eqb].
  change (S (String.length b)) with (String.length (String c b)).
  by rewrite dropBytes_all, scanTokens_empty.
Qed.

Lemma scanTokens_separatedTexts rounds data : separatedTexts (scanTokens rounds data).
Proof.
  revert data. induction rounds as [|n IH]; intros data; [constructor|].
  destruct (IndexAny data "-_") as [i|] eqn:Hi.
  - apply IndexAny_separator in Hi as (body & sep & rest & -> & _ & H1 & H2 & Hs).
    rewrite scanTokens_separator by done. by constructor.
  - apply IndexAny_no_separator in Hi as [H1 H2].
    destruct data as [|c d]; [rewrite scanTokens_empty; constructor|].
    rewrite scanTokens_segment by done. by constructor.
Qed.

(** *** Fields made of segments *)

Lemma joinSegments_append a b more :
  joinSegments (a +:+ b) more = a +:+ joinSegments b more.
Proof.
  destruct more as [|[sep next] more]; [done|].
  cbn [joinSegments]. by rewrite append_assoc.
Qed.

Lemma joinSegments_cons prefix sep next more :
  joinSegments (prefix +:+ String sep next) more
  = joinSegments prefix ((sep, next) :: more).
Proof.
  cbn [joinSegments]. rewrite joinSegments_append. f_equal.
  change (String sep next) with (String sep "" +:+ next).
  by rewrite joinSegments_append.
Qed.

Lemma segmentPrefixes_nonempty prefix more : segmentPrefixes prefix more ≠ [].
Proof. by destruct more as [|[sep next] more]. Qed.

Lemma last_segmentPrefixes prefix more d :
  List.last (segmentPrefixes prefix more) d = joinSegments prefix more.
Proof.
  revert prefix. induction more as [|[sep next] more IH]; intros prefix; [done|].
  cbn [segmentPrefixes]. rewrite <-joinSegments_cons, <-IH.
  pose proof (segmentPrefixes_nonempty (prefix +:+ String sep next) more).
  simpl. by destruct (segmentPrefixes _ more).
Qed.


Lemma segmentPrefixes_snoc prefix more sep next :
  segmentPrefixes prefix (more ++ [(sep, next)])
  = segmentPrefixes prefix more ++ [joinSegments prefix more +:+ String sep next].
Proof.
  revert prefix. induction more as [|[sep' next'] more IH]; intros prefix; [done|].
  cbn [segmentPrefixes app]. rewrite IH. by rewrite joinSegments_cons.
Qed.

Lemma elem_of_segmentPrefixes prefix more r :
  r ∈ segmentPrefixes prefix more ↔ ∃ k, k <= length more ∧ r = joinSegments prefix (take k more).
Proof.
  revert prefix. induction more as [|[sep next] more IH]; intros prefix.
  - cbn [segmentPrefixes]. rewrite list_elem_of_singleton. split.
    + intros ->. by exists 0.
    + intros (k & _ & ->). by rewrite take_nil.
  - cbn [segmentPrefixes]. rewrite elem_of_cons, IH. split.
    + intros [->|(k & Hk & ->)]; [exists 0; split; [lia|done]|].
      exists (S k). split; [simpl; lia|]. by rewrite joinSegments_cons.
    + intros (k & Hk & ->). destruct k as [|k]; [by left|]. right.
      exists k. split; [simpl in Hk; lia|]. by rewrite joinSegments_cons.
Qed.

Lemma wellSeparated_take first more k :
  wellSeparated first more -> wellSeparated first (take k more).
Proof. intros [Hf Hm]. split; [done|]. by apply Forall_take. Qed.

Lemma joinSegments_nonempty first more : first ≠ "" -> joinSegments first more ≠ "".
Proof.
  intros Hne. destruct first as [|c f]; [done|].
  by destruct more as [|[sep next] more].
Qed.

Lemma trimRightFunc_app f a b :
  b ≠ "" -> trimRightFunc f b = b -> trimRightFunc f (a +:+ b) = a +:+ b.
Proof.
  intros Hne Hb. induction a as [|c a IH]; [done|].
  cbn [String.append trimRightFunc]. rewrite IH.
  destruct (a +:+ b) eqn:Hab; [|done].
  destruct a; [|done]. simpl in Hab. by subst b.
Qed.

Lemma trimRightFunc_joinSegments first more :
  wellSeparated first more ->
  trimRightFunc trimHyphenOrUnderscore (joinSegments first more)
  = joinSegments first more.
Proof.
  revert first. induction more as [|[sep next] more IH]; intros first [Hf Hm].
  - destruct Hf as (_ & H1 & H2). by apply trimRightFunc_separator_free.
  - apply Forall_cons in Hm as [[_ Hn] Hm]. cbn [joinSegments].
    change (String sep (joinSegments next more))
      with (String sep "" +:+ joinSegments next more).
    rewrite <-append_assoc. apply trimRightFunc_app.
    + apply joinSegments_nonempty, Hn.
    + by apply IH.
Qed.

Lemma TrimFunc_joinSegments first more :
  wellSeparated first more ->
  TrimFunc (joinSegments first more) trimHyphenOrUnderscore = joinSegments first more.
Proof.
  intros Hw. unfold TrimFunc.
  assert (trimLeftFunc trimHyphenOrUnderscore (joinSegments first more)
          = joinSegments first more) as ->.
  { destruct Hw as [(Hne & H1 & H2) _]. destruct first as [|c f]; [done|].
    destruct (separator_free_cons _ _ H1 H2) as (Hc & _).
    destruct more as [|[sep next] more]; simpl; by rewrite Hc. }
  by apply trimRightFunc_joinSegments.
Qed.

(** *** The loop of the expander *)

Lemma trimRightFunc_separator body sep :
  Contains body "-" = false -> Contains body "_" = false ->
  trimHyphenOrUnderscore sep = true ->
  trimRightFunc trimHyphenOrUnderscore (body +:+ String sep "") = body.
Proof.
  intros H1 H2 Hs. induction body as [|c b IH].
  - simpl. by rewrite Hs.
  - destruct (separator_free_cons _ _ H1 H2) as (Hc & H1' & H2').
    cbn [String.append trimRightFunc]. rewrite IH by done.
    destruct b; [by rewrite Hc|done].
Qed.

Lemma TrimFunc_separator body sep :
  Contains body "-" = false -> Contains body "_" = false ->
  trimHyphenOrUnderscore sep = true ->
  TrimFunc (body +:+ String sep "") trimHyphenOrUnderscore = body.
Proof.
  intros H1 H2 Hs. unfold TrimFunc. destruct body as [|c b].
  - simpl. by rewrite Hs.
  - destruct (separator_free_cons _ _ H1 H2) as (Hc & _).
    cbn [String.append trimLeftFunc]. rewrite Hc.
    by apply (trimRightFunc_separator (String c b)).
Qed.

Lemma lastByte_separator body sep : lastByte (body +:+ String sep "") = Some sep.
Proof.
  induction body as [|c b IH]; [done|].
  cbn [String.append lastByte]. rewrite IH. by destruct b.
Qed.

Lemma subSelectionLoop_step raw texts results lastToken lastToken' :
  raw ≠ "" -> lastByte raw = Some lastToken' ->
  subSelectionLoop (raw :: texts) results lastToken
  = subSelectionLoop texts
      (if decide (TrimFunc raw trimHyphenOrUnderscore = "") then results
       else if decide (results = []) then [TrimFunc raw trimHyphenOrUnderscore]
       else results ++ [List.last results "" +:+ String lastToken ""
                        +:+ TrimFunc raw trimHyphenOrUnderscore])
      lastToken'.
Proof.
  intros Hne Hlast. cbn [subSelectionLoop]. rewrite Hlast.
  destruct raw as [|c raw]; [done|]. cbn [String.length Nat.eqb default].
  f_equal. destruct (TrimFunc _ _) as [|d cand]; [done|].
  rewrite decide_False by done. cbn [String.length Nat.ltb Nat.leb].
  by destruct results.
Qed.

Lemma lastByte_nonempty s : s ≠ "" -> ∃ c, lastByte s = Some c.
Proof.
  induction s as [|c s IH]; [done|]. intros _. cbn [lastByte].
  destruct s as [|d s]; [by exists c|]. by apply IH.
Qed.


(** The loop on any texts of the scanner: the results are the prefixes of
    a field of segments. *)
Lemma subSelectionLoop_separatedTexts texts :
  separatedTexts texts ->
  ∀ results lastToken,
    (results = [] ∨
     trimHyphenOrUnderscore lastToken = true ∧
     ∃ first more, wellSeparated first more ∧ results = segmentPrefixes first more) ->
    subSelectionLoop texts results lastToken = [] ∨
    ∃ first more,
      wellSeparated first more ∧
      subSelectionLoop texts results lastToken = segmentPrefixes first more.
Proof.
  assert (∀ body results lastToken,
    segment body ->
    (results = [] ∨
     trimHyphenOrUnderscore lastToken = true ∧
     ∃ first more, wellSeparated first more ∧ results = segmentPrefixes first more) ->
    ∃ first more,
      wellSeparated first more ∧
      (if decide (results = []) then [body]
       else results ++ [List.last results "" +:+ String lastToken "" +:+ body])
      = segmentPrefixes first more) as Hadd.
  { intros body results lastToken Hb [->|(Hs & first & more & [Hf Hm] & ->)].
    - exists body, []. by split.
    - exists first, (more ++ [(lastToken, body)]). split.
      + split; [done|]. apply Forall_app. split; [done|]. by apply Forall_singleton.
      + rewrite decide_False by apply segmentPrefixes_nonempty.
        by rewrite segmentPrefixes_snoc, last_segmentPrefixes. }
  induction 1 as [|body Hb|body sep texts H1 H2 Hs Htexts IH]; intros results lastToken Hres.
  - destruct Hres as [->|(_ & first & more & Hw & ->)]; [by left|right; eauto].
  - destruct (lastByte_nonempty body (proj1 Hb)) as [c Hc].
    rewrite (subSelectionLoop_step _ _ _ _ c) by (done || apply Hb).
    destruct Hb as (Hne & Hb1 & Hb2).
    rewrite TrimFunc_separator_free by done. rewrite decide_False by done.
    right. by apply Hadd.
  - rewrite (subSelectionLoop_step _ _ _ _ sep);
      [|by destruct body|apply lastByte_separator].
    rewrite TrimFunc_separator by done.
    apply IH. destruct (decide (body = "")) as [->|Hne].
    + destruct Hres as [->|(_ & first & more & Hw & ->)]; [by left|right].
      split; [done|]. eauto.
    + right. split; [done|]. by apply Hadd.
Qed.


Lemma generateSubSelections_segmentPrefixes field :
  generateSubSelections field = [] ∨
  ∃ first more,
    wellSeparated first more ∧ generateSubSelections field = segmentPrefixes first more.
Proof.
  unfold generateSubSelections.
  apply subSelectionLoop_separatedTexts; [apply scanTokens_separatedTexts|by left].
Qed.

(** Every sub-selection is a field of segments. *)
Lemma generateSubSelections_elem field r :
  r ∈ generateSubSelections field ->
  ∃ first more, wellSeparated first more ∧ r = joinSegments first more.
Proof.
  destruct (generateSubSelections_segmentPrefixes field)
    as [->|(first & more & Hw & ->)]; [by intros ?%elem_of_nil|].
  intros (k & _ & ->)%elem_of_segmentPrefixes.
  exists first, (take k more). split; [by apply wellSeparated_take|done].
Qed.






Lemma segmentPrefixes_head prefix more d :
  List.hd d (segmentPrefixes prefix more) = prefix.
Proof. by destruct more as [|[sep next] more]. Qed.






(** *** The generation loops *)

Lemma foldl_bind {S X Y} (f : S -> Y -> S) (g : X -> list Y) (l : list X) (s : S) :
  foldl f s (l ≫= g) = foldl (fun s x => foldl f s (g x)) s l.
Proof.
  revert s. induction l as [|x l IH]; intros s; [done|].
  rewrite bind_cons, foldl_app. apply IH.
Qed.

Lemma foldl_ext_eq {S X} (f g : S -> X -> S) (l : list X) (s : S) :
  (∀ s x, f s x = g s x) -> foldl f s l = foldl g s l.
Proof.
  intros Hfg. revert s. induction l as [|x l IH]; intros s; simpl; [done|].
  by rewrite Hfg, IH.
Qed.

Lemma elem_of_combinations products vendors targetSws product vendor targetSw :
  (product, vendor, targetSw) ∈ combinations products vendors targetSws
  ↔ product ∈ products ∧ vendor ∈ vendors ∧ targetSw ∈ targetSws.
Proof.
  unfold combinations. rewrite list_elem_of_bind. split.
  - intros (pr & (v & (t & Ht%list_elem_of_singleton & Hin3)%list_elem_of_bind & Hin2)%list_elem_of_bind & Hin1).
    by injection Ht as -> -> ->.
  - intros (H1 & H2 & H3). exists product. split; [|done].
    apply list_elem_of_bind. exists vendor. split; [|done].
    apply list_elem_of_bind. exists targetSw. split; [|done].
    by apply list_elem_of_singleton.
Qed.

Lemma length_combinations products vendors targetSws :
  length (combinations products vendors targetSws)
  = length products * length vendors * length targetSws.
Proof.
  unfold combinations.
  assert (∀ vendor : string,
    length (targetSws ≫= fun targetSw => [(vendor, targetSw)]) = length targetSws) as H3.
  { intros vendor. induction targetSws as [|t l IH]; [done|].
    rewrite bind_cons. simpl. by rewrite IH. }
  assert (∀ product : string,
    length (vendors ≫= fun vendor =>
              targetSws ≫= fun targetSw => [(product, vendor, targetSw)])
    = length vendors * length targetSws) as H2.
  { intros product. induction vendors as [|v l IH]; [done|].
    rewrite bind_cons, length_app, IH. simpl. f_equal.
    clear. induction targetSws as [|t l IH]; [done|].
    rewrite bind_cons. simpl. by rewrite IH. }
  induction products as [|pr l IH]; [done|].
  rewrite bind_cons, length_app, IH, H2. simpl. lia.
Qed.

Lemma NoDup_combinations products vendors targetSws :
  NoDup products -> NoDup vendors -> NoDup targetSws ->
  NoDup (combinations products vendors targetSws).
Proof.
  intros H1 H2 H3. unfold combinations.
  apply NoDup_bind; [| |done].
  { intros x1 x2 [[pr v] t].
    intros _ _ (? & (? & ?%list_elem_of_singleton & _)%list_elem_of_bind & _)%list_elem_of_bind.
    intros (? & (? & ?%list_elem_of_singleton & _)%list_elem_of_bind & _)%list_elem_of_bind.
    congruence. }
  intros pr _. apply NoDup_bind; [| |done].
  { intros x1 x2 [[pr' v] t].
    intros _ _ (? & ?%list_elem_of_singleton & _)%list_elem_of_bind.
    intros (? & ?%list_elem_of_singleton & _)%list_elem_of_bind.
    congruence. }
  intros v _. apply NoDup_bind; [| |done].
  { intros x1 x2 [[pr' v'] t].
    intros _ _ ?%list_elem_of_singleton ?%list_elem_of_singleton. congruence. }
  intros. apply NoDup_singleton.
Qed.

(** The key of the duplicate check tells combinations apart when neither
    product nor vendor holds the bar that separates its parts. *)
Lemma append_bar_inj a b x y :
  Contains a "|" = false -> Contains b "|" = false ->
  a +:+ String "|" x = b +:+ String "|" y -> a = b ∧ x = y.
Proof.
  revert b. induction a as [|c a IH]; intros [|d b] Ha Hb; cbn [String.append].
  - by intros [= ->].
  - intros [= <- _]. apply Contains_cons_false in Hb as [Hb _]. done.
  - intros [= -> _]. apply Contains_cons_false in Ha as [Ha _]. done.
  - intros [= -> Heq].
    apply Contains_cons_false in Ha as [_ Ha], Hb as [_ Hb].
    destruct (IH b Ha Hb Heq) as [-> ->]. done.
Qed.

Lemma cpeKey_inj product vendor product' vendor' version targetSw targetSw' :
  Contains product "|" = false -> Contains vendor "|" = false ->
  Contains product' "|" = false -> Contains vendor' "|" = false ->
  cpeKey product vendor version targetSw = cpeKey product' vendor' version targetSw' ->
  product = product' ∧ vendor = vendor' ∧ targetSw = targetSw'.
Proof.
  intros Hp Hv Hp' Hv'. unfold cpeKey. cbn [String.append].
  intros [-> Heq]%append_bar_inj; [|done..].
  apply append_bar_inj in Heq as [-> Heq]; [|done..].
  by apply String.app_inj in Heq as [= ->].
Qed.

Section Generation.

Context {ext : Externals}.

Lemma generateLoops_combinations version products vendors targetSws :
  generateLoops version products vendors targetSws
  = foldl (addCombination version) (∅, [])
      (combinations products vendors (wfn_Any :: targetSws)).
Proof.
  unfold generateLoops, combinations. rewrite foldl_bind.
  apply foldl_ext_eq. intros st product. rewrite foldl_bind.
  apply foldl_ext_eq. intros st' vendor. rewrite foldl_bind.
  apply foldl_ext_eq. intros st'' targetSw. done.
Qed.

(** Every identifier in the slice comes from a combination visited. *)
Lemma foldl_addCombination_sound version l st c :
  c ∈ (foldl (addCombination version) st l).2 ->
  c ∈ st.2 ∨ ∃ combination, combination ∈ l ∧ c = combinationCPE version combination.
Proof.
  revert st. induction l as [|x l IH]; intros st; simpl; [by left|].
  intros [Hc|(y & Hy & ->)]%IH.
  - unfold addCombination, addCPE in Hc. destruct (decide _); [by left|].
    simpl in Hc. apply elem_of_app in Hc as [Hc| ->%list_elem_of_singleton]; [by left|].
    right. exists x. split; [apply elem_of_cons; by left|done].
  - right. exists y. split; [apply elem_of_cons; by right|done].
Qed.

Lemma foldl_addCombination_length version l st :
  length (foldl (addCombination version) st l).2 <= length st.2 + length l.
Proof.
  revert st. induction l as [|x l IH]; intros st; simpl; [lia|].
  etrans; [apply IH|]. unfold addCombination, addCPE.
  destruct (decide _); simpl; [lia|]. rewrite length_app. simpl. lia.
Qed.

(** With keys that tell the combinations apart, every combination adds
    its identifier. *)
Lemma foldl_addCombination_all version l st :
  NoDup ((fun c => cpeKey c.1.1 c.1.2 version c.2) <$> l) ->
  (∀ c, c ∈ l -> cpeKey c.1.1 c.1.2 version c.2 ∉ st.1) ->
  (foldl (addCombination version) st l).2 = st.2 ++ (combinationCPE version <$> l).
Proof.
  revert st. induction l as [|x l IH]; intros st Hnd Hfresh; simpl.
  { by rewrite app_nil_r. }
  rewrite fmap_cons in Hnd. apply NoDup_cons in Hnd as [Hx Hnd].
  assert (addCombination version st x
          = ({[cpeKey x.1.1 x.1.2 version x.2]} ∪ st.1,
             st.2 ++ [combinationCPE version x])) as ->.
  { unfold addCombination, addCPE. rewrite decide_False; [done|].
    apply Hfresh, elem_of_cons. by left. }
  rewrite IH; [|done|].
  - simpl. by rewrite <-app_assoc.
  - intros c Hc. simpl. apply not_elem_of_union. split.
    + rewrite elem_of_singleton. intros Heq. apply Hx.
      rewrite <-Heq. apply list_elem_of_fmap. by exists c.
    + apply Hfresh, elem_of_cons. by right.
Qed.

Lemma candidateTargetSoftwareAttrs_NoDup p : NoDup (candidateTargetSoftwareAttrs p).
Proof.
  unfold candidateTargetSoftwareAttrs, candidateTargetSoftwareAttrsForJava.
  destruct (PLanguage p); [constructor|destruct (decide _)|..];
    repeat (constructor; [set_solver|]); constructor.
Qed.


Lemma generatedCPEs_sound p c :
  c ∈ generatedCPEs p ->
  Product c ∈ candidateProducts p ∧ Vendor c ∈ candidateVendors p ∧
  TargetSW c ∈ wfn_Any :: candidateTargetSoftwareAttrs p ∧
  c = newCPE (Product c) (Vendor c) (Version p) (TargetSW c).
Proof.
  unfold generatedCPEs. rewrite generateLoops_combinations.
  intros [Hc|([[product vendor] targetSw] & Hin & ->)]%foldl_addCombination_sound.
  { by apply elem_of_nil in Hc. }
  apply elem_of_combinations in Hin as (H1 & H2 & H3). done.
Qed.

Lemma generatedCPEs_all p :
  (∀ x, x ∈ candidateProducts p ∨ x ∈ candidateVendors p -> Contains x "|" = false) ->
  wfn_Any ∉ candidateTargetSoftwareAttrs p ->
  generatedCPEs p
  = combinationCPE (Version p)
    <$> combinations (candidateProducts p) (candidateVendors p)
          (wfn_Any :: candidateTargetSoftwareAttrs p).
Proof.
  intros Hbar Hany. unfold generatedCPEs.
  rewrite generateLoops_combinations, foldl_addCombination_all; [done| |].
  - apply NoDup_fmap_2_strong.
    + intros [[p1 v1] t1] [[p2 v2] t2].
      intros (Hp1 & Hv1 & _)%elem_of_combinations (Hp2 & Hv2 & _)%elem_of_combinations.
      cbn [fst snd]. intros Hkey.
      apply cpeKey_inj in Hkey as (-> & -> & ->); auto.
    + apply NoDup_combinations.
      * apply NoDup_removeDuplicateValues.
      * apply NoDup_removeDuplicateValues.
      * apply NoDup_cons. split; [done|apply candidateTargetSoftwareAttrs_NoDup].
  - intros c _. simpl. apply not_elem_of_empty.
Qed.

Lemma generate_filtered_elem p c :
  candidateProducts p ≠ [] -> c ∈ filteredCPEs p -> c ∈ generatePackageCPEs p.
Proof. intros Hne Hc. by rewrite generate_perm_filtered. Qed.

End Generation.

Section GenerationTheorems.

Context {ext : Externals}.

(** X8: every identifier returned has a product candidate as product, a
    vendor candidate as vendor and the wildcard or a target software
    candidate as target software; it is what [newCPE] builds from them and
    the package version (part "a", all other attributes the wildcard); no
    filter function accepts it.  The number of identifiers is at most the
    number of products times the number of vendors times the number of
    target software candidates plus one. *)
Theorem generatePackageCPEs_provenance p :
  (∀ c, c ∈ generatePackageCPEs p ->
     Product c ∈ candidateProducts p ∧ Vendor c ∈ candidateVendors p ∧
     TargetSW c ∈ wfn_Any :: candidateTargetSoftwareAttrs p ∧
     c = newCPE (Product c) (Vendor c) (Version p) (TargetSW c) ∧
     ∀ fn : filterFn, fn ∈ cpeFilters -> fn c p = false) ∧
  length (generatePackageCPEs p)
  <= length (candidateProducts p) * length (candidateVendors p)
     * S (length (candidateTargetSoftwareAttrs p)).
Proof.
  split.
  - intros c Hc%generate_elem_filtered. unfold filteredCPEs in Hc.
    rewrite filterCPEs_filter in Hc. apply list_elem_of_filter in Hc as [Hf Hc].
    apply generatedCPEs_sound in Hc as (H1 & H2 & H3 & H4).
    split_and!; [done..|]. by apply existsb_false_elem_of.
  - unfold generatePackageCPEs.
    destruct (length (candidateProducts p) =? 0); [simpl; lia|].
    rewrite GoSortPerm.Sort_perm. unfold filteredCPEs. rewrite filterCPEs_filter.
    etrans; [apply length_filter|]. unfold generatedCPEs.
    rewrite generateLoops_combinations.
    etrans; [apply foldl_addCombination_length|].
    rewrite length_combinations. simpl. lia.
Qed.

(** X9: when no product and no vendor candidate holds the bar "|" that
    separates the parts of the duplicate key, and the wildcard is not among
    the target software candidates, the loops build one identifier for every
    combination of product, vendor and target software (the wildcard first),
    in the order of the loops; the result is a permutation of those that no
    filter function accepts, so every such combination is in the result. *)
Theorem generatePackageCPEs_all_combinations p :
  (∀ x, x ∈ candidateProducts p ∨ x ∈ candidateVendors p -> Contains x "|" = false) ->
  wfn_Any ∉ candidateTargetSoftwareAttrs p ->
  generatedCPEs p
  = combinationCPE (Version p)
    <$> combinations (candidateProducts p) (candidateVendors p)
          (wfn_Any :: candidateTargetSoftwareAttrs p) ∧
  (generatePackageCPEs p
   ≡ₚ filterCPEs
        (combinationCPE (Version p)
         <$> combinations (candidateProducts p) (candidateVendors p)
               (wfn_Any :: candidateTargetSoftwareAttrs p)) p cpeFilters) ∧
  (∀ product vendor targetSw,
     product ∈ candidateProducts p -> vendor ∈ candidateVendors p ->
     targetSw ∈ wfn_Any :: candidateTargetSoftwareAttrs p ->
     (∀ fn : filterFn, fn ∈ cpeFilters ->
        fn (newCPE product vendor (Version p) targetSw) p = false) ->
     newCPE product vendor (Version p) targetSw ∈ generatePackageCPEs p).
Proof.
  intros Hbar Hany. pose proof (generatedCPEs_all p Hbar Hany) as Hgen.
  assert (generatePackageCPEs p ≡ₚ filterCPEs (generatedCPEs p) p cpeFilters) as Hperm.
  { destruct (candidateProducts p) as [|x l] eqn:Hp.
    - unfold generatePackageCPEs. rewrite Hp, Hgen. done.
    - apply generate_perm_filtered. by rewrite Hp. }
  split; [done|]. split; [by rewrite <-Hgen|].
  intros product vendor targetSw H1 H2 H3 Hf.
  rewrite Hperm, filterCPEs_filter. apply list_elem_of_filter.
  split; [by apply existsb_false_elem_of|].
  rewrite Hgen. apply list_elem_of_fmap. exists (product, vendor, targetSw).
  split; [done|]. by apply elem_of_combinations.
Qed.

End GenerationTheorems.

(** X9 (witness): the gem "acme-widget" and the combination of the product
    "acme_widget", the vendor "acme" and the target software "rails". *)
Lemma generatePackageCPEs_all_combinations_witness :
  let p := plainPackage "acme-widget" "1.0" Ruby GemPkg in
  (∀ x, x ∈ candidateProducts (ext:=upstream) p ∨ x ∈ candidateVendors (ext:=upstream) p ->
     Contains x "|" = false) ∧
  (wfn_Any (Externals:=upstream) ∉ candidateTargetSoftwareAttrs p) ∧
  newCPE (ext:=upstream) "acme_widget" "acme" "1.0" "rails"
  ∈ generatePackageCPEs (ext:=upstream) p.
Proof.
  cbv zeta.
  assert (candidateProducts (ext:=upstream) (plainPackage "acme-widget" "1.0" Ruby GemPkg)
          = ["acme-widget"; "acme_widget"; "acmewidget"]) as Hp
    by (vm_compute; reflexivity).
  assert (candidateVendors (ext:=upstream) (plainPackage "acme-widget" "1.0" Ruby GemPkg)
          = ["acme"; "acme-widget"; "acme_widget"; "acmewidget"]) as Hv
    by (vm_compute; reflexivity).
  assert (∀ x, x ∈ candidateProducts (ext:=upstream)
                     (plainPackage "acme-widget" "1.0" Ruby GemPkg)
               ∨ x ∈ candidateVendors (ext:=upstream)
                       (plainPackage "acme-widget" "1.0" Ruby GemPkg) ->
               Contains x "|" = false) as Hbar.
  { rewrite Hp, Hv. intros x [Hx|Hx];
      repeat (apply elem_of_cons in Hx as [->|Hx]; [reflexivity|]);
      by apply elem_of_nil in Hx. }
  assert (wfn_Any (Externals:=upstream)
          ∉ candidateTargetSoftwareAttrs (plainPackage "acme-widget" "1.0" Ruby GemPkg))
    as Hany.
  { simpl. intros Hx.
    repeat (apply elem_of_cons in Hx as [Hx|Hx]; [discriminate Hx|]).
    by apply elem_of_nil in Hx. }
  split; [exact Hbar|]. split; [exact Hany|].
  destruct (generatePackageCPEs_all_combinations (ext:=upstream) _ Hbar Hany)
    as (_ & _ & Hall).
  apply Hall.
  - rewrite Hp. apply elem_of_cons. right. apply elem_of_cons. by left.
  - rewrite Hv. apply elem_of_cons. by left.
  - simpl. do 2 (apply elem_of_cons; right). apply elem_of_cons. by left.
  - intros fn Hfn. simpl in Hfn.
    repeat (apply elem_of_cons in Hfn as [->|Hfn]; [reflexivity|]).
    by apply elem_of_nil in Hfn.
Defined.

(** X10: the duplicate key joins product, vendor, version and target
    software with bars and does not escape them: a combination whose key
    equals the key of a combination added before leaves the state of the
    loops as it is.  The products "a|a" and "a" with the vendors "a" and
    "a|a" have the same key; so for the Java archive "a" with the group
    identifier "org.v.a|a" the identifier with product "a" and vendor "a|a"
    is returned and the one with product "a|a" and vendor "a" is not,
    although both are candidates and no filter function accepts it. *)
Theorem duplicate_key_drops_combination :
  (∀ (ext : Externals) version product vendor targetSw product' vendor' targetSw' st,
     cpeKey product' vendor' version targetSw' = cpeKey product vendor version targetSw ->
     addCPE version product' vendor' targetSw' (addCPE version product vendor targetSw st)
     = addCPE version product vendor targetSw st) ∧
  (∀ version targetSw,
     cpeKey "a|a" "a" version targetSw = cpeKey "a" "a|a" version targetSw) ∧
  let p := javaPackage "a" "1.0" "org.v.a|a" JavaPkg in
  candidateProducts (ext:=upstream) p = ["a"; "a|a"] ∧
  candidateVendors (ext:=upstream) p = ["a"; "a|a"; "v"] ∧
  (∀ fn : filterFn, fn ∈ cpeFilters (ext:=upstream) ->
     fn (newCPE (ext:=upstream) "a|a" "a" "1.0" "java") p = false) ∧
  newCPE (ext:=upstream) "a" "a|a" "1.0" "java" ∈ generatePackageCPEs (ext:=upstream) p ∧
  newCPE (ext:=upstream) "a|a" "a" "1.0" "java" ∉ generatePackageCPEs (ext:=upstream) p.
Proof.
  split; [|split; [done|]].
  - intros ext version product vendor targetSw product' vendor' targetSw' st Hkey.
    unfold addCPE at 1. rewrite Hkey. rewrite decide_True; [done|].
    unfold addCPE. destruct (decide _); [done|]. simpl. set_solver.
  - cbv zeta. split; [vm_compute; reflexivity|]. split; [vm_compute; reflexivity|].
    split.
    { intros fn Hfn. simpl in Hfn.
      repeat (apply elem_of_cons in Hfn as [->|Hfn]; [reflexivity|]).
      by apply elem_of_nil in Hfn. }
    split.
    + compute_done.
    + compute_done.
Qed.

(** *** Module paths of plain elements *)

Lemma plainByte_spec c :
  plainByte c = true ->
  (nat_of_ascii c <? 32) = false ∧ (nat_of_ascii c =? 127) = false ∧
  Ascii.eqb c "#" = false ∧ Ascii.eqb c "?" = false ∧ Ascii.eqb c "/" = false ∧
  Ascii.eqb c "@" = false ∧ Ascii.eqb c ":" = false ∧ Ascii.eqb c "[" = false ∧
  Ascii.eqb c "%" = false ∧ shouldEscape c encodeHost = false.
Proof.
  destruct c as [[] [] [] [] [] [] [] []]; vm_compute; intros H;
    first [discriminate H | repeat split].
Qed.

Lemma pathByte_spec c :
  plainByte c || Ascii.eqb c "/" = true ->
  (nat_of_ascii c <? 32) = false ∧ (nat_of_ascii c =? 127) = false ∧
  Ascii.eqb c "#" = false ∧ Ascii.eqb c "?" = false ∧ Ascii.eqb c "%" = false.
Proof.
  destruct c as [[] [] [] [] [] [] [] []]; vm_compute; intros H;
    first [discriminate H | repeat split].
Qed.

Lemma plain_plainPath s : plain s = true -> plainPath s = true.
Proof.
  induction s as [|c s IH]; [done|]. cbn [plain plainPath].
  intros [Hc Hs]%andb_true_iff. by rewrite Hc, IH.
Qed.

Lemma plainPath_app s t :
  plainPath (s +:+ t) = plainPath s && plainPath t.
Proof.
  induction s as [|c s IH]; [done|]. cbn [String.append plainPath].
  by rewrite IH, andb_assoc.
Qed.

Lemma plainPath_no_CTL s : plainPath s = true -> stringContainsCTLByte s = false.
Proof.
  induction s as [|c s IH]; [done|]. cbn [plainPath stringContainsCTLByte].
  intros [Hc Hs]%andb_true_iff.
  destruct (pathByte_spec c Hc) as (-> & -> & _). by rewrite IH.
Qed.

Lemma IndexByte_absent s c :
  (∀ d, byteIn d s = true -> Ascii.eqb d c = false) -> IndexByte s c = None.
Proof.
  induction s as [|d s IH]; intros Hc; [done|].
  rewrite IndexByte_cons_ne.
  - rewrite IH; [done|]. intros e He. apply Hc. cbn [byteIn]. by rewrite He, orb_true_r.
  - apply Hc. cbn [byteIn]. by rewrite Ascii.eqb_refl.
Qed.

Lemma byteIn_plainPath s d :
  plainPath s = true -> byteIn d s = true -> plainByte d || Ascii.eqb d "/" = true.
Proof.
  induction s as [|c s IH]; [done|]. cbn [plainPath byteIn].
  intros [Hc Hs]%andb_true_iff [Hd|Hd]%orb_true_iff; [|by apply IH].
  by apply Ascii.eqb_eq in Hd as ->.
Qed.

Lemma byteIn_plain s d : plain s = true -> byteIn d s = true -> plainByte d = true.
Proof.
  induction s as [|c s IH]; [done|]. cbn [plain byteIn].
  intros [Hc Hs]%andb_true_iff [Hd|Hd]%orb_true_iff; [|by apply IH].
  by apply Ascii.eqb_eq in Hd as ->.
Qed.

Lemma split_absent s c cutc : IndexByte s c = None -> split s c cutc = (s, "").
Proof. intros H. unfold split. by rewrite H. Qed.

Lemma countByte_absent s c :
  (∀ d, byteIn d s = true -> Ascii.eqb d c = false) -> countByte s c = 0.
Proof.
  induction s as [|d s IH]; intros Hc; [done|]. cbn [countByte].
  rewrite (Hc d) by (cbn [byteIn]; by rewrite Ascii.eqb_refl).
  rewrite IH; [done|]. intros e He. apply Hc. cbn [byteIn]. by rewrite He, orb_true_r.
Qed.

Lemma LastIndexByte_absent s c :
  (∀ d, byteIn d s = true -> Ascii.eqb d c = false) -> LastIndexByte s c = None.
Proof.
  induction s as [|d s IH]; intros Hc; [done|]. cbn [LastIndexByte].
  rewrite IH by (intros e He; apply Hc; cbn [byteIn]; by rewrite He, orb_true_r).
  by rewrite (Hc d) by (cbn [byteIn]; by rewrite Ascii.eqb_refl).
Qed.

Lemma IndexByte_slash host rest :
  plain host = true ->
  IndexByte (host +:+ String "/" rest) "/" = Some (String.length host).
Proof.
  induction host as [|c h IH]; [done|]. cbn [plain String.append String.length].
  intros [Hc Hh]%andb_true_iff.
  rewrite IndexByte_cons_ne by apply (plainByte_spec c Hc).
  by rewrite IH.
Qed.

Lemma unescape_host host : plain host = true -> unescape host encodeHost = Some host.
Proof.
  induction host as [|c h IH]; [done|]. cbn [plain].
  intros [Hc Hh]%andb_true_iff. cbn [unescape].
  destruct (plainByte_spec c Hc) as (_ & _ & _ & _ & _ & _ & _ & _ & -> & ->).
  rewrite andb_false_r, IH by done. cbn [encoding_eqb andb].
  by rewrite andb_false_r.
Qed.

Lemma unescape_path s : plainPath s = true -> unescape s encodePath = Some s.
Proof.
  induction s as [|c s IH]; [done|]. cbn [plainPath].
  intros [Hc Hs]%andb_true_iff. cbn [unescape].
  destruct (pathByte_spec c Hc) as (_ & _ & _ & _ & ->).
  cbn [encoding_eqb orb andb]. rewrite IH by done. by rewrite andb_false_r.
Qed.

Lemma parseHost_plain host : plain host = true -> parseHost host = Some host.
Proof.
  intros Hh. unfold parseHost.
  assert (HasPrefix host "[" = false) as ->.
  { destruct host as [|c h]; [done|]. cbn [plain] in Hh.
    apply andb_true_iff in Hh as [Hc _]. cbn [HasPrefix].
    rewrite Ascii.eqb_sym. destruct (plainByte_spec c Hc) as (_&_&_&_&_&_&_& -> &_). done. }
  rewrite LastIndexByte_absent; [by apply unescape_host|].
  intros d Hd. apply (plainByte_spec d). by eapply byteIn_plain.
Qed.

Lemma parseAuthority_plain host : plain host = true -> parseAuthority host = Some host.
Proof.
  intros Hh. unfold parseAuthority.
  rewrite LastIndexByte_absent; [by apply parseHost_plain|].
  intros d Hd. apply (plainByte_spec d). by eapply byteIn_plain.
Qed.

(** [url.Parse] on a plain host followed by a path of plain elements. *)
Lemma Parse_http_plain host path :
  plain host = true -> plainPath path = true ->
  Parse ("http://" +:+ host +:+ String "/" path)
  = Some (mkURL "http" "" host (String "/" path) "" "").
Proof.
  intros Hh Hp.
  assert (plainPath (host +:+ String "/" path) = true) as Hn.
  { rewrite plainPath_app, plain_plainPath by done. cbn [plainPath andb].
    by rewrite orb_true_r. }
  assert (∀ c, (c = "#" ∨ c = "?")%char ->
               ∀ d, byteIn d (host +:+ String "/" path) = true -> Ascii.eqb d c = false)
    as Habsent.
  { intros c Hc d Hd. pose proof (byteIn_plainPath _ _ Hn Hd) as Hb.
    destruct (pathByte_spec d Hb) as (_ & _ & H1 & H2 & _). by destruct Hc as [->| ->]. }
  change ("http://" +:+ host +:+ String "/" path)
    with ("http://" +:+ (host +:+ String "/" path)).
  rewrite Parse_http.
  rewrite split_absent by (apply IndexByte_absent, Habsent; by left).
  cbn [fst snd String.eqb]. unfold parseAfterHTTP.
  rewrite plainPath_no_CTL by done.
  rewrite countByte_absent by (apply Habsent; by right).
  cbn [Nat.eqb]. rewrite andb_false_r.
  rewrite split_absent by (apply IndexByte_absent, Habsent; by right).
  unfold split. rewrite IndexByte_slash by done.
  rewrite takeBytes_app_length, dropBytes_app_length.
  rewrite parseAuthority_plain by done.
  rewrite unescape_path; [done|]. cbn [plainPath]. by rewrite orb_true_r.
Qed.

Lemma trimRightFunc_none f s :
  (∀ d, byteIn d s = true -> f d = false) -> trimRightFunc f s = s.
Proof.
  induction s as [|c s IH]; intros Hf; [done|]. cbn [trimRightFunc].
  rewrite IH by (intros e He; apply Hf; cbn [byteIn]; by rewrite He, orb_true_r).
  destruct s; [|done].
  by rewrite (Hf c) by (cbn [byteIn]; by rewrite Ascii.eqb_refl).
Qed.

Lemma concat_slash_cons x y l :
  String.concat "/" (x :: y :: l) = x +:+ String "/" (String.concat "/" (y :: l)).
Proof. done. Qed.

Lemma plainPath_concat l :
  Forall (fun e => e ≠ "" ∧ plain e = true) l -> plainPath (String.concat "/" l) = true.
Proof.
  induction 1 as [|x l [_ Hx] Hl IH]; [done|].
  destruct l as [|y l]; [by apply plain_plainPath|].
  rewrite concat_slash_cons, plainPath_app, plain_plainPath by done.
  cbn [plainPath andb]. by rewrite orb_true_r.
Qed.

Lemma concat_slash_nonempty x l : x ≠ "" -> String.concat "/" (x :: l) ≠ "".
Proof.
  intros Hx. destruct l as [|y l]; [done|]. rewrite concat_slash_cons.
  by destruct x.
Qed.

Lemma byteIn_slash_plain e d :
  plain e = true -> byteIn d e = true -> byteIn d "/" = false.
Proof.
  intros He Hd. cbn [byteIn]. rewrite orb_false_r.
  apply (plainByte_spec d). by eapply byteIn_plain.
Qed.

Lemma Trim_path first rest :
  Forall (fun e => e ≠ "" ∧ plain e = true) (first :: rest) ->
  Trim (String "/" (String.concat "/" (first :: rest))) "/"
  = String.concat "/" (first :: rest).
Proof.
  intros Hall. unfold Trim, TrimFunc.
  set (f := fun c => byteIn c "/").
  assert (trimLeftFunc f (String.concat "/" (first :: rest))
          = String.concat "/" (first :: rest)) as Hleft.
  { apply Forall_cons in Hall as [[Hne Hf] _].
    destruct first as [|c first']; [done|].
    assert (f c = false) as Hc.
    { apply (byteIn_slash_plain (String c first')); [done|].
      cbn [byteIn]. by rewrite Ascii.eqb_refl. }
    destruct rest as [|y l]; [|rewrite concat_slash_cons];
      cbn [String.concat String.append trimLeftFunc]; by rewrite Hc. }
  assert (trimLeftFunc f (String "/" (String.concat "/" (first :: rest)))
          = String.concat "/" (first :: rest)) as ->.
  { change (trimLeftFunc f (String "/" (String.concat "/" (first :: rest))))
      with (if f "/"%char then trimLeftFunc f (String.concat "/" (first :: rest))
            else String "/" (String.concat "/" (first :: rest))).
    replace (f "/"%char) with true by reflexivity. exact Hleft. }
  clear Hleft.
  revert first Hall. induction rest as [|y l IH]; intros first Hall.
  - apply Forall_cons in Hall as [[_ Hf] _]. cbn [String.concat].
    apply trimRightFunc_none. intros d Hd. by eapply byteIn_slash_plain.
  - apply Forall_cons in Hall as [_ Hall]. rewrite concat_slash_cons.
    change (String "/" (String.concat "/" (y :: l)))
      with ("/" +:+ String.concat "/" (y :: l)).
    rewrite <-append_assoc. apply trimRightFunc_app; [|by apply IH].
    apply concat_slash_nonempty. by apply Forall_cons in Hall as [[? _] _].
Qed.

Lemma splitFrom_plain e s cur :
  plain e = true -> splitFrom 0 (e +:+ s) "/" cur = splitFrom 0 s "/" (cur +:+ e).
Proof.
  revert cur. induction e as [|c e IH]; intros cur.
  - by rewrite append_nil_r.
  - cbn [plain]. intros [Hc He]%andb_true_iff.
    cbn [String.append splitFrom HasPrefix].
    rewrite Ascii.eqb_sym.
    destruct (plainByte_spec c Hc) as (_ & _ & _ & _ & -> & _). cbn [andb].
    rewrite IH by done. by rewrite append_assoc.
Qed.

Lemma Split_path first rest :
  Forall (fun e => e ≠ "" ∧ plain e = true) (first :: rest) ->
  Split (String.concat "/" (first :: rest)) "/" = first :: rest.
Proof.
  revert first. induction rest as [|y l IH]; intros first Hall;
    apply Forall_cons in Hall as [[_ Hf] Hall]; unfold Split.
  - cbn [String.concat]. rewrite <-(append_nil_r first) at 1.
    by rewrite splitFrom_plain.
  - rewrite concat_slash_cons, splitFrom_plain by done.
    cbn [splitFrom HasPrefix String.length Nat.sub String.append].
    rewrite Ascii.eqb_refl.
    cbn [andb]. f_equal. by apply IH.
Qed.

(** The two helpers on a host that is none of the three they know, with
    at least two path elements. *)
Lemma go_module_path_other_host host first second more :
  plain host = true ->
  Forall (fun e => e ≠ "" ∧ plain e = true) (first :: second :: more) ->
  host ∉ ["golang.org"; "gopkg.in"; "google.golang.org"] ->
  let name := host +:+ "/" +:+ String.concat "/" (first :: second :: more) in
  candidateProductForGo name = second ∧ candidateVendorForGo name = first.
Proof.
  intros Hh Hall Hother name.
  assert (String.eqb host "golang.org" = false
          ∧ String.eqb host "gopkg.in" = false
          ∧ String.eqb host "google.golang.org" = false) as (E1 & E2 & E3).
  { split_and!; apply String.eqb_neq; intros ->; apply Hother; set_solver. }
  assert (Parse ("http://" +:+ name)
          = Some (mkURL "http" "" host
                    (String "/" (String.concat "/" (first :: second :: more))) "" ""))
    as Hparse.
  { apply Parse_http_plain; [done|]. by apply plainPath_concat. }
  unfold candidateProductForGo, candidateVendorForGo. rewrite Hparse.
  cbn [Host Path]. rewrite Trim_path, Split_path by done.
  by rewrite E1, E2, E3.
Qed.

(** X11: a module path that consists of a host and one or more non-empty
    path elements, all made of letters, digits, "-", "_", "." and "~", is
    parsed without error into this host and this path.  The product is the
    whole path for the hosts "golang.org" and "gopkg.in", the first element
    for "google.golang.org", and the second element (none if there is only
    one) for any other host; the vendor is "google", "golang" and none for
    the three hosts, and the first element (none if there is only one) for
    any other host. *)
Theorem go_module_path_of_plain_elements host first rest :
  plain host = true ->
  Forall (fun e => e ≠ "" ∧ plain e = true) (first :: rest) ->
  let path := String.concat "/" (first :: rest) in
  let name := host +:+ "/" +:+ path in
  Parse ("http://" +:+ name) = Some (mkURL "http" "" host ("/" +:+ path) "" "") ∧
  candidateProductForGo name
  = (if String.eqb host "golang.org" || String.eqb host "gopkg.in" then path
     else if String.eqb host "google.golang.org" then first
     else match rest with [] => "" | second :: _ => second end) ∧
  candidateVendorForGo name
  = (if String.eqb host "google.golang.org" then "google"
     else if String.eqb host "golang.org" then "golang"
     else if String.eqb host "gopkg.in" then ""
     else match rest with [] => "" | _ :: _ => first end).
Proof.
  intros Hh Hall path name.
  assert (Parse ("http://" +:+ name)
          = Some (mkURL "http" "" host ("/" +:+ path) "" "")) as Hparse.
  { apply Parse_http_plain; [done|]. by apply plainPath_concat. }
  split; [exact Hparse|].
  unfold candidateProductForGo, candidateVendorForGo. rewrite Hparse.
  cbn [Host Path]. change ("/" +:+ path) with (String "/" path).
  unfold path. rewrite Trim_path, Split_path by done.
  split.
  - destruct (String.eqb host "golang.org" || String.eqb host "gopkg.in"); [done|].
    destruct (String.eqb host "google.golang.org"); [done|]. by destruct rest.
  - destruct (String.eqb host "google.golang.org"); [done|].
    destruct (String.eqb host "golang.org"); [done|].
    destruct (String.eqb host "gopkg.in"); [done|]. by destruct rest.
Qed.

(** X11 (witness): the module "github.com/anchore/syft/cmd". *)
Lemma go_module_path_of_plain_elements_witness :
  plain "github.com" = true ∧
  Forall (fun e => e ≠ "" ∧ plain e = true) ["anchore"; "syft"; "cmd"] ∧
  candidateProductForGo "github.com/anchore/syft/cmd" = "syft" ∧
  candidateVendorForGo "github.com/anchore/syft/cmd" = "anchore".
Proof.
  assert (Forall (fun e => e ≠ "" ∧ plain e = true) ["anchore"; "syft"; "cmd"]) as Hall
    by (repeat constructor; done).
  split; [reflexivity|]. split; [exact Hall|].
  destruct (go_module_path_of_plain_elements "github.com" "anchore" ["syft"; "cmd"]
              eq_refl Hall) as (_ & Hproduct & Hvendor).
  split; [exact Hproduct|exact Hvendor].
Defined.

(** X12: a module path that [url.Parse] rejects yields neither a product nor
    a vendor; this is the case whenever the path has a control byte (below
    32, or 127) before its first "#". *)
Theorem go_module_path_unparseable name :
  Parse ("http://" +:+ name) = None
  ∨ stringContainsCTLByte (split name "#" true).1 = true ->
  candidateProductForGo name = "" ∧ candidateVendorForGo name = "".
Proof.
  intros Herr.
  assert (Parse ("http://" +:+ name) = None) as Hnone.
  { destruct Herr as [Herr|Hctl]; [done|].
    rewrite Parse_http. unfold parseAfterHTTP. by rewrite Hctl. }
  unfold candidateProductForGo, candidateVendorForGo. by rewrite Hnone.
Qed.

(** X12 (witness): a space in the host, and a tabulator in front of the
    path. *)
Lemma go_module_path_unparseable_witness :
  Parse ("http://" +:+ "git hub.com/foo/bar") = None ∧
  (candidateProductForGo "git hub.com/foo/bar" = "" ∧
   candidateVendorForGo "git hub.com/foo/bar" = "") ∧
  stringContainsCTLByte
    (split (String (ascii_of_nat 9) "github.com/foo/bar") "#" true).1 = true ∧
  (candidateProductForGo (String (ascii_of_nat 9) "github.com/foo/bar") = "" ∧
   candidateVendorForGo (String (ascii_of_nat 9) "github.com/foo/bar") = "").
Proof.
  assert (Parse ("http://" +:+ "git hub.com/foo/bar") = None) as Herr
    by (vm_compute; reflexivity).
  assert (stringContainsCTLByte
            (split (String (ascii_of_nat 9) "github.com/foo/bar") "#" true).1 = true)
    as Hctl by (vm_compute; reflexivity).
  split; [exact Herr|].
  split; [exact (go_module_path_unparseable _ (or_introl Herr))|].
  split; [exact Hctl|].
  exact (go_module_path_unparseable _ (or_intror Hctl)).
Defined.

(** *** Candidates of a package *)

Section Candidates.

Context {ext : Externals}.

Lemma productAndVendor_rejectsGroupID p :
  productAndVendorFromPomPropertiesGroupID p
  = if rejectsGroupID (groupIDFromPomProperties p) then ("", "")
    else (default "" (Split (groupIDFromPomProperties p) "." !! 2),
          default "" (Split (groupIDFromPomProperties p) "." !! 1)).
Proof.
  unfold productAndVendorFromPomPropertiesGroupID, rejectsGroupID, shouldConsiderGroupID.
  destruct (String.eqb (groupIDFromPomProperties p) ""); [done|].
  cbn [app orb negb].
  destruct (HasAnyOfPrefixes _ (_ :: _)); [done|].
  cbn [orb negb].
  destruct (HasAnyOfPrefixes _ _); [|done].
  cbn [orb negb]. by destruct (_ <? 3).
Qed.

Lemma elem_of_candidateVendors p v :
  v ∈ candidateVendors p
  ↔ ∃ base variant,
      base ∈ baseVendors p ∧ variant ∈ normalizeSeparators base ∧
      v ∈ generateSubSelections variant.
Proof.
  unfold candidateVendors.
  rewrite elem_of_removeDuplicateValues, elem_of_generateAllSubSelections.
  setoid_rewrite elem_of_normalizeAllSeparators. naive_solver.
Qed.

(** X13: the vendor candidates have no duplicate; every one of them is
    non-empty, neither starts nor ends with a hyphen or an underscore, and
    is a sub-selection of a separator variant of a base vendor candidate;
    without base candidates there is no vendor candidate. *)
Theorem candidateVendors_well_formed p :
  NoDup (candidateVendors p) ∧
  (∀ v, v ∈ candidateVendors p ->
     v ≠ "" ∧ TrimFunc v trimHyphenOrUnderscore = v ∧
     ∃ base variant,
       base ∈ baseVendors p ∧ variant ∈ normalizeSeparators base ∧
       v ∈ generateSubSelections variant) ∧
  (baseVendors p = [] -> candidateVendors p = []).
Proof.
  split; [apply NoDup_removeDuplicateValues|]. split.
  - intros v Hv. pose proof Hv as (base & variant & Hb & Hn & Hs)%elem_of_candidateVendors.
    pose proof Hs as (first & more & Hw & ->)%generateSubSelections_elem.
    split_and!.
    + apply joinSegments_nonempty, Hw.
    + by apply TrimFunc_joinSegments.
    + eauto.
  - intros Hb. unfold candidateVendors. by rewrite Hb.
Qed.





End Candidates.


Section Java.

Context {ext : Externals}.

(** X15: the two helpers for Java return at most one candidate, which is
    never empty: the product and the vendor derived from the group
    identifier; for a Jenkins plugin no product whose lower-cased form is
    "jenkins".  A package whose metadata is not Java metadata with
    [pom.properties] (the pointer is nil, or the metadata is of another
    type) gets no candidate.  When a group identifier is accepted, its third
    field (if not empty, for a package with Java metadata that is not a
    Python package, and not "jenkins" for a Jenkins plugin) is a product
    candidate, and its second field (if not empty, for a Java package) is a
    base vendor candidate. *)
Theorem java_candidates_from_group_id p :
  (∀ x, x ∈ candidateProductsForJava p ->
     x ≠ "" ∧ candidateProductsForJava p = [x] ∧
     x = (productAndVendorFromPomPropertiesGroupID p).1 ∧
     (PType p = JenkinsPluginPkg -> ToLower x ≠ "jenkins")) ∧
  (∀ x, x ∈ candidateVendorsForJava p ->
     x ≠ "" ∧ candidateVendorsForJava p = [x] ∧
     x = (productAndVendorFromPomPropertiesGroupID p).2) ∧
  ((∀ pomProperties, PMetadata p ≠ JavaMetadata (Some pomProperties)) ->
     candidateProductsForJava p = [] ∧ candidateVendorsForJava p = []) ∧
  (∀ field1 field2 field3 more,
     rejectsGroupID (groupIDFromPomProperties p) = false ->
     Split (groupIDFromPomProperties p) "." = field1 :: field2 :: field3 :: more ->
     PMetadataType p = JavaMetadataType ->
     (field3 ≠ "" -> PLanguage p ≠ Python ->
      (PType p = JenkinsPluginPkg -> ToLower field3 ≠ "jenkins") ->
      field3 ∈ candidateProducts p) ∧
     (field2 ≠ "" -> PLanguage p = Java -> field2 ∈ baseVendors p)).
Proof.
  split_and!.
  - intros x. unfold candidateProductsForJava.
    destruct (String.eqb_spec (productAndVendorFromPomPropertiesGroupID p).1 "") as [|Hne];
      cbn [negb]; [by intros ?%elem_of_nil|].
    destruct (bool_decide (PType p = JenkinsPluginPkg)) eqn:Hj; cbn [andb].
    + destruct (String.eqb_spec (ToLower (productAndVendorFromPomPropertiesGroupID p).1)
                  "jenkins") as [|Hlow]; [by intros ?%elem_of_nil|].
      intros ->%list_elem_of_singleton. done.
    + intros ->%list_elem_of_singleton. split_and!; [done..|].
      intros Htype. by apply bool_decide_eq_false in Hj.
  - intros x. unfold candidateVendorsForJava.
    destruct (String.eqb_spec (productAndVendorFromPomPropertiesGroupID p).2 "") as [|Hne];
      cbn [negb]; [by intros ?%elem_of_nil|].
    intros ->%list_elem_of_singleton. done.
  - intros Hmeta.
    assert (groupIDFromPomProperties p = "") as Hgid.
    { unfold groupIDFromPomProperties. destruct (PMetadata p) as [|[pom|]|]; try done.
      by destruct (Hmeta pom). }
    unfold candidateProductsForJava, candidateVendorsForJava,
      productAndVendorFromPomPropertiesGroupID, shouldConsiderGroupID.
    rewrite Hgid. done.
  - intros field1 field2 field3 more Hrej Hsplit Hmeta.
    assert (productAndVendorFromPomPropertiesGroupID p = (field3, field2)) as Hpv.
    { by rewrite productAndVendor_rejectsGroupID, Hrej, Hsplit. }
    split.
    + intros Hne Hpy Hjenkins. apply elem_of_candidateProducts. right.
      exists field3. split; [|apply normalizeSeparators_self].
      unfold baseProducts. rewrite bool_decide_eq_false_2 by done.
      rewrite bool_decide_eq_true_2 by done.
      apply elem_of_app. right.
      unfold candidateProductsForJava. rewrite Hpv. cbn [fst].
      destruct (String.eqb_spec field3 "") as [|_]; [done|]. cbn [negb].
      destruct (bool_decide (PType p = JenkinsPluginPkg)) eqn:Hj; cbn [andb].
      * apply bool_decide_eq_true in Hj.
        destruct (String.eqb_spec (ToLower field3) "jenkins") as [Hlow|_].
        { by destruct (Hjenkins Hj). }
        by apply list_elem_of_singleton.
      * by apply list_elem_of_singleton.
    + intros Hne Hjava. unfold baseVendors. rewrite Hjava.
      rewrite bool_decide_eq_true_2 by done. apply elem_of_app. right.
      unfold candidateVendorsForJava. rewrite Hpv. cbn [snd].
      destruct (String.eqb_spec field2 "") as [|_]; [done|].
      by apply list_elem_of_singleton.
Qed.

End Java.

(** X15 (witness): the group identifier "org.apache.commons". *)
Lemma java_candidates_from_group_id_witness :
  let p := javaPackage "commons-lang3" "3.12.0" "org.apache.commons" JavaPkg in
  rejectsGroupID (ext:=upstream) (groupIDFromPomProperties p) = false ∧
  Split (groupIDFromPomProperties p) "." = ["org"; "apache"; "commons"] ∧
  "commons" ∈ candidateProducts (ext:=upstream) p ∧
  "apache" ∈ baseVendors (ext:=upstream) p.
Proof.
  cbv zeta.
  split; [reflexivity|]. split; [reflexivity|].
  destruct (java_candidates_from_group_id (ext:=upstream)
              (javaPackage "commons-lang3" "3.12.0" "org.apache.commons" JavaPkg))
    as (_ & _ & _ & Hflow).
  destruct (Hflow "org" "apache" "commons" [] eq_refl eq_refl eq_refl) as [Hp Hv].
  split.
  - apply Hp; [discriminate|discriminate|discriminate].
  - apply Hv; [discriminate|reflexivity].
Defined.

(** X16: the target software candidates of a package are at most two
    different names; none is empty or holds a bar, all are lower-case; there
    is none exactly for a language that the function does not know; and for
    a Java package they are "jenkins" and "cloudbees_jenkins" for a Jenkins
    plugin, "java" and "maven" otherwise. *)
Theorem candidateTargetSoftwareAttrs_named p :
  NoDup (candidateTargetSoftwareAttrs p) ∧
  length (candidateTargetSoftwareAttrs p) <= 2 ∧
  (∀ t, t ∈ candidateTargetSoftwareAttrs p ->
     t ≠ "" ∧ Contains t "|" = false ∧ ToLower t = t) ∧
  (candidateTargetSoftwareAttrs p = [] ↔ PLanguage p = UnknownLanguage) ∧
  (PLanguage p = Java ->
     ("jenkins" ∈ candidateTargetSoftwareAttrs p ↔ PType p = JenkinsPluginPkg) ∧
     ("java" ∈ candidateTargetSoftwareAttrs p ↔ PType p ≠ JenkinsPluginPkg)).
Proof.
  unfold candidateTargetSoftwareAttrs, candidateTargetSoftwareAttrsForJava.
  split_and!.
  - destruct (PLanguage p); [constructor|destruct (decide _)|..];
      repeat (constructor; [set_solver|]); constructor.
  - destruct (PLanguage p); [|destruct (decide _)|..]; simpl; lia.
  - intros t Ht.
    destruct (PLanguage p); [|destruct (decide _)|..];
      repeat (apply elem_of_cons in Ht as [->|Ht]; [done|]);
      by apply elem_of_nil in Ht.
  - destruct (PLanguage p); [|destruct (decide _)|..]; done.
  - intros ->. destruct (decide (PType p = JenkinsPluginPkg)) as [Hj|Hj].
    + split; split.
      * done.
      * intros _. apply elem_of_cons. by left.
      * intros Hin.
        repeat (apply elem_of_cons in Hin as [Hin|Hin]; [discriminate Hin|]).
        by apply elem_of_nil in Hin.
      * done.
    + split; split.
      * intros Hin.
        repeat (apply elem_of_cons in Hin as [Hin|Hin]; [discriminate Hin|]).
        by apply elem_of_nil in Hin.
      * done.
      * done.
      * intros _. apply elem_of_cons. by left.
Qed.


Section Filters.

Context {ext : Externals}.

Lemma cpeFilters_reject c p :
  existsb (fun fn : filterFn => fn c p) cpeFilters = true ->
  (Product c = "jira" ∧ Contains (ToLower (Name p)) "client" = true ∧
   (Vendor c = wfn_Any ∨ Vendor c = "jira" ∨ Vendor c = "atlassian")) ∨
  (Product c = "jenkins" ∧ Contains (ToLower (Name p)) "jenkins" = false ∧
   (Vendor c = wfn_Any ∨ Vendor c = "jenkins" ∨ Vendor c = "cloudbees")).
Proof.
  cbn [cpeFilters existsb]. rewrite orb_false_r.
  intros [H|H]%orb_true_iff; [left|right].
  - destruct (String.eqb_spec (Product c) "jira") as [Hp|]; [|done].
    destruct (Contains (ToLower (Name p)) "client"); [|done]. cbn [andb] in H.
    split_and!; [done..|].
    destruct (String.eqb_spec (Vendor c) wfn_Any); [by left|].
    destruct (String.eqb_spec (Vendor c) "jira"); [by right; left|].
    destruct (String.eqb_spec (Vendor c) "atlassian"); [by right; right|done].
  - destruct (String.eqb_spec (Product c) "jenkins") as [Hp|]; [|done].
    destruct (Contains (ToLower (Name p)) "jenkins"); [done|]. cbn [andb negb] in H.
    split_and!; [done..|].
    destruct (String.eqb_spec (Vendor c) wfn_Any); [by left|].
    destruct (String.eqb_spec (Vendor c) "jenkins"); [by right; left|].
    destruct (String.eqb_spec (Vendor c) "cloudbees"); [by right; right|done].
Qed.

Lemma cpeFilters_keep_name c p :
  Product c = Name p -> existsb (fun fn : filterFn => fn c p) cpeFilters = false.
Proof.
  intros Hp. destruct (existsb _ cpeFilters) eqn:He; [|done].
  apply cpeFilters_reject in He as [(H1 & H2 & _)|(H1 & H2 & _)];
    rewrite <-Hp, H1 in H2; discriminate H2.
Qed.

(** X17: a filter function accepts (removes) only identifiers with the
    product "jira" or "jenkins" and with the wildcard, "jira", "atlassian",
    "jenkins" or "cloudbees" as vendor, and never an identifier whose
    product is the package name. *)
Theorem cpeFilters_scope c p fn :
  fn ∈ cpeFilters -> fn c p = true ->
  (Product c = "jira" ∨ Product c = "jenkins") ∧
  Product c ≠ Name p ∧
  (Vendor c = wfn_Any ∨ Vendor c ∈ ["jira"; "atlassian"; "jenkins"; "cloudbees"]).
Proof.
  intros Hfn Hc.
  assert (existsb (fun fn : filterFn => fn c p) cpeFilters = true) as He.
  { apply not_false_iff_true. intros Hn.
    rewrite existsb_false_elem_of in Hn. rewrite (Hn fn Hfn) in Hc. done. }
  split_and!.
  - apply cpeFilters_reject in He as [(? & _)|(? & _)]; auto.
  - intros Hp. by rewrite (cpeFilters_keep_name c p Hp) in He.
  - apply cpeFilters_reject in He as [(_ & _ & [Hv|[Hv|Hv]])|(_ & _ & [Hv|[Hv|Hv]])];
      first [by left | right; rewrite Hv; set_solver].
Qed.

End Filters.

(** X17 (witness): the second filter function on the identifier (jenkins,
    cloudbees) of the Jenkins plugin "git-plugin". *)
Lemma cpeFilters_scope_witness :
  let fn := default (fun _ _ => false) (cpeFilters (ext:=upstream) !! 1) in
  let c := newCPE (ext:=upstream) "jenkins" "cloudbees" "2.0" "" in
  let p := plainPackage "git-plugin" "2.0" Java JenkinsPluginPkg in
  fn ∈ cpeFilters (ext:=upstream) ∧ fn c p = true ∧
  (Product c = "jira" ∨ Product c = "jenkins") ∧ Product c ≠ Name p.
Proof.
  cbv zeta.
  assert (default (fun _ _ => false) (cpeFilters (ext:=upstream) !! 1)
          ∈ cpeFilters (ext:=upstream)) as Hfn.
  { apply elem_of_cons. right. apply elem_of_cons. by left. }
  split; [exact Hfn|]. split; [reflexivity|].
  destruct (cpeFilters_scope (ext:=upstream)
              (newCPE (ext:=upstream) "jenkins" "cloudbees" "2.0" "")
              (plainPackage "git-plugin" "2.0" Java JenkinsPluginPkg) _ Hfn eq_refl)
    as (Hproduct & Hname & _).
  split; [exact Hproduct|exact Hname].
Defined.

Section PlainName.

Context {ext : Externals}.









End PlainName.


(** *** The override table and Go packages *)

Lemma getCandidates_allEntries (s : candidateStore) t key :
  getCandidates s t key = [] ∨ (t, key, getCandidates s t key) ∈ allEntries s.
Proof.
  unfold getCandidates, allEntries.
  destruct (s !! t) as [byName|] eqn:Ht; [|by left].
  destruct (byName !! key) as [value|] eqn:Hk; [|by left].
  right. apply list_elem_of_bind. exists (t, byName). split.
  - apply list_elem_of_fmap. exists (key, value). split; [done|].
    by apply elem_of_map_to_list.
  - by apply elem_of_map_to_list.
Qed.

Lemma allEntries_getCandidates (s : candidateStore) t key value :
  (t, key, value) ∈ allEntries s -> getCandidates s t key = value.
Proof.
  unfold allEntries, getCandidates.
  intros ([t' byName] & Hin & Ht)%list_elem_of_bind.
  apply list_elem_of_fmap in Hin as ([key' value'] & [= -> -> ->] & Hk).
  apply elem_of_map_to_list in Ht, Hk. simpl in *. by rewrite Ht, Hk.
Qed.

Lemma productCandidatesByPkgType_entries :
  Forall tableEntry (allEntries productCandidatesByPkgType).
Proof. compute_done. Qed.

(** X19: the override table as [getCandidates] reads it: the aliases of a
    package type and name have no duplicate; only Java, npm, gem and Python
    packages have aliases; every alias is non-empty, differs from the name
    it is listed for, holds no bar, is lower-case and is a result of its own
    expansion; and the aliases of a name are exactly the list of its entry,
    which is never empty. *)
Theorem getCandidates_table t key :
  let aliases := getCandidates productCandidatesByPkgType t key in
  NoDup aliases ∧
  (aliases ≠ [] -> t ∈ [JavaPkg; NpmPkg; GemPkg; PythonPkg]) ∧
  (∀ alias, alias ∈ aliases ->
     alias ≠ "" ∧ alias ≠ key ∧ Contains alias "|" = false ∧
     ToLower alias = alias ∧ alias ∈ generateSubSelections alias) ∧
  (∀ value, (t, key, value) ∈ allEntries productCandidatesByPkgType ->
     aliases = value ∧ value ≠ []).
Proof.
  cbv zeta.
  pose proof productCandidatesByPkgType_entries as Hall. rewrite Forall_forall in Hall.
  split_and!.
  - destruct (getCandidates_allEntries productCandidatesByPkgType t key) as [->|Hin];
      [constructor|]. apply (Hall _ Hin).
  - intros Hne.
    destruct (getCandidates_allEntries productCandidatesByPkgType t key) as [|Hin];
      [done|]. apply (Hall _ Hin).
  - intros alias Ha.
    destruct (getCandidates_allEntries productCandidatesByPkgType t key) as [Hnil|Hin].
    { rewrite Hnil in Ha. by apply elem_of_nil in Ha. }
    destruct (Hall _ Hin) as (_ & _ & _ & Hf). rewrite Forall_forall in Hf.
    apply (Hf _ Ha).
  - intros value Hin. split; [by apply allEntries_getCandidates|].
    apply (Hall _ Hin).
Qed.

Section GoPackage.

Context {ext : Externals}.

(** X20: for a Go package without Java metadata and without override alias
    whose name is a host other than "golang.org", "gopkg.in" and
    "google.golang.org" followed by at least two non-empty path elements
    (all of plain bytes), the product candidates are the separator variants
    of the second element, and the vendor candidates are the sub-selections
    of the separator variants of the first element, both without duplicates. *)
Theorem go_package_candidates p host first second more :
  PLanguage p = Go -> PMetadataType p ≠ JavaMetadataType ->
  getCandidates productCandidatesByPkgType (PType p) (Name p) = [] ->
  plain host = true ->
  Forall (fun e => e ≠ "" ∧ plain e = true) (first :: second :: more) ->
  host ∉ ["golang.org"; "gopkg.in"; "google.golang.org"] ->
  Name p = host +:+ "/" +:+ String.concat "/" (first :: second :: more) ->
  candidateProducts p = removeDuplicateValues (normalizeSeparators second) ∧
  candidateVendors p
  = removeDuplicateValues (generateAllSubSelections (normalizeSeparators first)).
Proof.
  intros Hgo Hmeta Halias Hhost Hall Hspecial Hname.
  destruct (go_module_path_other_host host first second more Hhost Hall Hspecial)
    as [Hproduct Hvendor].
  rewrite <-Hname in Hproduct, Hvendor.
  apply Forall_cons in Hall as [[Hfirst _] Hall].
  apply Forall_cons in Hall as [[Hsecond _] _].
  split.
  - unfold candidateProducts, baseProducts.
    rewrite bool_decide_eq_false_2 by (rewrite Hgo; discriminate).
    rewrite bool_decide_eq_false_2 by done.
    rewrite bool_decide_eq_true_2 by done.
    rewrite Hproduct, Halias.
    destruct (String.eqb_spec second "") as [|_]; [done|].
    cbn [negb normalizeAllSeparators app]. by rewrite app_nil_r.
  - unfold candidateVendors, baseVendors. rewrite Hgo, Hvendor.
    destruct (String.eqb_spec first "") as [|_]; [done|].
    cbn [negb normalizeAllSeparators]. by rewrite app_nil_r.
Qed.

End GoPackage.

(** X20 (witness): the module "github.com/go-yaml/yaml_v2". *)
Lemma go_package_candidates_witness :
  let p := plainPackage "github.com/go-yaml/yaml_v2" "2.4.0" Go GoModulePkg in
  candidateProducts (ext:=upstream) p = ["yaml_v2"; "yaml-v2"; "yamlv2"] ∧
  candidateVendors (ext:=upstream) p = ["go"; "go-yaml"; "go_yaml"; "goyaml"].
Proof.
  cbv zeta.
  assert (Forall (fun e => e ≠ "" ∧ plain e = true) ["go-yaml"; "yaml_v2"]) as Hall
    by (repeat constructor; done).
  destruct (go_package_candidates (ext:=upstream)
              (plainPackage "github.com/go-yaml/yaml_v2" "2.4.0" Go GoModulePkg)
              "github.com" "go-yaml" "yaml_v2" []) as [Hp Hv].
  - reflexivity.
  - discriminate.
  - vm_compute. reflexivity.
  - reflexivity.
  - exact Hall.
  - intros Hin.
    repeat (apply elem_of_cons in Hin as [Hin|Hin]; [discriminate Hin|]).
    by apply elem_of_nil in Hin.
  - reflexivity.
  - split; [rewrite Hp|rewrite Hv]; vm_compute; reflexivity.
Defined.
